(** * spotifysort: the playlist reordering pass of [playlist.c]

    A shallow embedding of [sort_playlists] and of the functions it calls
    ([create_node], [merge_sort], [merge], [sort_list], [_flatten_list],
    [flatten_list], [recalculate_indexes], and the test-only
    [move_playlist]), and of [trim] and the callback [logged_in] of
    [main.c], followed by the properties of the pass.

    Part 1 is the program, Part 2 the vocabulary in which its properties are
    stated, Part 3 the properties and their proofs.

    Conventions.
    - C [int] values are integers of [Z]; loop counters that only count
      upwards from zero are [nat] and are injected with [Z.of_nat] where the
      source stores them in an [int] field.  The only arithmetic on stored
      values is the increment in [recalculate_indexes], of a value that is
      smaller than another [int], so no operation of the pass can overflow.
    - The first loop of [sort_playlists] links its nodes by assignments
      through pointers: there a node is a record in a memory and a [node *]
      is an address.  Part 1 ends with the same loop as it acts on the
      forest the memory holds, and Part 3 proves that the two agree.
    - The sorter and the flattening only follow the chains they are given
      and relink them: for them a [node *] that heads a chain linked through
      [next] is a [list node], [NULL] is [[]], and the [children] pointer of
      a node is the list of its children.  Module [Heap] of Part 1 has the
      same functions, and [free_list], as they act on the records in memory,
      and Part 3 proves that they do what the functions on lists do.
    - Undefined behaviour of the C program (dereferencing a null pointer,
      reading a [malloc]ed cell that was never written, writing past the end
      of an allocation) is an explicit [fault], at which the run stops.
    - What the pass does to the outside is a trace of events: its [printf]
      calls and its calls of [sp_playlistcontainer_move_playlist].
    - [malloc] and [strdup] succeed; of the calls of [free] only those of
      [free_list] are kept, as the list of the nodes it frees. *)

From Stdlib Require Import String Ascii Bool Arith ZArith Lia List.
From Stdlib Require Import Permutation Sorted.
From Equations Require Import Equations.
Import ListNotations.

Set Warnings "-register-all".

Local Open Scope Z_scope.

(** * Part 1: the program *)

(** ** The playlist container, as the libspotify queries show it *)

(** One slot of the container: what [sp_playlistcontainer_playlist_type],
    [sp_playlist_is_loaded], [sp_playlist_name] and
    [sp_playlistcontainer_playlist_folder_name] answer for it. *)
Inductive entry : Type :=
| SP_PLAYLIST_TYPE_PLAYLIST (is_loaded : bool) (name : string)
| SP_PLAYLIST_TYPE_START_FOLDER (folder_name : string)
| SP_PLAYLIST_TYPE_END_FOLDER
| SP_PLAYLIST_TYPE_PLACEHOLDER.

Definition sp_playlistcontainer := list entry.

Definition sp_playlistcontainer_num_playlists (pc : sp_playlistcontainer) : nat :=
  length pc.

(** ** [strcmp] *)

Definition byte_of (c : ascii) : Z := Z.of_N (N_of_ascii c).

(** The next [unsigned char] of a C string and the rest of it; the end of the
    string reads as the terminating zero byte, and a zero byte ends it. *)
Definition next_char (s : string) : Z * string :=
  match s with
  | EmptyString => (0, EmptyString)
  | String c r => if byte_of c =? 0 then (0, EmptyString) else (byte_of c, r)
  end.

(** [strcmp]: the program only looks at the sign of the result, which is that
    of the difference of the first two bytes that differ, compared as
    [unsigned char]; the result is zero when both strings end together. *)
Fixpoint strcmp (s1 s2 : string) : Z :=
  match s1 with
  | EmptyString => 0 - fst (next_char s2)
  | String c1 r1 =>
      if byte_of c1 =? 0 then 0 - fst (next_char s2)
      else match s2 with
           | EmptyString => byte_of c1
           | String c2 r2 =>
               if byte_of c1 =? byte_of c2 then strcmp r1 r2
               else byte_of c1 - byte_of c2
           end
  end.

(** ** Items and nodes *)

(** [struct s_playlist_item]. *)
Record playlist_item : Type := mk_item {
  index : Z;
  end_index : Z;   (* for folders *)
  name : string
}.

(** [create_playlist_item]: a fresh item with no end yet. *)
Definition create_playlist_item (i : Z) (nm : string) : playlist_item :=
  {| index := i; end_index := -1; name := nm |}.

(** [struct s_node]: the [item] and the [children] chain; the [next] pointer
    is the tail of the list the node stands in.  The [parent] pointer is only
    followed while the tree is built and lives in the builder's state. *)
Inductive node : Type :=
| Node (item : playlist_item) (children : list node).

Definition item (n : node) : playlist_item := let 'Node it _ := n in it.
Definition children (n : node) : list node := let 'Node _ ch := n in ch.

(** ** Merge sort *)

(** [merge]: the head of the first chain goes first only when its name is
    strictly smaller ([strcmp (...) < 0]); otherwise the head of the second. *)
Fixpoint merge (head_one : list node) : list node -> list node :=
  fix merge_two (head_two : list node) : list node :=
    match head_one, head_two with
    | [], _ => head_two
    | _, [] => head_one
    | one :: next_one, two :: next_two =>
        if strcmp (name (item one)) (name (item two)) <? 0
        then one :: merge next_one head_two
        else two :: merge_two next_two
    end.

(** The [while] loop of [merge_sort]: [head] walks one node per round and
    [head_two] is set to [head->next->next] of the new [head]; the loop runs
    while [head_two] and [head_two->next] are not null.  The result is the
    chain cut after the final [head]: [(head_one, head_two)]. *)
Fixpoint split_walk (head head_two : list node) : list node * list node :=
  match head with
  | [] => ([], [])
  | h :: next =>
      match head_two with
      | _ :: _ :: _ =>
          let '(front, back) := split_walk next (tl (tl next)) in
          (h :: front, back)
      | _ => ([h], next)
      end
  end.

Definition split (head : list node) : list node * list node :=
  split_walk head (tl head).

Lemma split_walk_app (head head_two : list node) :
  fst (split_walk head head_two) ++ snd (split_walk head head_two) = head.
Proof.
  revert head_two; induction head as [|h next IH]; intros head_two; simpl.
  - reflexivity.
  - destruct head_two as [|x [|y r]]; simpl; try reflexivity.
    specialize (IH (tl (tl next))).
    destruct (split_walk next (tl (tl next))) as [front back]; simpl in *.
    now rewrite IH.
Qed.

Lemma split_walk_front (h : node) (next head_two : list node) :
  fst (split_walk (h :: next) head_two) <> [].
Proof.
  simpl. destruct head_two as [|x [|y r]]; simpl; try discriminate.
  destruct (split_walk next (tl (tl next))); discriminate.
Qed.

(** Started with [head_two] behind [head] on a chain of two nodes or more,
    the walk leaves at least one node in the second part. *)
Lemma split_walk_back (head head_two : list node) :
  (2 <= length head)%nat -> (length head_two < length head)%nat ->
  snd (split_walk head head_two) <> [].
Proof.
  revert head_two; induction head as [|h next IH]; intros head_two L2 Lt.
  - simpl in L2. lia.
  - simpl. destruct head_two as [|x [|y r]]; simpl.
    + destruct next; [simpl in L2; lia | discriminate].
    + destruct next; [simpl in L2; lia | discriminate].
    + specialize (IH (tl (tl next))).
      destruct (split_walk next (tl (tl next))) as [front back]; simpl in *.
      apply IH; [lia|]. destruct next as [|a [|b nn]]; simpl in *; lia.
Qed.

Lemma split_shorter (a b : node) (rest : list node) :
  (length (fst (split (a :: b :: rest))) < length (a :: b :: rest))%nat /\
  (length (snd (split (a :: b :: rest))) < length (a :: b :: rest))%nat.
Proof.
  unfold split.
  pose proof (split_walk_app (a :: b :: rest) (tl (a :: b :: rest))) as E.
  pose proof (split_walk_front a (b :: rest) (tl (a :: b :: rest))) as F.
  pose proof (split_walk_back (a :: b :: rest) (tl (a :: b :: rest))) as B.
  apply (f_equal (@length node)) in E. rewrite length_app in E.
  destruct (fst (split_walk (a :: b :: rest) (tl (a :: b :: rest)))) as [|f fs];
    [easy|].
  destruct (snd (split_walk (a :: b :: rest) (tl (a :: b :: rest)))) as [|s ss].
  - exfalso. apply B; simpl; try lia. reflexivity.
  - simpl in *. lia.
Qed.

(** [merge_sort]: a chain of at most one node is returned as it is; a longer
    one is cut by the walk and the two sorted parts are merged. *)
Equations? merge_sort (head : list node) : list node by wf (length head) lt :=
  merge_sort [] := [];
  merge_sort [n] := [n];
  merge_sort (a :: b :: rest) :=
    merge (merge_sort (fst (split (a :: b :: rest))))
          (merge_sort (snd (split (a :: b :: rest)))).
Proof.
  - apply (split_shorter a b rest).
  - apply (split_shorter a b rest).
Qed.

(** [sort_list]: the children of every node of the chain are sorted first
    (when there are any), then the chain itself. *)
Fixpoint sort_children (n : node) : node :=
  let 'Node it ch := n in
  Node it (match ch with
           | [] => []
           | _ => merge_sort (map sort_children ch)
           end).

Definition sort_list (head : list node) : list node :=
  merge_sort (map sort_children head).

(** ** Flatten for reordering *)

(** [_flatten_list]: the values it stores in [reorder] at the running [idx],
    in the order of the stores: the [index] of the head, then, only when the
    head has children, their flattening and the head's [end_index], then the
    rest of the chain.  The two recursive calls are made on a pointer that
    is not null only, so the empty list below is a call that is not made;
    the one call on a pointer that may be null is that of [flatten_list]. *)
Fixpoint _flatten_node (head : node) : list Z :=
  let 'Node it ch := head in
  index it ::
  match ch with
  | [] => []
  | _ => flat_map _flatten_node ch ++ [end_index it]
  end.

Definition _flatten_list (head : list node) : list Z :=
  flat_map _flatten_node head.

(** ** Faults and the [reorder] array *)

(** The ways in which the run can go wrong. *)
Inductive fault : Type :=
| NullDereference                 (* [previous->item] with [previous == NULL] *)
| UninitialisedRead (i : nat)     (* [reorder[i]] read, never written *)
| OutOfBounds (i : nat).          (* access past the end of [reorder] *)

Inductive result (A : Type) : Type :=
| Ok (a : A)
| Fault (f : fault).
Arguments Ok {A} a.
Arguments Fault {A} f.

(** A cell of a [malloc]ed [int] array: [None] until it is written. *)
Abbreviation cell := (option Z).

Definition malloc (n : nat) : list cell := repeat None n.

(** [reorder[i]] as a value: the cell must have been written. *)
Definition read (reorder : list cell) (i : nat) : result Z :=
  match nth_error reorder i with
  | Some (Some v) => Ok v
  | Some None => Fault (UninitialisedRead i)
  | None => Fault (OutOfBounds i)
  end.

(** [reorder[i] = v]. *)
Definition write (reorder : list cell) (i : nat) (v : Z) : result (list cell) :=
  if (i <? length reorder)%nat
  then Ok (firstn i reorder ++ Some v :: skipn (S i) reorder)
  else Fault (OutOfBounds i).

(** The stores of [_flatten_list] into [reorder], from [idx] on. *)
Fixpoint store_all (reorder : list cell) (idx : nat) (vals : list Z)
  : result (list cell) :=
  match vals with
  | [] => Ok reorder
  | v :: vals' =>
      match write reorder idx v with
      | Ok reorder' => store_all reorder' (S idx) vals'
      | Fault f => Fault f
      end
  end.

(** [flatten_list]: [idx] starts at 0.  [_flatten_list] reads
    [head->item] before anything else, so a null [head] is followed. *)
Definition flatten_list (head : list node) (reorder : list cell)
  : result (list cell) :=
  match head with
  | [] => Fault NullDereference
  | _ :: _ => store_all reorder 0 (_flatten_list head)
  end.

(** [recalculate_indexes]: the [for] loop, [n] slots still to visit. *)
Fixpoint recalculate_loop (n : nat) (reorder : list cell) (original_index : Z)
  (i : nat) : result (list cell) :=
  match n with
  | O => Ok reorder
  | S n' =>
      match read reorder i with
      | Fault f => Fault f
      | Ok v =>
          if v <? original_index
          then match write reorder i (v + 1) with
               | Ok reorder' => recalculate_loop n' reorder' original_index (S i)
               | Fault f => Fault f
               end
          else recalculate_loop n' reorder original_index (S i)
      end
  end.

(** [recalculate_indexes]: every entry from [moved] on that is smaller than
    the entry at [moved] is incremented. *)
Definition recalculate_indexes (reorder : list cell) (size moved : nat)
  : result (list cell) :=
  match read reorder moved with
  | Fault f => Fault f
  | Ok original_index =>
      recalculate_loop (size - moved) reorder original_index moved
  end.

(** ** Nodes in memory and [create_node] *)

(** A [struct s_node] in memory.  A [node *] is the address of a record,
    [None] is [NULL].  Each node owns the item it points to, so the item is
    kept in the record. *)
Record s_node : Type := mk_s_node {
  p_next : option nat;
  p_children : option nat;
  p_parent : option nat;
  p_item : playlist_item
}.

(** The records that were allocated, in the order of allocation: the address
    of a record is its position. *)
Definition memory : Type := list s_node.

(** An assignment through a pointer: the record at [p] becomes [f] of it. *)
Definition poke (mem : memory) (p : nat) (f : s_node -> s_node) : memory :=
  match nth_error mem p with
  | Some n => firstn p mem ++ f n :: skipn (S p) mem
  | None => mem
  end.

(** [create_node]: a new record with [next] and [children] null; [previous],
    when there is one, gets it as [next]; [parent], when there is one and it
    has no child yet, gets it as [children]. *)
Definition create_node (mem : memory) (previous parent : option nat)
  (it : playlist_item) : memory * nat :=
  let new_node := length mem in
  let mem1 := mem ++ [mk_s_node None None parent it] in
  let mem2 :=
    match previous with
    | Some p =>
        poke mem1 p
          (fun n => mk_s_node (Some new_node) (p_children n) (p_parent n) (p_item n))
    | None => mem1
    end in
  let mem3 :=
    match parent with
    | Some q =>
        match option_map p_children (nth_error mem2 q) with
        | Some None =>
            poke mem2 q
              (fun n => mk_s_node (p_next n) (Some new_node) (p_parent n) (p_item n))
        | _ => mem2
        end
    | None => mem2
    end in
  (mem3, new_node).

(** The chain a pointer heads, read out of memory as a forest.  [fuel]
    bounds the number of records that are followed on any one path. *)
Fixpoint chain_at (fuel : nat) (m : memory) (head : option nat) : list node :=
  match fuel with
  | O => []
  | S fuel' =>
      match head with
      | None => []
      | Some p =>
          match nth_error m p with
          | None => []
          | Some n => Node (p_item n) (chain_at fuel' m (p_children n))
                      :: chain_at fuel' m (p_next n)
          end
      end
  end.

(** ** The first loop of [sort_playlists] *)

(** The memory and the locals [items], [parent], [previous] and
    [not_loaded] of [sort_playlists]. *)
Record locals : Type := mk_locals {
  mem : memory;
  l_items : option nat;
  l_parent : option nat;
  l_previous : option nat;
  l_not_loaded : Z
}.

Definition set_end_index (it : playlist_item) (i : Z) : playlist_item :=
  {| index := index it; end_index := i; name := name it |}.

(** The body of the [switch] for the entry at position [i].  At an
    [END_FOLDER] the source writes through [parent] without a test. *)
Definition first_loop_step (s : locals) (i : nat) (e : entry) : result locals :=
  match e with
  | SP_PLAYLIST_TYPE_PLAYLIST is_loaded nm =>
      if negb is_loaded
      then Ok (mk_locals (mem s) (l_items s) (l_parent s) (l_previous s)
                 (l_not_loaded s + 1))
      else
        let '(m, n) := create_node (mem s) (l_previous s) (l_parent s)
                         (create_playlist_item (Z.of_nat i) nm) in
        Ok (mk_locals m (match l_items s with None => Some n | x => x end)
              (l_parent s) (Some n) (l_not_loaded s))
  | SP_PLAYLIST_TYPE_START_FOLDER nm =>
      let '(m, n) := create_node (mem s) (l_previous s) (l_parent s)
                       (create_playlist_item (Z.of_nat i) nm) in
      Ok (mk_locals m (match l_items s with None => Some n | x => x end)
            (Some n) None (l_not_loaded s))
  | SP_PLAYLIST_TYPE_END_FOLDER =>
      match l_parent s with
      | None => Fault NullDereference
      | Some p =>
          match nth_error (mem s) p with
          | None => Fault NullDereference
          | Some n =>
              Ok (mk_locals
                    (poke (mem s) p
                       (fun n => mk_s_node (p_next n) (p_children n) (p_parent n)
                                   (set_end_index (p_item n) (Z.of_nat i))))
                    (l_items s) (p_parent n) (Some p) (l_not_loaded s))
          end
      end
  | SP_PLAYLIST_TYPE_PLACEHOLDER => Ok s
  end.

(** The first [for] loop over the entries that are left, the next one
    standing at position [i]. *)
Fixpoint first_loop (pc : list entry) (i : nat) (s : locals) : result locals :=
  match pc with
  | [] => Ok s
  | e :: pc' =>
      match first_loop_step s i e with
      | Ok s' => first_loop pc' (S i) s'
      | Fault f => Fault f
      end
  end.

(** ** The move loop and [sort_playlists] *)

(** What the pass prints and what it asks of the container. *)
Inductive event : Type :=
| printf_reordering (num_playlists : nat)
| printf_dot
| printf_error (not_loaded : Z)
| printf_done
| sp_playlistcontainer_move_playlist (index new_position : Z).

(** The second [for] loop of [sort_playlists], [n] slots still to visit. *)
Fixpoint move_loop (n : nat) (reorder : list cell) (num_playlists i : nat)
  : list event * result (list cell) :=
  match n with
  | O => ([], Ok reorder)
  | S n' =>
      match read reorder i with
      | Fault f => ([printf_dot], Fault f)
      | Ok v =>
          if Z.of_nat i =? v
          then let '(t, r) := move_loop n' reorder num_playlists (S i) in
               (printf_dot :: t, r)
          else
            match recalculate_indexes reorder num_playlists i with
            | Fault f =>
                ([printf_dot; sp_playlistcontainer_move_playlist v (Z.of_nat i)],
                 Fault f)
            | Ok reorder' =>
                let '(t, r) := move_loop n' reorder' num_playlists (S i) in
                (printf_dot :: sp_playlistcontainer_move_playlist v (Z.of_nat i) :: t,
                 r)
            end
      end
  end.

(** What a call of [sort_playlists] does: the calls it makes, in order, and
    how it ends. *)
Record outcome : Type := mk_outcome {
  trace : list event;
  returned : result Z
}.

(** [sort_playlists]: the first loop runs; with a playlist that is not
    loaded the count is printed and the pass ends; otherwise, when [items]
    is not null, the chain it heads is sorted and flattened into a fresh
    array of [num_playlists] cells and the move loop runs over it.  Both
    ways out return 1. *)
Definition sort_playlists (pc : sp_playlistcontainer) : outcome :=
  let num_playlists := sp_playlistcontainer_num_playlists pc in
  let start := [printf_reordering num_playlists] in
  match first_loop pc 0 (mk_locals [] None None None 0) with
  | Fault f => mk_outcome start (Fault f)
  | Ok s =>
      if l_not_loaded s >? 0
      then mk_outcome (start ++ [printf_error (l_not_loaded s)]) (Ok 1)
      else
        match l_items s with
        | None => mk_outcome start (Ok 1)
        | Some _ =>
            let sorted :=
              sort_list (chain_at (S (length (mem s))) (mem s) (l_items s)) in
            match flatten_list sorted (malloc num_playlists) with
            | Fault f => mk_outcome start (Fault f)
            | Ok reorder =>
                match move_loop num_playlists reorder num_playlists 0 with
                | (t, Ok _) => mk_outcome (start ++ t ++ [printf_done]) (Ok 1)
                | (t, Fault f) => mk_outcome (start ++ t) (Fault f)
                end
            end
        end
  end.

(** ** The test-only [move_playlist] *)

(** With [TESTING] defined the move loop calls [move_playlist] on an array
    of its own in place of the container; it is the remove-then-reinsert
    move.  Its [size] argument is not used. *)

(** [faux_playlist[i] = x], [None] outside the array. *)
Definition assign {A : Type} (faux : list A) (i : nat) (x : A) : option (list A) :=
  if (i <? length faux)%nat
  then Some (firstn i faux ++ x :: skipn (S i) faux)
  else None.

(** [for (i = from_index + 1; i <= to_index; ++i) faux[i-1] = faux[i]],
    [n] rounds still to run. *)
Fixpoint shift_down {A : Type} (n : nat) (faux : list A) (i : nat)
  : option (list A) :=
  match n with
  | O => Some faux
  | S n' =>
      match nth_error faux i with
      | None => None
      | Some x =>
          match assign faux (i - 1) x with
          | None => None
          | Some faux' => shift_down n' faux' (S i)
          end
      end
  end.

(** [for (i = from_index - 1; i >= to_index; --i) faux[i+1] = faux[i]],
    [n] rounds still to run. *)
Fixpoint shift_up {A : Type} (n : nat) (faux : list A) (i : nat)
  : option (list A) :=
  match n with
  | O => Some faux
  | S n' =>
      match nth_error faux i with
      | None => None
      | Some x =>
          match assign faux (i + 1) x with
          | None => None
          | Some faux' => shift_up n' faux' (i - 1)
          end
      end
  end.

(** [move_playlist]: the item at [from_index] is taken out, the items between
    the two positions move one place towards the hole, and the item goes in
    at [to_index]. *)
Definition move_playlist {A : Type} (faux : list A) (from_index to_index : nat)
  : option (list A) :=
  match nth_error faux from_index with
  | None => None
  | Some it =>
      match (if (from_index <? to_index)%nat
             then shift_down (to_index - from_index) faux (from_index + 1)
             else if (to_index <? from_index)%nat
                  then shift_up (from_index - to_index) faux (from_index - 1)
                  else Some faux) with
      | None => None
      | Some faux' => assign faux' to_index it
      end
  end.

(** ** The first loop on trees *)

(** The same loop with the memory read as the forest it holds; Part 3
    proves that the two loops agree ([first_loop_builds]).  The chain
    [parent], [parent->parent], ... is [parents], innermost first: each open
    folder with the nodes that stand before it in its own chain, latest
    first.  [siblings] is the chain that is being extended, latest first, so
    that [previous] is its head and [previous == NULL] is [siblings = []].
    [create_node] links the new node behind [previous], or as the first child
    of [parent] when there is none. *)
Record builder : Type := mk_builder {
  parents : list (playlist_item * list node);
  siblings : list node;
  not_loaded : Z
}.

(** The body of the [switch] for the entry at position [i]. *)
Definition build_step (st : builder) (i : nat) (e : entry) : result builder :=
  match e with
  | SP_PLAYLIST_TYPE_PLAYLIST is_loaded nm =>
      if negb is_loaded
      then Ok (mk_builder (parents st) (siblings st) (not_loaded st + 1))
      else Ok (mk_builder (parents st)
                 (Node (create_playlist_item (Z.of_nat i) nm) [] :: siblings st)
                 (not_loaded st))
  | SP_PLAYLIST_TYPE_START_FOLDER nm =>
      Ok (mk_builder
            ((create_playlist_item (Z.of_nat i) nm, siblings st) :: parents st)
            [] (not_loaded st))
  | SP_PLAYLIST_TYPE_END_FOLDER =>
      match parents st with
      | [] => Fault NullDereference
      | (it, before) :: up =>
          Ok (mk_builder up
                (Node (set_end_index it (Z.of_nat i)) (rev (siblings st)) :: before)
                (not_loaded st))
      end
  | SP_PLAYLIST_TYPE_PLACEHOLDER => Ok st
  end.

(** The first [for] loop over the entries that are left, the next one
    standing at position [i]. *)
Fixpoint build_loop (pc : list entry) (i : nat) (st : builder) : result builder :=
  match pc with
  | [] => Ok st
  | e :: pc' =>
      match build_step st i e with
      | Ok st' => build_loop pc' (S i) st'
      | Fault f => Fault f
      end
  end.

(** The chain headed by [items] once the loop is over: folders that were
    never closed keep the children they were given and [end_index = -1]. *)
Fixpoint items_of (parents : list (playlist_item * list node))
  (siblings : list node) : list node :=
  match parents with
  | [] => rev siblings
  | (it, before) :: up => items_of up (Node it (rev siblings) :: before)
  end.

Definition items (st : builder) : list node :=
  items_of (parents st) (siblings st).

(** [sort_playlists] with its first loop run on trees; Part 3 proves the two
    equal ([sort_playlists_on_trees_eq]). *)
Definition sort_playlists_on_trees (pc : sp_playlistcontainer) : outcome :=
  let num_playlists := sp_playlistcontainer_num_playlists pc in
  let start := [printf_reordering num_playlists] in
  match build_loop pc 0 (mk_builder [] [] 0) with
  | Fault f => mk_outcome start (Fault f)
  | Ok st =>
      if not_loaded st >? 0
      then mk_outcome (start ++ [printf_error (not_loaded st)]) (Ok 1)
      else
        match items st with
        | [] => mk_outcome start (Ok 1)
        | _ =>
            let sorted := sort_list (items st) in
            match flatten_list sorted (malloc num_playlists) with
            | Fault f => mk_outcome start (Fault f)
            | Ok reorder =>
                match move_loop num_playlists reorder num_playlists 0 with
                | (t, Ok _) => mk_outcome (start ++ t ++ [printf_done]) (Ok 1)
                | (t, Fault f) => mk_outcome (start ++ t) (Fault f)
                end
            end
        end
  end.

(** ** [main.c]: [trim] *)

(** The value of a [char] in a comparison: whether [char] is signed is left
    to the implementation, and with a signed [char] the bytes from 128 on
    are negative. *)
Definition char_value (char_is_signed : bool) (c : ascii) : Z :=
  if char_is_signed && (128 <=? byte_of c) then byte_of c - 256 else byte_of c.

(** [strlen] on a buffer: the position of its first zero byte; without one
    it reads past the end of the buffer. *)
Fixpoint strlen (buf : list ascii) : option nat :=
  match buf with
  | [] => None
  | c :: rest => if byte_of c =? 0 then Some 0%nat else option_map S (strlen rest)
  end.

(** The loop of [trim], at [l]: while [l > 0] and [buf[l - 1] < 32], the
    byte at [l - 1] is set to zero and [l] goes down by one. *)
Fixpoint trim_loop (char_is_signed : bool) (buf : list ascii) (l : nat)
  : option (list ascii) :=
  match l with
  | O => Some buf
  | S l' =>
      match nth_error buf l' with
      | None => None
      | Some c =>
          if char_value char_is_signed c <? 32
          then match assign buf l' zero with
               | Some buf' => trim_loop char_is_signed buf' l'
               | None => None
               end
          else Some buf
      end
  end.

(** [trim]: the buffer afterwards. *)
Definition trim (char_is_signed : bool) (buf : list ascii) : option (list ascii) :=
  match strlen buf with
  | None => None
  | Some l => trim_loop char_is_signed buf l
  end.

(** ** [main.c]: the callback [logged_in] *)

(** What [logged_in] is called with: the error of the login, and of the
    session the user and the playlist container. *)
Inductive sp_error : Type :=
| SP_ERROR_OK
| SP_ERROR_OTHER (sp_error_message : string).

Record sp_user : Type := mk_sp_user {
  sp_user_is_loaded : bool;
  sp_user_display_name : string;
  sp_user_canonical_name : string
}.

Record sp_session : Type := mk_sp_session {
  sp_session_user : sp_user;
  sp_session_playlistcontainer : sp_playlistcontainer
}.

(** What [logged_in] prints and calls, the events of [sort_playlists] among
    them. *)
Inductive call : Type :=
| fprintf_failed_to_log_in (message : string)
| sp_session_release
| fprintf_logged_in (my_name : string)
| in_sort_playlists (e : event)
| sp_session_logout.

(** How [logged_in] ends: it returns, with [g_quit] set; it ends the process
    with [exit]; or [sort_playlists] went wrong. *)
Inductive ending : Type :=
| returns (g_quit : Z)
| exits (status : Z)
| goes_wrong (f : fault).

(** [logged_in]: the value that [sort_playlists] returns is not looked at. *)
Definition logged_in (sess : sp_session) (error : sp_error) : list call * ending :=
  match error with
  | SP_ERROR_OTHER message =>
      ([fprintf_failed_to_log_in message; sp_session_release], exits 4)
  | SP_ERROR_OK =>
      let me := sp_session_user sess in
      let my_name := if sp_user_is_loaded me then sp_user_display_name me
                     else sp_user_canonical_name me in
      let pass := sort_playlists (sp_session_playlistcontainer sess) in
      match returned pass with
      | Ok _ =>
          (fprintf_logged_in my_name :: map in_sort_playlists (trace pass)
             ++ [sp_session_logout],
           returns 1)
      | Fault f =>
          (fprintf_logged_in my_name :: map in_sort_playlists (trace pass),
           goes_wrong f)
      end
  end.

(** ** The sorter, the flattening and [free_list] on pointers *)

(** The functions that follow the first loop, as they act on the records in
    memory.  The recursion of the source is bounded by [fuel]: a run is
    [None] when the fuel ran out, and otherwise the result or the fault at
    which it stopped.  Part 3 proves that on the chains the first loop
    builds the fuel suffices and these functions do what the functions on
    lists of Part 1 do. *)
Module Heap.

Definition run (A : Type) : Type := option (result A).

Definition ret {A : Type} (a : A) : run A := Some (Ok a).

Definition wrong {A : Type} (f : fault) : run A := Some (Fault f).

Definition bind {A B : Type} (c : run A) (k : A -> run B) : run B :=
  match c with
  | Some (Ok a) => k a
  | Some (Fault f) => Some (Fault f)
  | None => None
  end.

Definition lift {A : Type} (r : result A) : run A := Some r.

(** The record a pointer points to; following a null pointer is a fault. *)
Definition load (m : memory) (p : option nat) : run s_node :=
  match p with
  | None => wrong NullDereference
  | Some a =>
      match nth_error m a with
      | Some r => ret r
      | None => wrong NullDereference
      end
  end.

(** [p->next = rest] and [p->children = c]. *)
Definition set_next (rest : option nat) (n : s_node) : s_node :=
  mk_s_node rest (p_children n) (p_parent n) (p_item n).

Definition set_children (c : option nat) (n : s_node) : s_node :=
  mk_s_node (p_next n) c (p_parent n) (p_item n).

Definition store (m : memory) (p : option nat) (f : s_node -> s_node) : memory :=
  match p with
  | Some a => poke m a f
  | None => m
  end.

(** [merge]: the memory afterwards and the pointer it returns. *)
Fixpoint merge (fuel : nat) (m : memory) (head_one head_two : option nat)
  : run (memory * option nat) :=
  match fuel with
  | O => None
  | S fuel' =>
      match head_one, head_two with
      | None, _ => ret (m, head_two)
      | _, None => ret (m, head_one)
      | Some _, Some _ =>
          bind (load m head_one) (fun one =>
          bind (load m head_two) (fun two =>
          if strcmp (name (p_item one)) (name (p_item two)) <? 0
          then
            bind (merge fuel' m (p_next one) head_two) (fun '(m', rest) =>
            ret (store m' head_one (set_next rest), head_one))
          else
            bind (merge fuel' m head_one (p_next two)) (fun '(m', rest) =>
            ret (store m' head_two (set_next rest), head_two))))
      end
  end.

(** The [while] loop of [merge_sort]: the final [head]. *)
Fixpoint walk (fuel : nat) (m : memory) (head head_two : option nat)
  : run (option nat) :=
  match fuel with
  | O => None
  | S fuel' =>
      match head_two with
      | None => ret head
      | Some _ =>
          bind (load m head_two) (fun two =>
          match p_next two with
          | None => ret head
          | Some _ =>
              bind (load m head) (fun h =>
              let head' := p_next h in
              bind (load m head') (fun h' =>
              bind (load m (p_next h')) (fun h'' =>
              walk fuel' m head' (p_next h''))))
          end)
      end
  end.

(** [merge_sort].  The order in which the two arguments of the call of
    [merge] are evaluated is not fixed by the language: [left_first] tells
    whether [merge_sort(head_one)] runs before [merge_sort(head_two)]. *)
Fixpoint merge_sort (left_first : bool) (fuel : nat) (m : memory)
  (head : option nat) : run (memory * option nat) :=
  match fuel with
  | O => None
  | S fuel' =>
      match head with
      | None => ret (m, head)
      | Some _ =>
          bind (load m head) (fun h =>
          match p_next h with
          | None => ret (m, head)
          | Some _ =>
              let head_one := head in
              bind (walk fuel' m head (p_next h)) (fun last =>
              bind (load m last) (fun l =>
              let head_two := p_next l in
              let m1 := store m last (set_next None) in
              if left_first
              then
                bind (merge_sort left_first fuel' m1 head_one) (fun '(m2, one) =>
                bind (merge_sort left_first fuel' m2 head_two) (fun '(m3, two) =>
                merge fuel' m3 one two))
              else
                bind (merge_sort left_first fuel' m1 head_two) (fun '(m2, two) =>
                bind (merge_sort left_first fuel' m2 head_one) (fun '(m3, one) =>
                merge fuel' m3 one two))))
          end)
      end
  end.

(** The [for] loop of [sort_list], at [n]; [sort] is [sort_list] itself. *)
Fixpoint sort_children_loop
  (sort : memory -> option nat -> run (memory * option nat))
  (steps : nat) (m : memory) (n : option nat) : run memory :=
  match steps with
  | O => None
  | S steps' =>
      match n with
      | None => ret m
      | Some _ =>
          bind (load m n) (fun r =>
          bind (match p_children r with
                | None => ret m
                | Some _ =>
                    bind (sort m (p_children r)) (fun '(m', c) =>
                    ret (store m' n (set_children c)))
                end) (fun m1 =>
          bind (load m1 n) (fun r1 =>
          sort_children_loop sort steps' m1 (p_next r1))))
      end
  end.

(** [sort_list]. *)
Fixpoint sort_list (left_first : bool) (fuel : nat) (m : memory)
  (head : option nat) : run (memory * option nat) :=
  match fuel with
  | O => None
  | S fuel' =>
      bind (sort_children_loop (sort_list left_first fuel') fuel' m head)
        (fun m1 => merge_sort left_first fuel' m1 head)
  end.

(** [_flatten_list]: the array and [*idx] afterwards. *)
Fixpoint _flatten_list (fuel : nat) (m : memory) (head : option nat)
  (reorder : list cell) (idx : nat) : run (list cell * nat) :=
  match fuel with
  | O => None
  | S fuel' =>
      bind (load m head) (fun h =>
      bind (lift (write reorder idx (index (p_item h)))) (fun reorder1 =>
      bind (match p_children h with
            | None => ret (reorder1, S idx)
            | Some _ =>
                bind (_flatten_list fuel' m (p_children h) reorder1 (S idx))
                  (fun '(reorder2, idx2) =>
                bind (lift (write reorder2 idx2 (end_index (p_item h))))
                  (fun reorder3 =>
                ret (reorder3, S idx2)))
            end) (fun '(reorder4, idx4) =>
      match p_next h with
      | None => ret (reorder4, idx4)
      | Some _ => _flatten_list fuel' m (p_next h) reorder4 idx4
      end)))
  end.

(** [flatten_list]. *)
Definition flatten_list (fuel : nat) (m : memory) (head : option nat)
  (reorder : list cell) : run (list cell) :=
  bind (_flatten_list fuel m head reorder 0) (fun '(reorder', _) => ret reorder').

(** [free_list]: the nodes it hands to [free], in the order of the calls.
    With each node go its item and the name of the item, which no other
    node points to. *)
Fixpoint free_list (fuel : nat) (m : memory) (head : option nat)
  : run (list nat) :=
  match fuel with
  | O => None
  | S fuel' =>
      bind (load m head) (fun h =>
      bind (match p_next h with
            | None => ret []
            | Some _ => free_list fuel' m (p_next h)
            end) (fun freed_next =>
      bind (match p_children h with
            | None => ret []
            | Some _ => free_list fuel' m (p_children h)
            end) (fun freed_children =>
      ret (freed_next ++ freed_children
           ++ match head with Some a => [a] | None => [] end))))
  end.

(** [sort_playlists] with the sorter, the flattening and [free_list] run on
    the memory the first loop leaves: what the call does, and the nodes it
    has handed to [free]. *)
Definition sort_playlists (left_first : bool) (fuel : nat)
  (pc : sp_playlistcontainer) : option (outcome * list nat) :=
  let num_playlists := sp_playlistcontainer_num_playlists pc in
  let start := [printf_reordering num_playlists] in
  match first_loop pc 0 (mk_locals [] None None None 0) with
  | Fault f => Some (mk_outcome start (Fault f), [])
  | Ok s =>
      if l_not_loaded s >? 0
      then Some (mk_outcome (start ++ [printf_error (l_not_loaded s)]) (Ok 1), [])
      else
        match l_items s with
        | None => Some (mk_outcome start (Ok 1), [])
        | Some _ =>
            match sort_list left_first fuel (mem s) (l_items s) with
            | None => None
            | Some (Fault f) => Some (mk_outcome start (Fault f), [])
            | Some (Ok (m, items)) =>
                match flatten_list fuel m items (malloc num_playlists) with
                | None => None
                | Some (Fault f) => Some (mk_outcome start (Fault f), [])
                | Some (Ok reorder) =>
                    match move_loop num_playlists reorder num_playlists 0 with
                    | (t, Ok _) =>
                        match free_list fuel m items with
                        | None => None
                        | Some (Fault f) =>
                            Some (mk_outcome (start ++ t ++ [printf_done]) (Fault f),
                                  [])
                        | Some (Ok freed) =>
                            Some (mk_outcome (start ++ t ++ [printf_done]) (Ok 1),
                                  freed)
                        end
                    | (t, Fault f) => Some (mk_outcome (start ++ t) (Fault f), [])
                    end
                end
            end
        end
  end.

End Heap.

(** * Part 2: the vocabulary of the properties *)

(** ** Shapes of the input *)

Definition is_not_loaded (e : entry) : bool :=
  match e with
  | SP_PLAYLIST_TYPE_PLAYLIST false _ => true
  | _ => false
  end.

Definition is_placeholder (e : entry) : bool :=
  match e with
  | SP_PLAYLIST_TYPE_PLACEHOLDER => true
  | _ => false
  end.

(** An entry the first loop makes a node for. *)
Definition makes_node (e : entry) : bool :=
  match e with
  | SP_PLAYLIST_TYPE_PLAYLIST true _ => true
  | SP_PLAYLIST_TYPE_START_FOLDER _ => true
  | _ => false
  end.

Definition fully_loaded (pc : list entry) : bool :=
  forallb (fun e => negb (is_not_loaded e)) pc.

Definition placeholder_free (pc : list entry) : bool :=
  forallb (fun e => negb (is_placeholder e)) pc.

(** The playlists that report not loaded, as the [int] counter counts them. *)
Fixpoint count_not_loaded (pc : list entry) : Z :=
  match pc with
  | [] => 0
  | e :: pc' => (if is_not_loaded e then 1 else 0) + count_not_loaded pc'
  end.

(** Every end marker closes a folder that is open, [depth] folders being
    open at the start. *)
Fixpoint ends_matched (depth : nat) (pc : list entry) : bool :=
  match pc with
  | [] => true
  | SP_PLAYLIST_TYPE_START_FOLDER _ :: pc' => ends_matched (S depth) pc'
  | SP_PLAYLIST_TYPE_END_FOLDER :: pc' =>
      match depth with
      | O => false
      | S d => ends_matched d pc'
      end
  | _ :: pc' => ends_matched depth pc'
  end.

(** Start and end markers are properly nested and every folder is closed. *)
Fixpoint balanced_from (depth : nat) (pc : list entry) : bool :=
  match pc with
  | [] => Nat.eqb depth 0
  | SP_PLAYLIST_TYPE_START_FOLDER _ :: pc' => balanced_from (S depth) pc'
  | SP_PLAYLIST_TYPE_END_FOLDER :: pc' =>
      match depth with
      | O => false
      | S d => balanced_from d pc'
      end
  | _ :: pc' => balanced_from depth pc'
  end.

Definition balanced (pc : list entry) : bool := balanced_from 0 pc.

(** No folder is closed before it was given a node; [opened] tells that the
    last node-making or closing entry was a folder start. *)
Fixpoint no_empty_folder_from (opened : bool) (pc : list entry) : bool :=
  match pc with
  | [] => true
  | SP_PLAYLIST_TYPE_START_FOLDER _ :: pc' => no_empty_folder_from true pc'
  | SP_PLAYLIST_TYPE_END_FOLDER :: pc' =>
      negb opened && no_empty_folder_from false pc'
  | SP_PLAYLIST_TYPE_PLAYLIST true _ :: pc' => no_empty_folder_from false pc'
  | _ :: pc' => no_empty_folder_from opened pc'
  end.

Definition no_empty_folder (pc : list entry) : bool :=
  no_empty_folder_from false pc.

(** A container that holds one folder with nothing in it. *)
Definition empty_folder : list entry :=
  [SP_PLAYLIST_TYPE_START_FOLDER "A"; SP_PLAYLIST_TYPE_END_FOLDER].

(** A container with an empty folder before a playlist. *)
Definition empty_folder_then_playlist : list entry :=
  [SP_PLAYLIST_TYPE_START_FOLDER "B"; SP_PLAYLIST_TYPE_END_FOLDER;
   SP_PLAYLIST_TYPE_PLAYLIST true "a"].

(** ** What a pass computes *)

(** The first loop, from [items = previous = parent = NULL] and
    [not_loaded = 0]. *)
Definition build (pc : list entry) : result builder :=
  build_loop pc 0 (mk_builder [] [] 0).

(** The forest [sort_playlists] has in [items] after its first loop. *)
Definition built (pc : list entry) : list node :=
  match build pc with
  | Ok st => items st
  | Fault _ => []
  end.

(** The target order: the sequence [flatten_list] writes for the container. *)
Definition target (pc : list entry) : list Z :=
  match build pc with
  | Ok st => _flatten_list (sort_list (items st))
  | Fault _ => []
  end.

(** The positions of the entries that are not placeholders, the first entry
    standing at position [i]. *)
Fixpoint slots_from (i : nat) (pc : list entry) : list Z :=
  match pc with
  | [] => []
  | e :: pc' =>
      if is_placeholder e then slots_from (S i) pc'
      else Z.of_nat i :: slots_from (S i) pc'
  end.

Definition slots (pc : list entry) : list Z := slots_from 0 pc.

(** The original order: position [i] holds item [i]. *)
Definition original_order (pc : list entry) : list Z :=
  map Z.of_nat (seq 0 (length pc)).

(** The entry of the container at a position. *)
Definition entry_of (pc : list entry) (p : Z) : entry :=
  nth (Z.to_nat p) pc SP_PLAYLIST_TYPE_PLACEHOLDER.

(** The container in the order the first pass aims at. *)
Definition reordered (pc : list entry) : list entry :=
  map (entry_of pc) (target pc).

(** The move calls of a trace: [(index, new_position)], in order. *)
Definition moves_of (t : list event) : list (Z * Z) :=
  flat_map (fun e => match e with
                     | sp_playlistcontainer_move_playlist a b => [(a, b)]
                     | _ => []
                     end) t.

(** The moves of a trace applied in order; a move with a negative position
    has no meaning on the array. *)
Fixpoint apply_moves {A : Type} (moves : list (Z * Z)) (faux : list A)
  : option (list A) :=
  match moves with
  | [] => Some faux
  | (from_index, to_index) :: moves' =>
      if (from_index <? 0) || (to_index <? 0) then None
      else match move_playlist faux (Z.to_nat from_index) (Z.to_nat to_index) with
           | None => None
           | Some faux' => apply_moves moves' faux'
           end
  end.

(** ** Names and sorted chains *)

Definition name_of (n : node) : string := name (item n).

(** [n1] may stand before [n2]: its name is not greater, byte-wise. *)
Definition name_le (n1 n2 : node) : Prop := strcmp (name_of n1) (name_of n2) <= 0.

Definition name_lt (n1 n2 : node) : Prop := strcmp (name_of n1) (name_of n2) < 0.

(** The node's name compares equal to [s]. *)
Definition named (s : string) (n : node) : bool := strcmp (name_of n) s =? 0.

(** Every chain of the forest, at every depth, has the names of consecutive
    nodes in non-decreasing order. *)
Inductive levels_sorted : list node -> Prop :=
| levels_sorted_intro (head : list node) :
    Sorted name_le head ->
    Forall (fun n => levels_sorted (children n)) head ->
    levels_sorted head.

(** No two nodes of the chain have names that compare equal. *)
Fixpoint no_ties (head : list node) : bool :=
  match head with
  | [] => true
  | a :: l => forallb (fun b => negb (strcmp (name_of a) (name_of b) =? 0)) l
              && no_ties l
  end.

(** No chain below the node has a tie. *)
Fixpoint distinct_below (n : node) : bool :=
  let 'Node _ ch := n in no_ties ch && forallb distinct_below ch.

(** No chain of the forest, at any depth, has a tie. *)
Definition distinct_names (head : list node) : bool :=
  no_ties head && forallb distinct_below head.

(** Every chain of the forest, at every depth, has strictly increasing
    names. *)
Inductive levels_strict : list node -> Prop :=
| levels_strict_intro (head : list node) :
    StronglySorted name_lt head ->
    Forall (fun n => levels_strict (children n)) head ->
    levels_strict head.

(** ** The working array *)

(** The new value of an entry that [recalculate_indexes] visits. *)
Definition bump (original_index v : Z) : Z :=
  if v <? original_index then v + 1 else v.

(** What [recalculate_indexes] leaves of an array whose cells all hold a
    value: the cells from [moved] on are bumped against the value at
    [moved]. *)
Definition recalculated (w : list Z) (moved : nat) : list Z :=
  firstn moved w ++ map (bump (nth moved w 0)) (skipn moved w).

(** What one round of the move loop does to the array. *)
Definition process_slot (num_playlists : nat) (reorder : list cell) (i : nat)
  : result (list cell) :=
  match read reorder i with
  | Fault f => Fault f
  | Ok v => if Z.of_nat i =? v then Ok reorder
            else recalculate_indexes reorder num_playlists i
  end.

(** The working array at the moment slot [i] is processed: slots [0] to
    [i - 1] have had their round. *)
Fixpoint working_at (num_playlists : nat) (reorder : list cell) (i : nat)
  : result (list cell) :=
  match i with
  | O => Ok reorder
  | S j =>
      match working_at num_playlists reorder j with
      | Ok w => process_slot num_playlists w j
      | Fault f => Fault f
      end
  end.

(** The entry of slot [i] at that moment. *)
Definition entry_at (num_playlists : nat) (reorder : list cell) (i : nat)
  : result Z :=
  match working_at num_playlists reorder i with
  | Ok w => read w i
  | Fault f => Fault f
  end.

(** Does slot [i] hold something else than [i] when its round comes? *)
Definition misplaced (num_playlists : nat) (reorder : list cell) (i : nat) : bool :=
  match entry_at num_playlists reorder i with
  | Ok v => negb (Z.of_nat i =? v)
  | Fault _ => false
  end.

(** The move owed to slot [i]: from its entry to [i], when misplaced. *)
Definition slot_moves (num_playlists : nat) (reorder : list cell) (i : nat)
  : list (Z * Z) :=
  match entry_at num_playlists reorder i with
  | Ok v => if Z.of_nat i =? v then [] else [(v, Z.of_nat i)]
  | Fault _ => []
  end.

(** The moves of the loop on a fully written array [w], from slot [i]. *)
Fixpoint moves_from (n : nat) (w : list Z) (i : nat) : list (Z * Z) :=
  match n with
  | O => []
  | S n' =>
      if Z.of_nat i =? nth i w 0 then moves_from n' w (S i)
      else (nth i w 0, Z.of_nat i) :: moves_from n' (recalculated w i) (S i)
  end.

(** At slot [i]: the array agrees with the target before [i], and for each
    later slot [j] the working entry is the place, at or after [i], where
    the item the target wants at [j] now stands. *)
Definition in_step (target_order : list Z) (i : nat) (w faux : list Z) : Prop :=
  length w = length target_order /\
  length faux = length target_order /\
  firstn i faux = firstn i target_order /\
  forall j, (i <= j < length target_order)%nat ->
    Z.of_nat i <= nth j w 0 < Z.of_nat (length target_order) /\
    nth (Z.to_nat (nth j w 0)) faux 0 = nth j target_order 0.

(** ** Forests and the containers they stand for *)

(** The number of positions a forest flattens to. *)
Definition flat_len (head : list node) : nat := length (_flatten_list head).

(** The entries of a forest, in the order of its flattening: a node without
    children is a loaded playlist, a node with children a folder around
    them. *)
Fixpoint encode_node (n : node) : list entry :=
  let 'Node it ch := n in
  match ch with
  | [] => [SP_PLAYLIST_TYPE_PLAYLIST true (name it)]
  | _ => SP_PLAYLIST_TYPE_START_FOLDER (name it)
         :: flat_map encode_node ch ++ [SP_PLAYLIST_TYPE_END_FOLDER]
  end.

Definition encode (head : list node) : list entry := flat_map encode_node head.

(** The forest with the positions its nodes have in [encode], counted from
    [k]. *)
Fixpoint relabel_node (k : nat) (n : node) : node :=
  let 'Node it ch := n in
  Node (mk_item (Z.of_nat k)
                (match ch with
                 | [] => -1
                 | _ => Z.of_nat (S k + flat_len ch)
                 end)
                (name it))
       ((fix relabel_chain (k' : nat) (l : list node) : list node :=
           match l with
           | [] => []
           | c :: l' =>
               relabel_node k' c
               :: relabel_chain (k' + length (_flatten_node c))%nat l'
           end) (S k) ch).

Fixpoint relabel (k : nat) (head : list node) : list node :=
  match head with
  | [] => []
  | c :: l' => relabel_node k c :: relabel (k + length (_flatten_node c))%nat l'
  end.

(** A node carries the positions of its own entries in [pc]: its [index] is
    where its playlist or its folder start stands, its [end_index] where the
    end marker of the folder stands, and so for its children. *)
Inductive labelled (pc : list entry) : node -> Prop :=
| labelled_intro (it : playlist_item) (ch : list node) :
    entry_of pc (index it) =
      match ch with
      | [] => SP_PLAYLIST_TYPE_PLAYLIST true (name it)
      | _ => SP_PLAYLIST_TYPE_START_FOLDER (name it)
      end ->
    (ch <> [] -> entry_of pc (end_index it) = SP_PLAYLIST_TYPE_END_FOLDER) ->
    Forall (labelled pc) ch ->
    labelled pc (Node it ch).

(** [n] is a node of the forest, at any depth. *)
Inductive in_forest (n : node) : list node -> Prop :=
| in_forest_here (head : list node) : In n head -> in_forest n head
| in_forest_below (m : node) (head : list node) :
    In m head -> in_forest n (children m) -> in_forest n head.

(** ** The state of the first loop *)

(** The positions the flattening will hold for the open folders: one for
    each folder and those of the nodes before it. *)
Fixpoint open_len (parents : list (playlist_item * list node)) : nat :=
  match parents with
  | [] => 0
  | (_, before) :: up => S (flat_len before + open_len up)
  end.

(** The number of entries that are not placeholders. *)
Definition count_slots (pc : list entry) : nat :=
  length (filter (fun e => negb (is_placeholder e)) pc).

(** The entries read so far, from the builder's state. *)
Fixpoint entries_read (parents : list (playlist_item * list node))
  (siblings : list node) : list entry :=
  match parents with
  | [] => encode (rev siblings)
  | (it, before) :: up =>
      entries_read up before
      ++ SP_PLAYLIST_TYPE_START_FOLDER (name it) :: encode (rev siblings)
  end.

(** The positions flattened so far, from the builder's state. *)
Fixpoint positions_read (parents : list (playlist_item * list node))
  (siblings : list node) : list Z :=
  match parents with
  | [] => _flatten_list (rev siblings)
  | (it, before) :: up =>
      positions_read up before ++ index it :: _flatten_list (rev siblings)
  end.

(** The first loop, run over the entries a node (a forest) stands for, adds
    the node (the forest) with the positions of these entries to the chain
    in hand. *)
Definition reads_back_node (n : node) : Prop :=
  forall (k : nat) (st : builder) (rest : list entry),
    build_loop (encode_node n ++ rest) k st =
    build_loop rest (k + length (_flatten_node n))
      (mk_builder (parents st) (relabel_node k n :: siblings st) (not_loaded st)).

Definition reads_back (head : list node) : Prop :=
  forall (k : nat) (st : builder) (rest : list entry),
    build_loop (encode head ++ rest) k st =
    build_loop rest (k + flat_len head)
      (mk_builder (parents st) (rev (relabel k head) ++ siblings st)
                  (not_loaded st)).

(** ** The memory of the first loop *)

(** The number of nodes of a tree, of a forest. *)
Fixpoint node_size (n : node) : nat :=
  let 'Node _ ch := n in S (list_sum (map node_size ch)).

Definition chain_size (l : list node) : nat := list_sum (map node_size l).

(** The records of a tree in the order of allocation, which is the order of
    the entries: the node at address [a], then its children from [a + 1]. *)
Fixpoint layout_node (par : option nat) (a : nat) (nxt : option nat) (n : node)
  : memory :=
  let 'Node it ch := n in
  mk_s_node nxt (match ch with [] => None | _ => Some (S a) end) par it
  :: (fix chain (a' : nat) (l : list node) : memory :=
        match l with
        | [] => []
        | c :: l' =>
            layout_node (Some a) a'
              (match l' with [] => None | _ => Some (a' + node_size c)%nat end) c
            ++ chain (a' + node_size c)%nat l'
        end) (S a) ch.

(** The records of a chain from address [a]; [more] tells that a node follows
    the chain, to which the [next] pointer of its last node points. *)
Fixpoint layout (par : option nat) (a : nat) (more : bool) (l : list node)
  : memory :=
  match l with
  | [] => []
  | c :: l' =>
      layout_node par a
        (match l' with
         | [] => if more then Some (a + node_size c)%nat else None
         | _ => Some (a + node_size c)%nat
         end) c
      ++ layout par (a + node_size c)%nat more l'
  end.

(** The address at which the chain in hand starts. *)
Fixpoint chain_base (parents : list (playlist_item * list node)) : nat :=
  match parents with
  | [] => 0
  | (_, before) :: up => chain_base up + chain_size before + 1
  end.

Definition parent_addr (parents : list (playlist_item * list node)) : option nat :=
  match parents with
  | [] => None
  | (_, before) :: up => Some (chain_base up + chain_size before)%nat
  end.

Definition previous_addr (parents : list (playlist_item * list node))
  (siblings : list node) : option nat :=
  match siblings with
  | [] => None
  | _ :: before => Some (chain_base parents + chain_size before)%nat
  end.

(** The records of the open folders and of the nodes before them. *)
Fixpoint prefix_mem (parents : list (playlist_item * list node))
  (has_child : bool) : memory :=
  match parents with
  | [] => []
  | (it, before) :: up =>
      prefix_mem up true
      ++ layout (parent_addr up) (chain_base up) true (rev before)
      ++ [mk_s_node None
            (if has_child then Some (chain_base up + chain_size before + 1)%nat else None)
            (parent_addr up) it]
  end.

Definition is_nil {A : Type} (l : list A) : bool :=
  match l with [] => true | _ => false end.

Definition state_mem (parents : list (playlist_item * list node))
  (siblings : list node) : memory :=
  prefix_mem parents (negb (is_nil siblings))
  ++ layout (parent_addr parents) (chain_base parents) false (rev siblings).

(** The pointer to a chain laid out from [a]. *)
Definition head_of (a : nat) (l : list node) : option nat :=
  if is_nil l then None else Some a.

(** The locals and the memory of the C loop stand for the builder's state. *)
Definition stands_for (s : locals) (st : builder) : Prop :=
  mem s = state_mem (parents st) (siblings st) /\
  l_items s = (if is_nil (parents st) && is_nil (siblings st) then None else Some 0%nat) /\
  l_parent s = parent_addr (parents st) /\
  l_previous s = previous_addr (parents st) (siblings st) /\
  l_not_loaded s = not_loaded st.

Definition results_agree (r : result locals) (r' : result builder) : Prop :=
  match r, r' with
  | Ok s, Ok st => stands_for s st
  | Fault f, Fault f' => f = f'
  | _, _ => False
  end.

(** ** The claims that fail, as they are stated *)

(** C2 as it is stated: the nodes of any one name come out of the sorter in
    the order they went in. *)
Definition stable_on (head : list node) : Prop :=
  forall s, filter (named s) (merge_sort head) = filter (named s) head.

(** C5 as it is stated: an end marker that closes no folder is answered with
    an error that reaches the caller, that is, the call returns. *)
Definition structural_error_reported (pc : list entry) : Prop :=
  ends_matched 0 pc = false ->
  exists code, returned (sort_playlists pc) = Ok code.

(** C8 as it is stated: whenever a playlist reports not loaded the pass
    makes no move call and ends with an error that reaches its caller.
    [sort_playlists] hands its caller an [int] and nothing else, so the
    caller is told of the error when the value returned is none that a pass
    over a container with every playlist loaded returns. *)
Definition not_ready_report (pc : list entry) : Prop :=
  existsb is_not_loaded pc = true ->
  moves_of (trace (sort_playlists pc)) = [] /\
  forall (pc' : list entry) (code : Z),
    fully_loaded pc' = true ->
    returned (sort_playlists pc') = Ok code ->
    returned (sort_playlists pc) <> Ok code.

(** The pass ends on a read of a cell of [reorder] that was never written. *)
Definition reads_unwritten (pc : list entry) : Prop :=
  exists i, returned (sort_playlists pc) = Fault (UninitialisedRead i).

(** C10 as it is stated, for every fully loaded container with a placeholder. *)
Definition placeholder_reads_unwritten (pc : list entry) : Prop :=
  fully_loaded pc = true -> existsb is_placeholder pc = true ->
  (length (target pc) < length pc)%nat /\ reads_unwritten pc.

(** C1 as it is stated: the moves emitted by the pass, applied to the
    original order, give the target order. *)
Definition moves_realise_target (pc : list entry) : Prop :=
  apply_moves (moves_of (trace (sort_playlists pc))) (original_order pc) =
  Some (target pc).

(** C3 as it is stated: on the reordered container the target is the
    identity and no move is emitted. *)
Definition second_pass_idle (pc : list entry) : Prop :=
  target (reordered pc) = map Z.of_nat (seq 0 (length (reordered pc))) /\
  moves_of (trace (sort_playlists (reordered pc))) = [].

(** ** Chains and arrays, for the further properties *)

(** [n1] may not stand before [n2] by name alone: its name is not smaller. *)
Definition name_ge (n1 n2 : node) : Prop := 0 <= strcmp (name_of n1) (name_of n2).

(** The sample chain ["c"; "b"; "b"; "a"], at positions 0 to 3. *)
Definition descending_sample : list node :=
  [Node (create_playlist_item 0 "c") []; Node (create_playlist_item 1 "b") [];
   Node (create_playlist_item 2 "b") []; Node (create_playlist_item 3 "a") []].

(** The array without its element at [i]. *)
Definition remove_at {A : Type} (i : nat) (l : list A) : list A :=
  firstn i l ++ skipn (S i) l.

(** The array with [x] put in front of its element at [i]. *)
Definition insert_at {A : Type} (i : nat) (x : A) (l : list A) : list A :=
  firstn i l ++ x :: skipn i l.

(** The entry [recalculate_indexes] leaves at [j]. *)
Definition recalculated_entry (w : list Z) (size moved j : nat) : Z :=
  if (moved <=? j)%nat && (j <? size)%nat && (nth j w 0 <? nth moved w 0)
  then nth j w 0 + 1
  else nth j w 0.

(** Does the pointer hold the address? *)
Definition points_to (p : option nat) (a : nat) : bool :=
  match p with
  | Some q => (q =? a)%nat
  | None => false
  end.

(** Every pointer of the list is null or the address of a record. *)
Definition valid_in (m : memory) (p : option nat) : Prop :=
  forall a, p = Some a -> (a < length m)%nat.

(** ** Containers, for the further properties *)

(** A balanced container in which every playlist is loaded and that holds
    no placeholder and no folder without an entry in it. *)
Definition well_formed (pc : list entry) : bool :=
  balanced pc && fully_loaded pc && placeholder_free pc && no_empty_folder pc.

(** The run went wrong in no other way than by reading a cell of [reorder],
    below [bound], that was never written. *)
Definition only_unwritten {A : Type} (bound : nat) (r : result A) : Prop :=
  match r with
  | Ok _ => True
  | Fault (UninitialisedRead j) => (j < bound)%nat
  | Fault _ => False
  end.

(** A move takes an item from behind its destination, inside the container,
    and the destination is at [i] or behind it. *)
Definition towards_front (i size : nat) (m : Z * Z) : Prop :=
  Z.of_nat i <= snd m /\ snd m < fst m < Z.of_nat size.

(** ** Buffers and calls, for the further properties *)

(** The bytes of a buffer are not zero. *)
Definition no_zero (s : list ascii) : Prop :=
  Forall (fun c => byte_of c <> 0) s.

(** [trim] takes the byte away. *)
Definition trimmed (char_is_signed : bool) (c : ascii) : Prop :=
  char_value char_is_signed c < 32.

(** The string does not end in a byte that [trim] takes away. *)
Definition ends_well (char_is_signed : bool) (s : list ascii) : Prop :=
  match rev s with
  | [] => True
  | c :: _ => 32 <= char_value char_is_signed c
  end.

(** The moves that [logged_in] lets [sort_playlists] ask for. *)
Definition moves_in (calls : list call) : list (Z * Z) :=
  flat_map (fun c => match c with
                     | in_sort_playlists (sp_playlistcontainer_move_playlist a b) =>
                         [(a, b)]
                     | _ => []
                     end) calls.

(** ** Forests in memory *)

(** The addresses of a forest: a node and the forest of its children. *)
Inductive shape : Type :=
| Shape (addr : nat) (kids : list shape).

Definition addr (s : shape) : nat := let 'Shape a _ := s in a.
Definition kids (s : shape) : list shape := let 'Shape _ k := s in k.

(** All addresses of a tree, of a forest. *)
Fixpoint addrs_of (s : shape) : list nat :=
  let 'Shape a k := s in a :: flat_map addrs_of k.

Definition addrs (l : list shape) : list nat := flat_map addrs_of l.

(** The addresses of the chain itself. *)
Definition tops (l : list shape) : list nat := map addr l.

(** The number of nodes. *)
Definition nodes_in (l : list shape) : nat := length (addrs l).

(** The chain that starts at the pointer [h] runs through the nodes of [l]
    and ends with the pointer [e] as the [next] of its last node; the
    [children] of each node head the forest of its children, which ends
    with null. *)
Inductive segment (m : memory) : option nat -> list shape -> option nat -> Prop :=
| segment_nil (h : option nat) : segment m h [] h
| segment_cons (a : nat) (r : s_node) (k rest : list shape) (e : option nat) :
    nth_error m a = Some r ->
    segment m (p_children r) k None ->
    segment m (p_next r) rest e ->
    segment m (Some a) (Shape a k :: rest) e.

(** The pointer [h] heads the forest [l]. *)
Definition realises (m : memory) (h : option nat) (l : list shape) : Prop :=
  segment m h l None.

(** The item of the record at an address. *)
Definition item_at (m : memory) (a : nat) : playlist_item :=
  match nth_error m a with
  | Some r => p_item r
  | None => create_playlist_item 0 ""
  end.

(** The forest of nodes that stands at the addresses. *)
Fixpoint node_of (m : memory) (s : shape) : node :=
  let 'Shape a k := s in Node (item_at m a) (map (node_of m) k).

Definition nodes (m : memory) (l : list shape) : list node := map (node_of m) l.

(** From [m] to [m'] nothing was allocated or freed, no item and no
    [parent] was changed, and [next] and [children] were changed at most at
    the addresses of [nexts] and of [childs]. *)
Definition evolves (m m' : memory) (nexts childs : list nat) : Prop :=
  length m' = length m /\
  forall a r, nth_error m a = Some r ->
    exists r', nth_error m' a = Some r' /\
               p_item r' = p_item r /\ p_parent r' = p_parent r /\
               (~ In a nexts -> p_next r' = p_next r) /\
               (~ In a childs -> p_children r' = p_children r).

(** How often an address stands in a list. *)
Definition occ (l : list nat) (x : nat) : nat := count_occ Nat.eq_dec l x.

(** The pointer to the node at position [i] of a chain, null behind its
    end. *)
Definition ptr (l : list shape) (i : nat) : option nat :=
  option_map addr (nth_error l i).

(** The number of nodes [merge_sort] leaves in the first part of a chain of
    [n] nodes. *)
Definition cut_point (n : nat) : nat :=
  (n - (if n <=? 3 then 1 else 2))%nat.

(** What the stores of [vals] from [idx] on leave: the array and the index
    behind the last store, or the fault of the first store that fails. *)
Definition stores (reorder : list cell) (idx : nat) (vals : list Z)
  : Heap.run (list cell * nat) :=
  Some (match store_all reorder idx vals with
        | Ok r => Ok (r, (idx + length vals)%nat)
        | Fault f => Fault f
        end).

(** The addresses of a forest that is laid out from [a] in the order of
    allocation: a node at [a], its children from [a + 1]. *)
Fixpoint shape_at (a : nat) (n : node) : shape :=
  let 'Node _ ch := n in
  Shape a ((fix chain (a' : nat) (l : list node) : list shape :=
              match l with
              | [] => []
              | c :: l' => shape_at a' c :: chain (a' + node_size c)%nat l'
              end) (S a) ch).

Fixpoint shapes_at (a : nat) (l : list node) : list shape :=
  match l with
  | [] => []
  | c :: l' => shape_at a c :: shapes_at (a + node_size c)%nat l'
  end.

(** The locals of [sort_playlists] before its first loop. *)
Definition first_locals : locals := mk_locals [] None None None 0.

(** * Part 3: the properties *)

(** ** Induction on trees *)

(** A property holds of every node when it holds of a node whose children
    have it; and of every forest when it holds of a forest whose nodes'
    children have it. *)
Fixpoint node_forall_ind (P : node -> Prop)
  (step : forall it ch, Forall P ch -> P (Node it ch)) (n : node) : P n :=
  match n with
  | Node it ch =>
      step it ch
        ((fix all (l : list node) : Forall P l :=
            match l with
            | [] => Forall_nil P
            | c :: l' => Forall_cons c (node_forall_ind P step c) (all l')
            end) ch)
  end.

Lemma forest_ind (P : list node -> Prop) :
  (forall head, Forall (fun n => P (children n)) head -> P head) ->
  forall head, P head.
Proof.
  intros step head. apply step.
  induction head as [|n head IH]; constructor; [|exact IH].
  induction n as [it ch IHn] using node_forall_ind. simpl.
  apply step. exact IHn.
Qed.

(** ** Lists *)

Lemma Forall_perm {A : Type} (P : A -> Prop) (l1 l2 : list A) :
  Permutation l1 l2 -> Forall P l1 -> Forall P l2.
Proof.
  intros Hp H. apply Forall_forall. intros x Hx.
  rewrite Forall_forall in H. apply H.
  now apply (Permutation_in x (Permutation_sym Hp)).
Qed.

Lemma forallb_perm {A : Type} (f : A -> bool) (l1 l2 : list A) :
  Permutation l1 l2 -> forallb f l1 = forallb f l2.
Proof.
  intros P. induction P as [|x l l' P IH|x y l|l l' l'' P1 IH1 P2 IH2];
    cbn [forallb]; try congruence.
  destruct (f x), (f y); reflexivity.
Qed.

Lemma firstn_length_app {A : Type} (l r : list A) :
  firstn (length l) (l ++ r) = l.
Proof. induction l as [|a l IH]; simpl; [reflexivity | now rewrite IH]. Qed.

Lemma skipn_S_length_app {A : Type} (l r : list A) (c : A) :
  skipn (S (length l)) (l ++ c :: r) = r.
Proof. induction l as [|a l IH]; [reflexivity | exact IH]. Qed.

Lemma skipn_repeat {A : Type} (x : A) (k n : nat) :
  skipn k (repeat x n) = repeat x (n - k).
Proof.
  revert n; induction k as [|k IH]; intros n.
  - now rewrite Nat.sub_0_r.
  - destruct n as [|n]; [reflexivity | apply IH].
Qed.

Lemma firstn_succ_nth {A : Type} (l : list A) (d : A) (i : nat) :
  (i < length l)%nat -> firstn (S i) l = firstn i l ++ [nth i l d].
Proof.
  revert i; induction l as [|a l IH]; intros i L; [simpl in L; lia|].
  destruct i as [|i]; [reflexivity|].
  cbn [firstn nth app]. f_equal. apply IH. simpl in L. lia.
Qed.

Lemma split_at_two {A : Type} (l : list A) (d : A) (i v : nat) :
  (i < v < length l)%nat ->
  exists pre mid post,
    l = pre ++ mid ++ nth v l d :: post /\
    length pre = i /\ (length pre + length mid)%nat = v /\ mid <> [] /\
    pre = firstn i l.
Proof.
  intros L.
  exists (firstn i l), (firstn (v - i) (skipn i l)), (skipn (S v) l).
  assert (Lp : length (firstn i l) = i) by (rewrite length_firstn; lia).
  assert (Lm : length (firstn (v - i) (skipn i l)) = (v - i)%nat)
    by (rewrite length_firstn, length_skipn; lia).
  repeat split; try lia.
  - rewrite <- (firstn_skipn i l) at 1. f_equal.
    rewrite <- (firstn_skipn (v - i) (skipn i l)) at 1. f_equal.
    rewrite skipn_skipn. replace (v - i + i)%nat with v by lia.
    rewrite <- (firstn_skipn v l) at 2.
    rewrite app_nth2 by (rewrite length_firstn; lia).
    rewrite length_firstn. replace (v - Nat.min v (length l))%nat with 0%nat by lia.
    assert (Ls : (0 < length (skipn v l))%nat) by (rewrite length_skipn; lia).
    destruct (skipn v l) as [|s ss] eqn:E; [simpl in Ls; lia|].
    cbn [nth]. f_equal.
    replace (S v) with (1 + v)%nat by lia. rewrite <- skipn_skipn, E. reflexivity.
  - intros E. rewrite E in Lm. simpl in Lm. lia.
Qed.

(** ** Properties of [strcmp] *)

Ltac split_eqb :=
  repeat match goal with
         | |- context [?a =? ?b] => destruct (Z.eqb_spec a b)
         end.

Lemma strcmp_swap (s1 s2 : string) : strcmp s2 s1 = - strcmp s1 s2.
Proof.
  revert s2; induction s1 as [|c1 r1 IH]; intros s2;
    destruct s2 as [|c2 r2]; simpl; split_eqb; simpl; try lia.
  apply IH.
Qed.

Lemma byte_of_nonneg (c : ascii) : 0 <= byte_of c.
Proof. unfold byte_of. lia. Qed.

Lemma strcmp_lt_trans (s1 s2 s3 : string) :
  strcmp s1 s2 < 0 -> strcmp s2 s3 < 0 -> strcmp s1 s3 < 0.
Proof.
  revert s2 s3; induction s1 as [|c1 r1 IH]; intros s2 s3.
  - destruct s2 as [|c2 r2], s3 as [|c3 r3]; simpl;
      pose proof (byte_of_nonneg c2) as P2 || idtac;
      pose proof (byte_of_nonneg c3) as P3 || idtac;
      split_eqb; simpl; try lia.
  - destruct s2 as [|c2 r2], s3 as [|c3 r3]; simpl;
      pose proof (byte_of_nonneg c1) as P1;
      try pose proof (byte_of_nonneg c2) as P2;
      try pose proof (byte_of_nonneg c3) as P3;
      split_eqb; simpl; try lia.
    apply IH.
Qed.

Lemma strcmp_eq_compat (s1 s2 s3 : string) :
  strcmp s1 s2 = 0 -> strcmp s1 s3 = strcmp s2 s3.
Proof.
  revert s2 s3; induction s1 as [|c1 r1 IH]; intros s2 s3;
    destruct s2 as [|c2 r2], s3 as [|c3 r3]; simpl;
    try pose proof (byte_of_nonneg c1) as P1;
    try pose proof (byte_of_nonneg c2) as P2;
    try pose proof (byte_of_nonneg c3) as P3;
    split_eqb; simpl; try lia.
  apply IH.
Qed.

Lemma strcmp_le_trans (s1 s2 s3 : string) :
  strcmp s1 s2 <= 0 -> strcmp s2 s3 <= 0 -> strcmp s1 s3 <= 0.
Proof.
  intros H12 H23.
  destruct (Z.eq_dec (strcmp s1 s2) 0) as [E12|N12].
  - now rewrite (strcmp_eq_compat s1 s2 s3 E12).
  - destruct (Z.eq_dec (strcmp s2 s3) 0) as [E23|N23].
    + assert (E32 : strcmp s3 s2 = 0) by (rewrite strcmp_swap; lia).
      rewrite strcmp_swap, (strcmp_eq_compat s3 s2 s1 E32), <- strcmp_swap. exact H12.
    + assert (strcmp s1 s3 < 0) by (apply (strcmp_lt_trans s1 s2 s3); lia). lia.
Qed.

Lemma strcmp_lt_le_trans (s1 s2 s3 : string) :
  strcmp s1 s2 < 0 -> strcmp s2 s3 <= 0 -> strcmp s1 s3 < 0.
Proof.
  intros H12 H23.
  destruct (Z.eq_dec (strcmp s2 s3) 0) as [E23|N23].
  - assert (E32 : strcmp s3 s2 = 0) by (rewrite strcmp_swap; lia).
    rewrite strcmp_swap, (strcmp_eq_compat s3 s2 s1 E32), <- strcmp_swap. exact H12.
  - apply (strcmp_lt_trans s1 s2 s3); lia.
Qed.

(** ** Properties of [merge] and [merge_sort] *)

Lemma merge_nil_l (l : list node) : merge [] l = l.
Proof. destruct l; reflexivity. Qed.

Lemma merge_nil_r (l : list node) : merge l [] = l.
Proof. destruct l; reflexivity. Qed.

Lemma merge_cons (one two : node) (next_one next_two : list node) :
  merge (one :: next_one) (two :: next_two) =
  if strcmp (name_of one) (name_of two) <? 0
  then one :: merge next_one (two :: next_two)
  else two :: merge (one :: next_one) next_two.
Proof. reflexivity. Qed.

Lemma merge_perm (l1 l2 : list node) : Permutation (merge l1 l2) (l1 ++ l2).
Proof.
  revert l2; induction l1 as [|a l1 IH1]; intros l2.
  - rewrite merge_nil_l. reflexivity.
  - induction l2 as [|b l2 IH2].
    + rewrite merge_nil_r, app_nil_r. reflexivity.
    + rewrite merge_cons.
      destruct (strcmp (name_of a) (name_of b) <? 0).
      * simpl. constructor. apply IH1.
      * rewrite IH2. apply (Permutation_middle (a :: l1) l2 b).
Qed.

Lemma merge_hd_rel (x : node) (l1 l2 : list node) :
  HdRel name_le x l1 -> HdRel name_le x l2 -> HdRel name_le x (merge l1 l2).
Proof.
  intros H1 H2. destruct l1 as [|a l1]; [now rewrite merge_nil_l|].
  destruct l2 as [|b l2]; [now rewrite merge_nil_r|].
  rewrite merge_cons. destruct (strcmp (name_of a) (name_of b) <? 0);
    constructor; [now inversion H1 | now inversion H2].
Qed.

Lemma merge_sorted (l1 l2 : list node) :
  Sorted name_le l1 -> Sorted name_le l2 -> Sorted name_le (merge l1 l2).
Proof.
  revert l2; induction l1 as [|a l1 IH1]; intros l2 S1 S2.
  - now rewrite merge_nil_l.
  - induction l2 as [|b l2 IH2].
    + now rewrite merge_nil_r.
    + rewrite merge_cons.
      destruct (Z.ltb_spec (strcmp (name_of a) (name_of b)) 0) as [Lt|Ge].
      * inversion S1; subst. constructor; [now apply IH1|].
        apply merge_hd_rel; [assumption|]. constructor. unfold name_le. lia.
      * inversion S2; subst. constructor; [now apply IH2|].
        apply merge_hd_rel; [|assumption]. constructor. unfold name_le.
        rewrite strcmp_swap. lia.
Qed.

Lemma merge_sort_perm (head : list node) : Permutation (merge_sort head) head.
Proof.
  funelim (merge_sort head); simp merge_sort; try reflexivity.
  rewrite merge_perm.
  match goal with
  | H1 : Permutation (merge_sort (fst _)) _,
    H2 : Permutation (merge_sort (snd _)) _ |- _ => rewrite H1, H2
  end.
  unfold split. now rewrite split_walk_app.
Qed.

Lemma merge_sort_sorted (head : list node) : Sorted name_le (merge_sort head).
Proof.
  funelim (merge_sort head); simp merge_sort.
  - constructor.
  - repeat constructor.
  - now apply merge_sorted.
Qed.

Lemma merge_sort_nil (head : list node) : merge_sort head = [] -> head = [].
Proof.
  intros E. pose proof (merge_sort_perm head) as P. rewrite E in P.
  now apply Permutation_nil.
Qed.

(** ** Sorted levels (C6) *)

Lemma children_sort_children (n : node) :
  children (sort_children n) = sort_list (children n).
Proof.
  destruct n as [it [|c ch]]; [reflexivity|]. reflexivity.
Qed.

(** C6: after [sort_list], every child list at every depth, and the root
    chain, is sorted: the names of consecutive nodes are non-decreasing under
    [strcmp]. *)
Theorem sort_list_levels_sorted (head : list node) :
  levels_sorted (sort_list head).
Proof.
  induction head as [head IH] using forest_ind.
  constructor.
  - apply merge_sort_sorted.
  - unfold sort_list.
    apply (Forall_perm _ (map sort_children head)).
    + symmetry. apply merge_sort_perm.
    + apply Forall_map. apply Forall_forall. intros n Hn.
      rewrite Forall_forall in IH. rewrite children_sort_children.
      now apply IH.
Qed.

(** ** Equal names (C2) *)

Lemma named_above (s : string) (a : node) (l : list node) :
  named s a = true ->
  Forall (fun x => strcmp (name_of a) (name_of x) < 0) l ->
  filter (named s) l = [].
Proof.
  unfold named. intros Ha H. induction H as [|x l Hx Hl IH]; [reflexivity|].
  cbn [filter]. rewrite IH.
  destruct (Z.eqb_spec (strcmp (name_of x) s) 0) as [E|NE]; [|reflexivity].
  exfalso. apply Z.eqb_eq in Ha.
  rewrite (strcmp_eq_compat _ _ (name_of x) Ha) in Hx.
  rewrite strcmp_swap in Hx. lia.
Qed.

Lemma sorted_above (a b : node) (l : list node) :
  strcmp (name_of a) (name_of b) < 0 -> Sorted name_le (b :: l) ->
  Forall (fun x => strcmp (name_of a) (name_of x) < 0) (b :: l).
Proof.
  intros Lt S. apply Sorted_StronglySorted in S.
  - apply StronglySorted_inv in S. destruct S as [_ F].
    constructor; [exact Lt|].
    apply Forall_forall. intros x Hx. rewrite Forall_forall in F.
    apply (strcmp_lt_le_trans _ (name_of b)); [exact Lt | now apply F].
  - intros x y z. apply strcmp_le_trans.
Qed.

(** C2, counterexample: two playlists of the same name come out swapped. *)
Lemma merge_sort_swaps_tie :
  ~ stable_on [Node (create_playlist_item 0 "a") [];
               Node (create_playlist_item 1 "a") []].
Proof.
  intros H. specialize (H "a"%string). discriminate H.
Qed.

(** Merging two sorted runs, the nodes of one name: right run first. *)
Lemma merge_equal_names_filter (head_one head_two : list node) (s : string) :
  Sorted name_le head_one -> Sorted name_le head_two ->
  filter (named s) (merge head_one head_two) =
  filter (named s) head_two ++ filter (named s) head_one.
Proof.
  revert head_two; induction head_one as [|a l1 IH1]; intros head_two S1 S2.
  - now rewrite merge_nil_l, app_nil_r.
  - induction head_two as [|b l2 IH2].
    + now rewrite merge_nil_r.
    + rewrite merge_cons.
      destruct (Z.ltb_spec (strcmp (name_of a) (name_of b)) 0) as [Lt|Ge].
      * assert (E1 : filter (named s) (merge l1 (b :: l2)) =
                     filter (named s) (b :: l2) ++ filter (named s) l1)
          by (apply IH1; [now inversion S1 | exact S2]).
        change (filter (named s) (a :: merge l1 (b :: l2)))
          with (if named s a then a :: filter (named s) (merge l1 (b :: l2))
                else filter (named s) (merge l1 (b :: l2))).
        change (filter (named s) (a :: l1))
          with (if named s a then a :: filter (named s) l1
                else filter (named s) l1).
        rewrite E1. destruct (named s a) eqn:Na; [|reflexivity].
        rewrite (named_above s a (b :: l2) Na (sorted_above a b l2 Lt S2)).
        reflexivity.
      * cbn [filter]. rewrite IH2 by now inversion S2.
        destruct (named s b); reflexivity.
Qed.

(** C2, amended: the merge step takes the node of the left run first only
    when its name is strictly smaller; on a tie it takes the node of the
    right run.  Merging two sorted runs, the nodes of any one name come out
    with those of the right run first and then those of the left run, each
    run in its own order. *)
Theorem merge_equal_names (head_one head_two : list node) (s : string) :
  Sorted name_le head_one -> Sorted name_le head_two ->
  (forall one two,
      hd_error head_one = Some one -> hd_error head_two = Some two ->
      (strcmp (name_of one) (name_of two) < 0 ->
       hd_error (merge head_one head_two) = Some one) /\
      (strcmp (name_of one) (name_of two) = 0 ->
       hd_error (merge head_one head_two) = Some two)) /\
  filter (named s) (merge head_one head_two) =
  filter (named s) head_two ++ filter (named s) head_one.
Proof.
  intros S1 S2. split; [|now apply merge_equal_names_filter].
  intros one two H1 H2.
  destruct head_one as [|a l1]; [discriminate|].
  destruct head_two as [|b l2]; [discriminate|].
  cbn [hd_error] in H1, H2. injection H1 as ->. injection H2 as ->.
  rewrite merge_cons. split; intros C.
  - destruct (Z.ltb_spec (strcmp (name_of one) (name_of two)) 0);
      [reflexivity | lia].
  - rewrite C. reflexivity.
Qed.

Lemma merge_equal_names_witness :
  let head_one := [Node (create_playlist_item 0 "a") [];
                   Node (create_playlist_item 2 "b") []] in
  let head_two := [Node (create_playlist_item 1 "a") []] in
  (forall one two,
      hd_error head_one = Some one -> hd_error head_two = Some two ->
      (strcmp (name_of one) (name_of two) < 0 ->
       hd_error (merge head_one head_two) = Some one) /\
      (strcmp (name_of one) (name_of two) = 0 ->
       hd_error (merge head_one head_two) = Some two)) /\
  filter (named "a") (merge head_one head_two) =
  filter (named "a") head_two ++ filter (named "a") head_one.
Proof.
  apply merge_equal_names; repeat constructor; unfold name_le; simpl; lia.
Defined.

(** ** The [reorder] array, written and unwritten *)

Lemma read_written (w : list Z) (i : nat) :
  (i < length w)%nat -> read (map Some w) i = Ok (nth i w 0).
Proof.
  intros L. unfold read. rewrite nth_error_map.
  rewrite (nth_error_nth' w 0 L). reflexivity.
Qed.

Lemma read_app_r (pre suf : list cell) :
  read (pre ++ suf) (length pre) = match suf with
                                   | Some v :: _ => Ok v
                                   | None :: _ => Fault (UninitialisedRead (length pre))
                                   | [] => Fault (OutOfBounds (length pre))
                                   end.
Proof.
  unfold read. rewrite nth_error_app2 by lia. rewrite Nat.sub_diag.
  destruct suf as [|[v|] suf]; reflexivity.
Qed.

Lemma write_app_r (pre suf : list cell) (c : cell) (v : Z) :
  write (pre ++ c :: suf) (length pre) v = Ok (pre ++ Some v :: suf).
Proof.
  unfold write. rewrite length_app. cbn [length].
  destruct (Nat.ltb_spec (length pre) (length pre + S (length suf))); [|lia].
  now rewrite firstn_length_app, skipn_S_length_app.
Qed.

(** The loop of [recalculate_indexes] over written cells [mid], then the
    cells [rest] it has not reached. *)
Lemma recalculate_loop_written (original_index : Z) (mid : list Z)
  (pre rest : list cell) (n : nat) :
  recalculate_loop (length mid + n) (pre ++ map Some mid ++ rest)
    original_index (length pre) =
  recalculate_loop n (pre ++ map Some (map (bump original_index) mid) ++ rest)
    original_index (length pre + length mid).
Proof.
  revert pre; induction mid as [|v mid IH]; intros pre; simpl.
  - now rewrite Nat.add_0_r.
  - rewrite read_app_r. unfold bump at 1.
    assert (E : forall x, pre ++ Some x :: map Some mid ++ rest =
                          (pre ++ [Some x]) ++ map Some mid ++ rest)
      by (intros; now rewrite <- app_assoc).
    assert (L : forall x : cell, S (length pre) = length (pre ++ [x]))
      by (intros; rewrite length_app; simpl; lia).
    destruct (v <? original_index).
    + rewrite write_app_r.
      rewrite (E (v + 1)), (L (Some (v + 1))), IH.
      rewrite <- app_assoc. simpl. f_equal. rewrite length_app. simpl. lia.
    + rewrite (E v), (L (Some v)), IH.
      rewrite <- app_assoc. simpl. f_equal. rewrite length_app. simpl. lia.
Qed.

Lemma recalculate_indexes_written (w : list Z) (moved : nat) :
  (moved < length w)%nat ->
  recalculate_indexes (map Some w) (length w) moved =
  Ok (map Some (recalculated w moved)).
Proof.
  intros L. unfold recalculate_indexes. rewrite read_written by exact L.
  unfold recalculated.
  pose proof (firstn_skipn moved w) as E.
  assert (Lp : length (firstn moved w) = moved) by (rewrite length_firstn; lia).
  assert (Ls : length (skipn moved w) = (length w - moved)%nat)
    by now rewrite length_skipn.
  revert E Lp Ls. generalize (nth moved w 0) as o.
  generalize (firstn moved w) as pre, (skipn moved w) as suf.
  intros pre suf o E Lp Ls. subst w.
  pose proof (recalculate_loop_written o suf (map Some pre) [] 0) as H.
  rewrite !app_nil_r, Nat.add_0_r, length_map, Lp in H.
  rewrite map_app, <- Ls. refine (eq_trans H _). simpl. now rewrite map_app.
Qed.

Lemma recalculated_length (w : list Z) (moved : nat) :
  length (recalculated w moved) = length w.
Proof.
  unfold recalculated. rewrite length_app, length_map, <- length_app.
  now rewrite firstn_skipn.
Qed.

Lemma recalculated_nth (w : list Z) (i j : nat) :
  (i <= j < length w)%nat ->
  nth j (recalculated w i) 0 = bump (nth i w 0) (nth j w 0).
Proof.
  intros L. unfold recalculated.
  assert (Lp : length (firstn i w) = i) by (rewrite length_firstn; lia).
  rewrite app_nth2 by lia. rewrite Lp.
  rewrite (nth_indep _ 0 (bump (nth i w 0) 0))
    by (rewrite length_map, length_skipn; lia).
  rewrite map_nth. f_equal.
  replace (nth j w 0) with (nth j (firstn i w ++ skipn i w) 0)
    by now rewrite firstn_skipn.
  rewrite app_nth2 by lia. now rewrite Lp.
Qed.

(** With the cells before [k] written and cell [k] not, [recalculate_indexes]
    called for a slot before [k] runs into cell [k]. *)
Lemma recalculate_indexes_unwritten (w : list Z) (rest : list cell)
  (size moved : nat) :
  (moved < length w)%nat -> (length w < size)%nat ->
  recalculate_indexes (map Some w ++ None :: rest) size moved =
  Fault (UninitialisedRead (length w)).
Proof.
  intros Lm Ls. unfold recalculate_indexes.
  assert (R : read (map Some w ++ None :: rest) moved = Ok (nth moved w 0)).
  { unfold read. rewrite nth_error_app1 by (rewrite length_map; lia).
    rewrite nth_error_map, (nth_error_nth' w 0 Lm). reflexivity. }
  rewrite R.
  pose proof (firstn_skipn moved w) as E.
  assert (Lp : length (firstn moved w) = moved) by (rewrite length_firstn; lia).
  assert (Lk : length (skipn moved w) = (length w - moved)%nat)
    by now rewrite length_skipn.
  revert E Lp Lk. generalize (nth moved w 0) as o.
  generalize (firstn moved w) as pre, (skipn moved w) as mid.
  intros pre mid o E Lp Lk. subst w. rewrite length_app in *.
  pose proof (recalculate_loop_written o mid (map Some pre) (None :: rest)
                (size - moved - length mid)) as H.
  rewrite length_map, Lp in H.
  replace (length mid + (size - moved - length mid))%nat with (size - moved)%nat
    in H by lia.
  rewrite map_app, <- app_assoc.
  refine (eq_trans H _).
  destruct (size - moved - length mid)%nat as [|n] eqn:D; [lia|].
  cbn [recalculate_loop].
  replace (moved + length mid)%nat
    with (length (map Some pre ++ map Some (map (bump o) mid)))
    by (rewrite length_app, !length_map; lia).
  rewrite app_assoc, read_app_r.
  rewrite length_app, !length_map. now rewrite Lp.
Qed.

Lemma store_all_app (vals : list Z) :
  forall (pre cells : list cell),
    (length vals <= length cells)%nat ->
    store_all (pre ++ cells) (length pre) vals =
    Ok (pre ++ map Some vals ++ skipn (length vals) cells).
Proof.
  induction vals as [|v vals IH]; intros pre cells L.
  - reflexivity.
  - destruct cells as [|c cells]; [simpl in L; lia|].
    cbn [store_all]. rewrite write_app_r.
    replace (pre ++ Some v :: cells) with ((pre ++ [Some v]) ++ cells)
      by now rewrite <- app_assoc.
    replace (S (length pre)) with (length (pre ++ [Some v]))
      by (rewrite length_app; simpl; lia).
    rewrite IH by (simpl in L; lia).
    now rewrite <- app_assoc.
Qed.

(** [flatten_list] fills a prefix of the fresh array and leaves the rest
    unwritten, as long as the values fit. *)
Lemma flatten_list_eq (head : list node) (reorder : list cell) :
  head <> [] ->
  flatten_list head reorder = store_all reorder 0 (_flatten_list head).
Proof. destruct head; [contradiction | reflexivity]. Qed.

Lemma sort_list_not_nil (head : list node) : head <> [] -> sort_list head <> [].
Proof.
  intros N E. unfold sort_list in E. apply merge_sort_nil in E.
  destruct head; [contradiction | discriminate].
Qed.

Lemma flatten_list_malloc (head : list node) (n : nat) :
  head <> [] ->
  (length (_flatten_list head) <= n)%nat ->
  flatten_list head (malloc n) =
  Ok (map Some (_flatten_list head) ++
      repeat None (n - length (_flatten_list head))).
Proof.
  intros NE L. rewrite (flatten_list_eq head _ NE). unfold malloc.
  pose proof (store_all_app (_flatten_list head) [] (repeat None n)) as H.
  rewrite repeat_length in H. specialize (H L).
  simpl in H. rewrite H. now rewrite skipn_repeat.
Qed.

(** ** The moves of the move loop (C9) *)

Lemma moves_of_app (t1 t2 : list event) :
  moves_of (t1 ++ t2) = moves_of t1 ++ moves_of t2.
Proof. unfold moves_of. apply flat_map_app. Qed.

Lemma moves_of_dots (n : nat) (t : list event) :
  moves_of (repeat printf_dot n ++ t) = moves_of t.
Proof. induction n as [|n IH]; [reflexivity | exact IH]. Qed.

Lemma slot_moves_length (num_playlists : nat) (reorder : list cell) (l : list nat) :
  length (flat_map (slot_moves num_playlists reorder) l) =
  length (filter (misplaced num_playlists reorder) l).
Proof.
  induction l as [|i l IH]; [reflexivity|].
  cbn [flat_map filter]. rewrite length_app, IH.
  unfold slot_moves, misplaced.
  destruct (entry_at num_playlists reorder i) as [v|f]; [|reflexivity].
  destruct (Z.of_nat i =? v); reflexivity.
Qed.

(** Once a round has faulted there is no working array, and no move, for
    the slots after it. *)
Lemma slot_moves_after_fault (size : nat) (reorder : list cell) (f : fault)
  (n : nat) :
  forall i, working_at size reorder i = Fault f ->
            flat_map (slot_moves size reorder) (seq i n) = [].
Proof.
  induction n as [|n IH]; intros i W; [reflexivity|].
  cbn [seq flat_map]. unfold slot_moves at 1, entry_at. rewrite W.
  apply IH. cbn [working_at]. now rewrite W.
Qed.

Lemma move_loop_slot_moves (size : nat) (reorder : list cell) (n : nat) :
  forall (i : nat) (w : list cell),
    working_at size reorder i = Ok w ->
    moves_of (fst (move_loop n w size i)) =
    flat_map (slot_moves size reorder) (seq i n).
Proof.
  induction n as [|n IH]; intros i w W; [reflexivity|].
  cbn [move_loop seq flat_map].
  assert (W1 : working_at size reorder (S i) = process_slot size w i)
    by (cbn [working_at]; now rewrite W).
  unfold process_slot in W1. unfold slot_moves at 1, entry_at. rewrite W.
  destruct (read w i) as [v|f].
  - destruct (Z.of_nat i =? v).
    + specialize (IH (S i) w W1).
      destruct (move_loop n w size (S i)) as [t r]. exact IH.
    + destruct (recalculate_indexes w size i) as [w'|f].
      * specialize (IH (S i) w' W1).
        destruct (move_loop n w' size (S i)) as [t r].
        cbn [fst] in *.
        change (moves_of (printf_dot
                          :: sp_playlistcontainer_move_playlist v (Z.of_nat i) :: t))
          with ((v, Z.of_nat i) :: moves_of t).
        now rewrite IH.
      * now rewrite (slot_moves_after_fault size reorder f n (S i) W1).
  - now rewrite (slot_moves_after_fault size reorder f n (S i) W1).
Qed.

Lemma move_loop_moves_from (n : nat) :
  forall (i : nat) (w : list Z),
    (i + n = length w)%nat ->
    exists t final,
      move_loop n (map Some w) (length w) i = (t, Ok final) /\
      moves_of t = moves_from n w i.
Proof.
  induction n as [|n IH]; intros i w L.
  - exists [], (map Some w). split; reflexivity.
  - cbn [move_loop moves_from]. rewrite read_written by lia.
    destruct (Z.of_nat i =? nth i w 0).
    + destruct (IH (S i) w ltac:(lia)) as (t & final & E & M).
      rewrite E. exists (printf_dot :: t), final. split; [reflexivity | exact M].
    + rewrite recalculate_indexes_written by lia.
      pose proof (recalculated_length w i) as RL.
      destruct (IH (S i) (recalculated w i) ltac:(lia)) as (t & final & E & M).
      rewrite RL in E. rewrite E.
      exists (printf_dot
              :: sp_playlistcontainer_move_playlist (nth i w 0) (Z.of_nat i) :: t),
             final.
      split; [reflexivity|]. cbn [moves_of flat_map app]. fold (moves_of t).
      now rewrite M.
Qed.

(** C9: whatever the array holds, the moves of the move loop are, slot by
    slot in increasing order, one move [(entry, i)] for each slot [i] whose
    entry differs from [i] at the moment the slot is processed, and none for
    a slot whose entry equals [i]; so there are as many moves as misplaced
    slots.  On a fully written array the loop runs to its end. *)
Theorem move_loop_one_move_per_misplaced_slot
  (reorder : list cell) (num_playlists : nat) (w : list Z) :
  moves_of (fst (move_loop num_playlists reorder num_playlists 0)) =
    flat_map (slot_moves num_playlists reorder) (seq 0 num_playlists) /\
  length (moves_of (fst (move_loop num_playlists reorder num_playlists 0))) =
    length (filter (misplaced num_playlists reorder) (seq 0 num_playlists)) /\
  exists final, snd (move_loop (length w) (map Some w) (length w) 0) = Ok final.
Proof.
  assert (M : moves_of (fst (move_loop num_playlists reorder num_playlists 0)) =
              flat_map (slot_moves num_playlists reorder) (seq 0 num_playlists))
    by now apply move_loop_slot_moves.
  split; [exact M|]. split; [rewrite M; apply slot_moves_length|].
  destruct (move_loop_moves_from (length w) 0 w eq_refl) as (t & final & E & _).
  exists final. now rewrite E.
Qed.

Lemma move_loop_identity (size : nat) (n : nat) :
  forall i, (i + n <= size)%nat ->
    move_loop n (map Some (map Z.of_nat (seq 0 size))) size i =
    (repeat printf_dot n, Ok (map Some (map Z.of_nat (seq 0 size)))).
Proof.
  induction n as [|n IH]; intros i L; [reflexivity|].
  cbn [move_loop repeat].
  rewrite read_written by (rewrite length_map, length_seq; lia).
  assert (E : nth i (map Z.of_nat (seq 0 size)) 0 = Z.of_nat i).
  { change 0 with (Z.of_nat 0). rewrite map_nth, seq_nth by lia. reflexivity. }
  rewrite E, Z.eqb_refl, IH by lia. reflexivity.
Qed.

Lemma move_loop_unwritten (w0 : list Z) (rest : list cell) (size : nat) (d : nat) :
  forall (i : nat) (w : list Z) (n : nat),
    length w = length w0 ->
    (i + d = length w)%nat -> (d < n)%nat -> (length w < size)%nat ->
    snd (move_loop n (map Some w ++ None :: rest) size i) =
    Fault (UninitialisedRead (length w0)).
Proof.
  induction d as [|d IH]; intros i w n Lw Li Ln Ls.
  - destruct n as [|n]; [lia|]. cbn [move_loop].
    replace i with (length (map Some w)) by (rewrite length_map; lia).
    rewrite read_app_r. simpl. now rewrite length_map, Lw.
  - destruct n as [|n]; [lia|]. cbn [move_loop].
    assert (R : read (map Some w ++ None :: rest) i = Ok (nth i w 0)).
    { unfold read. rewrite nth_error_app1 by (rewrite length_map; lia).
      rewrite nth_error_map, (nth_error_nth' w 0) by lia. reflexivity. }
    rewrite R. destruct (Z.of_nat i =? nth i w 0).
    + specialize (IH (S i) w n Lw).
      destruct (move_loop n (map Some w ++ None :: rest) size (S i)) as [t r].
      simpl in *. apply IH; lia.
    + rewrite recalculate_indexes_unwritten by lia. simpl. now rewrite Lw.
Qed.

(** ** The first loop on pointers and on trees *)

Lemma layout_node_eq par a nxt it ch :
  layout_node par a nxt (Node it ch) =
  mk_s_node nxt (match ch with [] => None | _ => Some (S a) end) par it
  :: layout (Some a) (S a) false ch.
Proof.
  cbn [layout_node]. f_equal.
  generalize (S a) as a'. induction ch as [|c l IH]; intros a'; [reflexivity|].
  cbn [layout]. rewrite IH. destruct l; reflexivity.
Qed.

Lemma chain_size_app l1 l2 : chain_size (l1 ++ l2) = (chain_size l1 + chain_size l2)%nat.
Proof. unfold chain_size. now rewrite map_app, list_sum_app. Qed.

Lemma chain_size_rev l : chain_size (rev l) = chain_size l.
Proof.
  induction l as [|c l IH]; [reflexivity|]. cbn [rev]. rewrite chain_size_app, IH.
  unfold chain_size. simpl. lia.
Qed.

Lemma chain_size_cons c l : chain_size (c :: l) = (node_size c + chain_size l)%nat.
Proof. reflexivity. Qed.

Lemma node_size_eq it ch : node_size (Node it ch) = S (chain_size ch).
Proof. reflexivity. Qed.

Lemma layout_length (l : list node) :
  forall par a more, length (layout par a more l) = chain_size l.
Proof.
  induction l as [l IH] using forest_ind.
  induction IH as [|c l Hc Hl IHl]; intros par a more; [reflexivity|].
  cbn [layout]. rewrite length_app, IHl, chain_size_cons. f_equal.
  destruct c as [it ch]. rewrite layout_node_eq. cbn [length children] in *.
  now rewrite Hc, node_size_eq.
Qed.

Lemma layout_node_length par a nxt n : length (layout_node par a nxt n) = node_size n.
Proof.
  destruct n as [it ch]. rewrite layout_node_eq. cbn [length].
  now rewrite layout_length, node_size_eq.
Qed.

Lemma layout_app (l1 l2 : list node) :
  forall par a more,
    layout par a more (l1 ++ l2) =
    layout par a (match l2 with [] => more | _ => true end) l1
    ++ layout par (a + chain_size l1) more l2.
Proof.
  induction l1 as [|c l1 IH]; intros par a more.
  - cbn [app layout]. change (chain_size []) with 0%nat. now rewrite Nat.add_0_r.
  - cbn [app layout]. rewrite IH, <- app_assoc, chain_size_cons, Nat.add_assoc.
    f_equal. destruct l1 as [|d l1]; [|reflexivity].
    cbn [app]. destruct l2; reflexivity.
Qed.

Lemma prefix_mem_length parents hc : length (prefix_mem parents hc) = chain_base parents.
Proof.
  revert hc; induction parents as [|[it before] up IH]; intros hc; [reflexivity|].
  cbn [prefix_mem chain_base]. rewrite !length_app, IH, layout_length, chain_size_rev.
  cbn [length]. lia.
Qed.

Lemma state_mem_length parents siblings :
  length (state_mem parents siblings) = (chain_base parents + chain_size siblings)%nat.
Proof.
  unfold state_mem. now rewrite length_app, prefix_mem_length, layout_length, chain_size_rev.
Qed.

Lemma poke_app (pre post : memory) (r : s_node) (f : s_node -> s_node) :
  poke (pre ++ r :: post) (length pre) f = pre ++ f r :: post.
Proof.
  unfold poke. rewrite nth_error_app2, Nat.sub_diag by lia. cbn [nth_error].
  now rewrite firstn_length_app, skipn_S_length_app.
Qed.

Lemma poke_middle (pre post : memory) (r : s_node) (f : s_node -> s_node) (p : nat) :
  p = length pre -> poke (pre ++ r :: post) p f = pre ++ f r :: post.
Proof. intros ->. apply poke_app. Qed.

Lemma nth_error_middle (pre post : memory) (r : s_node) (p : nat) :
  p = length pre -> nth_error (pre ++ r :: post) p = Some r.
Proof. intros ->. now rewrite nth_error_app2, Nat.sub_diag by lia. Qed.

Lemma layout_rev_cons par base x before (more : bool) :
  let ax := (base + chain_size before)%nat in
  layout par base more (rev (x :: before)) =
  layout par base true (rev before)
  ++ mk_s_node (if more then Some (ax + node_size x)%nat else None)
       (match children x with [] => None | _ => Some (S ax) end)
       par (item x)
     :: layout (Some ax) (S ax) false (children x).
Proof.
  intros ax. cbn [rev]. rewrite layout_app. cbn [layout]. rewrite app_nil_r.
  destruct x as [xit xch]. rewrite layout_node_eq, chain_size_rev. fold ax.
  reflexivity.
Qed.

Lemma parent_record parents (hc : bool) q :
  parent_addr parents = Some q ->
  exists pre it up_par,
    prefix_mem parents hc =
    pre ++ [mk_s_node None (if hc then Some (q + 1)%nat else None) up_par it] /\
    length pre = q /\
    (forall hc', prefix_mem parents hc' =
                 pre ++ [mk_s_node None (if hc' then Some (q + 1)%nat else None) up_par it]) /\
    (exists before up, parents = (it, before) :: up /\ up_par = parent_addr up).
Proof.
  destruct parents as [|[pit pbefore] up]; [discriminate|].
  cbn [parent_addr]. intros [= <-].
  exists (prefix_mem up true ++ layout (parent_addr up) (chain_base up) true (rev pbefore)),
         pit, (parent_addr up).
  repeat split.
  - cbn [prefix_mem]. now rewrite <- app_assoc.
  - now rewrite length_app, prefix_mem_length, layout_length, chain_size_rev.
  - intros hc'. cbn [prefix_mem]. now rewrite <- app_assoc.
  - now exists pbefore, up.
Qed.

(** [create_node] on the memory of a state: the new record goes to the end;
    the last node of the chain in hand, when there is one, gets it as
    [next]; otherwise the open folder, when there is one, gets it as
    [children]. *)
Lemma create_node_state_mem parents siblings it :
  create_node (state_mem parents siblings) (previous_addr parents siblings)
    (parent_addr parents) it =
  (state_mem parents (Node it [] :: siblings),
   (chain_base parents + chain_size siblings)%nat).
Proof.
  unfold create_node. rewrite state_mem_length. f_equal.
  set (new_node := (chain_base parents + chain_size siblings)%nat).
  set (rnew := mk_s_node None None (parent_addr parents) it).
  assert (NEW : forall sib, state_mem parents (Node it [] :: sib) =
                prefix_mem parents true
                ++ layout (parent_addr parents) (chain_base parents) true (rev sib)
                ++ [rnew]).
  { intros sib. unfold state_mem. cbn [is_nil negb rev]. rewrite layout_app. cbn [layout].
    rewrite layout_node_eq. cbn [layout]. rewrite app_nil_r. reflexivity. }
  rewrite NEW. clear NEW.
  destruct siblings as [|x before].
  - (* the chain in hand is empty *)
    cbn [previous_addr rev layout app]. unfold state_mem.
    cbn [is_nil negb rev layout]. rewrite app_nil_r.
    destruct (parent_addr parents) as [q|] eqn:PA.
    + destruct (parent_record parents false q PA) as (pre & pit & upp & E & Lq & EA & _).
      rewrite E, (EA true). rewrite <- app_assoc. cbn [app].
      rewrite (nth_error_middle pre _ _ q (eq_sym Lq)). cbn [option_map p_children].
      rewrite <- Lq, poke_app. cbn [p_next p_parent p_item].
      replace new_node with (length pre + 1)%nat.
      * now rewrite <- app_assoc.
      * unfold new_node. change (chain_size []) with 0%nat.
        destruct parents as [|[pit' pbefore] up]; [discriminate|].
        cbn [parent_addr] in PA. injection PA as PA. cbn [chain_base]. lia.
    + destruct parents as [|[pit' pbefore] up]; [reflexivity | discriminate].
  - (* the chain in hand has a last node *)
    cbn [previous_addr]. unfold state_mem. cbn [is_nil negb].
    rewrite !layout_rev_cons.
    set (ax := (chain_base parents + chain_size before)%nat).
    set (pre := prefix_mem parents true
                ++ layout (parent_addr parents) (chain_base parents) true (rev before)).
    assert (Lp : length pre = ax).
    { unfold pre, ax. now rewrite length_app, prefix_mem_length, layout_length, chain_size_rev. }
    replace (ax + node_size x)%nat with new_node
      by (unfold ax, new_node; rewrite chain_size_cons; lia).
    rewrite !app_assoc. fold pre. rewrite <- !app_assoc. cbn [app].
    rewrite <- Lp, poke_app.
    cbn [p_children p_parent p_item].
    destruct (parent_addr parents) as [q|] eqn:PA; [|reflexivity].
    destruct (parent_record parents true q PA) as (ppre & pit & upp & E & Lq & _ & _).
    assert (N : exists rest, pre = ppre ++ mk_s_node None (Some (q + 1)%nat) upp pit :: rest).
    { unfold pre. rewrite E, <- app_assoc. cbn [app]. eauto. }
    destruct N as [rest N]. rewrite N, <- app_assoc. cbn [app].
    rewrite (nth_error_middle ppre _ _ q (eq_sym Lq)). reflexivity.
Qed.

(** Closing a folder leaves the records where they are. *)
Lemma state_mem_close it before up siblings :
  state_mem ((it, before) :: up) siblings =
  state_mem up (Node it (rev siblings) :: before).
Proof.
  unfold state_mem. cbn [is_nil negb prefix_mem parent_addr chain_base].
  rewrite layout_rev_cons. cbn [children item].
  rewrite <- !app_assoc. cbn [app]. do 3 f_equal.
  - f_equal. destruct siblings as [|x l]; [reflexivity|].
    cbn [is_nil negb rev]. destruct (rev l ++ [x]) eqn:E.
    + now destruct (rev l).
    + f_equal. lia.
  - f_equal. lia.
Qed.

(** The memory of a state with an open folder: what stands before the
    folder's record, the record, the records of its children so far. *)
Lemma state_mem_open it before up siblings :
  let p := (chain_base up + chain_size before)%nat in
  state_mem ((it, before) :: up) siblings =
  (prefix_mem up true ++ layout (parent_addr up) (chain_base up) true (rev before))
  ++ mk_s_node None (if is_nil siblings then None else Some (p + 1)%nat)
       (parent_addr up) it
     :: layout (Some p) (p + 1) false (rev siblings).
Proof.
  intros p. unfold state_mem. cbn [prefix_mem parent_addr chain_base].
  rewrite <- !app_assoc. cbn [app]. now destruct siblings.
Qed.

Lemma open_prefix_length before up :
  length (prefix_mem up true ++ layout (parent_addr up) (chain_base up) true (rev before)) =
  (chain_base up + chain_size before)%nat.
Proof. now rewrite length_app, prefix_mem_length, layout_length, chain_size_rev. Qed.

(** The [END_FOLDER] case on the memory of a state. *)
Lemma end_folder_state_mem it before up siblings (i : Z) :
  let p := (chain_base up + chain_size before)%nat in
  exists r,
    nth_error (state_mem ((it, before) :: up) siblings) p = Some r /\
    p_parent r = parent_addr up /\
    poke (state_mem ((it, before) :: up) siblings) p
      (fun n => mk_s_node (p_next n) (p_children n) (p_parent n)
                  (set_end_index (p_item n) i)) =
    state_mem up (Node (set_end_index it i) (rev siblings) :: before).
Proof.
  intros p. rewrite <- state_mem_close, !state_mem_open. fold p.
  pose proof (open_prefix_length before up) as L. fold p in L.
  eexists. split; [|split].
  - now apply nth_error_middle.
  - reflexivity.
  - now rewrite poke_middle by (symmetry; exact L).
Qed.

Lemma first_loop_step_agrees (s : locals) (st : builder) (i : nat) (e : entry) :
  stands_for s st -> results_agree (first_loop_step s i e) (build_step st i e).
Proof.
  intros (M & I & P & V & N).
  assert (I' : match l_items s with
               | None => Some (chain_base (parents st) + chain_size (siblings st))%nat
               | x => x
               end = Some 0%nat).
  { rewrite I. destruct (parents st), (siblings st); reflexivity. }
  destruct e as [[|] nm | nm | | ]; cbn [first_loop_step build_step negb results_agree].
  - (* a loaded playlist *)
    rewrite M, V, P, create_node_state_mem.
    repeat split; cbn [mem l_items l_parent l_previous l_not_loaded parents siblings];
      try assumption.
    now rewrite andb_false_r.
  - (* a playlist that is not loaded *)
    repeat split; cbn [mem l_items l_parent l_previous l_not_loaded parents siblings];
      try assumption. now rewrite N.
  - (* a folder starts *)
    rewrite M, V, P, create_node_state_mem.
    repeat split; cbn [mem l_items l_parent l_previous l_not_loaded parents siblings];
      try assumption.
    now rewrite state_mem_close.
  - (* a folder ends *)
    rewrite P. destruct (parents st) as [|[it before] up] eqn:EP; cbn [parent_addr].
    + reflexivity.
    + destruct (end_folder_state_mem it before up (siblings st) (Z.of_nat i))
        as (r & R & RP & K).
      rewrite M, R, K.
      repeat split; cbn [mem l_items l_parent l_previous l_not_loaded parents siblings];
        try assumption.
      rewrite I. cbn [is_nil andb]. now rewrite andb_false_r.
  - (* a placeholder *)
    repeat split; assumption.
Qed.

Lemma first_loop_agrees (pc : list entry) :
  forall (i : nat) (s : locals) (st : builder),
    stands_for s st -> results_agree (first_loop pc i s) (build_loop pc i st).
Proof.
  induction pc as [|e pc IH]; intros i s st R; [exact R|].
  cbn [first_loop build_loop].
  pose proof (first_loop_step_agrees s st i e R) as A.
  destruct (first_loop_step s i e) as [s'|f], (build_step st i e) as [st'|f'];
    cbn [results_agree] in A; try contradiction.
  - now apply IH.
  - exact A.
Qed.

(** The memory of a state is the layout of the forest it stands for. *)
Lemma state_mem_items parents :
  forall siblings,
    state_mem parents siblings = layout None 0 false (items_of parents siblings).
Proof.
  induction parents as [|[it before] up IH]; intros siblings.
  - reflexivity.
  - cbn [items_of]. rewrite <- IH. apply state_mem_close.
Qed.

Lemma items_of_nil parents siblings :
  is_nil (items_of parents siblings) = is_nil parents && is_nil siblings.
Proof.
  revert siblings; induction parents as [|[it before] up IH]; intros siblings.
  - cbn [items_of is_nil andb]. destruct siblings as [|x l]; [reflexivity|].
    cbn [rev]. now destruct (rev l).
  - cbn [items_of]. rewrite IH. cbn [is_nil]. now rewrite andb_false_r.
Qed.

(** Following the pointers through a layout gives the forest back. *)
Lemma chain_at_layout (l : list node) :
  forall (fuel : nat) (par : option nat) (a : nat) (pre post : memory),
    length pre = a -> (chain_size l < fuel)%nat ->
    chain_at fuel (pre ++ layout par a false l ++ post) (head_of a l) = l.
Proof.
  induction l as [l IH] using forest_ind.
  induction IH as [|n l Hn Hl IHl]; intros fuel par a pre post La Lf.
  - destruct fuel; reflexivity.
  - destruct fuel as [|fuel]; [lia|].
    destruct n as [it ch]. cbn [children] in Hn.
    rewrite chain_size_cons, node_size_eq in Lf.
    cbn [layout]. rewrite layout_node_eq. cbn [head_of is_nil chain_at].
    rewrite <- !app_assoc. cbn [app].
    rewrite (nth_error_middle pre _ _ a (eq_sym La)).
    cbn [p_item p_children p_next]. f_equal.
    + f_equal.
      specialize (Hn fuel (Some a) (S a)
                    (pre ++ [mk_s_node (match l with
                                        | [] => None
                                        | _ => Some (a + node_size (Node it ch))%nat
                                        end)
                               (match ch with [] => None | _ => Some (S a) end) par it])
                    (layout par (a + node_size (Node it ch)) false l ++ post)).
      rewrite <- !app_assoc in Hn. cbn [app] in Hn.
      replace (match ch with [] => None | _ :: _ => Some (S a) end)
        with (head_of (S a) ch) by now destruct ch.
      replace (match ch with [] => None | _ :: _ => Some (S a) end)
        with (head_of (S a) ch) in Hn by now destruct ch.
      apply Hn; [rewrite length_app; cbn [length]; lia | lia].
    + specialize (IHl fuel par (a + node_size (Node it ch))%nat
                    (pre ++ mk_s_node (match l with
                                       | [] => None
                                       | _ => Some (a + node_size (Node it ch))%nat
                                       end)
                              (match ch with [] => None | _ => Some (S a) end) par it
                         :: layout (Some a) (S a) false ch)
                    post).
      rewrite <- !app_assoc in IHl. cbn [app] in IHl.
      replace (match l with [] => None | _ :: _ => Some (a + node_size (Node it ch))%nat end)
        with (head_of (a + node_size (Node it ch)) l) by now destruct l.
      replace (match l with [] => None | _ :: _ => Some (a + node_size (Node it ch))%nat end)
        with (head_of (a + node_size (Node it ch)) l) in IHl by now destruct l.
      apply IHl; [|lia].
      rewrite length_app. cbn [length]. rewrite layout_length, node_size_eq. lia.
Qed.

(** The first loop of [sort_playlists] leaves in memory the forest that
    [build_loop] builds, with [items] at its head and the same count of
    playlists that are not loaded; following the pointers for as many steps
    as there are records reads the whole forest; the loop dereferences a
    null pointer exactly when [build_loop] does. *)
Theorem first_loop_builds (pc : list entry) :
  match first_loop pc 0 (mk_locals [] None None None 0), build pc with
  | Ok s, Ok st =>
      chain_at (S (length (mem s))) (mem s) (l_items s) = items st /\
      l_items s = head_of 0 (items st) /\
      l_not_loaded s = not_loaded st
  | Fault f, Fault f' => f = f'
  | _, _ => False
  end.
Proof.
  assert (R0 : stands_for (mk_locals [] None None None 0) (mk_builder [] [] 0))
    by (repeat split).
  pose proof (first_loop_agrees pc 0 _ _ R0) as A. unfold build.
  destruct (first_loop pc 0 (mk_locals [] None None None 0)) as [s|f],
           (build_loop pc 0 (mk_builder [] [] 0)) as [st|f'];
    cbn [results_agree] in A; try contradiction; [|exact A].
  destruct A as (M & I & _ & _ & N).
  assert (H : l_items s = head_of 0 (items st)).
  { unfold head_of, items. now rewrite items_of_nil. }
  split; [|split; assumption].
  unfold items in *. rewrite H, M, state_mem_items, layout_length.
  pose proof (chain_at_layout (items_of (parents st) (siblings st))
                (S (chain_size (items_of (parents st) (siblings st)))) None 0 [] []
                eq_refl) as C.
  cbn [app] in C. rewrite app_nil_r in C. apply C. lia.
Qed.

(** [sort_playlists] does what it does with its first loop run on trees. *)
Lemma sort_playlists_on_trees_eq (pc : sp_playlistcontainer) :
  sort_playlists pc = sort_playlists_on_trees pc.
Proof.
  pose proof (first_loop_builds pc) as A.
  unfold sort_playlists, sort_playlists_on_trees. fold (build pc). cbv zeta.
  destruct (first_loop pc 0 (mk_locals [] None None None 0)) as [s|f],
           (build pc) as [st|f']; try contradiction.
  - destruct A as (C & I & N). rewrite N.
    destruct (not_loaded st >? 0); [reflexivity|].
    rewrite C, I. unfold head_of. now destruct (items st).
  - now subst.
Qed.

(** ** The first loop: end markers and unloaded playlists (C5, C8) *)

Lemma build_loop_matched (pc : list entry) :
  forall (i : nat) (st : builder),
    ends_matched (length (parents st)) pc = true ->
    exists st', build_loop pc i st = Ok st' /\
                not_loaded st' = not_loaded st + count_not_loaded pc.
Proof.
  induction pc as [|e pc IH]; intros i st M.
  - exists st. simpl. split; [reflexivity | lia].
  - destruct e as [[|] nm | nm | | ]; cbn [build_loop build_step negb].
    + destruct (IH (S i) (mk_builder (parents st)
                  (Node (create_playlist_item (Z.of_nat i) nm) [] :: siblings st)
                  (not_loaded st)) M) as [st' [B C]].
      exists st'. split; [exact B|]. rewrite C.
      cbn [count_not_loaded is_not_loaded not_loaded]. lia.
    + destruct (IH (S i) (mk_builder (parents st) (siblings st) (not_loaded st + 1)) M)
        as [st' [B C]].
      exists st'. split; [exact B|]. rewrite C.
      cbn [count_not_loaded is_not_loaded not_loaded]. lia.
    + destruct (IH (S i) (mk_builder
                  ((create_playlist_item (Z.of_nat i) nm, siblings st) :: parents st)
                  [] (not_loaded st)) M) as [st' [B C]].
      exists st'. split; [exact B|]. rewrite C.
      cbn [count_not_loaded is_not_loaded not_loaded]. lia.
    + simpl in M. destruct (parents st) as [|[it before] up] eqn:P; [discriminate|].
      destruct (IH (S i) (mk_builder up
                  (Node (set_end_index it (Z.of_nat i)) (rev (siblings st)) :: before)
                  (not_loaded st)) M) as [st' [B C]].
      exists st'. split; [exact B|]. rewrite C.
      cbn [count_not_loaded is_not_loaded not_loaded]. lia.
    + destruct (IH (S i) st M) as [st' [B C]].
      exists st'. split; [exact B|]. rewrite C.
      cbn [count_not_loaded is_not_loaded not_loaded]. lia.
Qed.

Lemma build_loop_unmatched (pc : list entry) :
  forall (i : nat) (st : builder),
    ends_matched (length (parents st)) pc = false ->
    build_loop pc i st = Fault NullDereference.
Proof.
  induction pc as [|e pc IH]; intros i st M.
  - discriminate.
  - destruct e as [[|] nm | nm | | ]; cbn [build_loop build_step negb].
    + now apply IH.
    + now apply IH.
    + now apply IH.
    + simpl in M. destruct (parents st) as [|[it before] up] eqn:P; [reflexivity|].
      now apply IH.
    + now apply IH.
Qed.

Lemma count_not_loaded_pos (pc : list entry) :
  existsb is_not_loaded pc = true -> 0 < count_not_loaded pc.
Proof.
  assert (N : forall l, 0 <= count_not_loaded l).
  { induction l as [|e l IH]; cbn [count_not_loaded]; [lia|].
    destruct (is_not_loaded e); lia. }
  induction pc as [|e pc IH]; cbn [count_not_loaded existsb]; [discriminate|].
  specialize (N pc). destruct (is_not_loaded e); cbn [orb]; [lia|].
  intros H. specialize (IH H). lia.
Qed.

Lemma count_not_loaded_fully (pc : list entry) :
  fully_loaded pc = true -> count_not_loaded pc = 0.
Proof.
  induction pc as [|e pc IH]; [reflexivity|].
  unfold fully_loaded. cbn [forallb count_not_loaded].
  destruct (is_not_loaded e); [discriminate|]. cbn [negb andb]. intros H.
  fold (fully_loaded pc) in H. rewrite (IH H). reflexivity.
Qed.

(** Every [return] of [sort_playlists] is [return 1]. *)
Lemma sort_playlists_returns_one (pc : list entry) (code : Z) :
  returned (sort_playlists pc) = Ok code -> code = 1.
Proof.
  unfold sort_playlists. cbv zeta.
  destruct (first_loop pc 0 (mk_locals [] None None None 0)) as [s|f];
    [|discriminate].
  destruct (l_not_loaded s >? 0); [now intros [= <-]|].
  destruct (l_items s); [|now intros [= <-]].
  destruct (flatten_list _ _) as [reorder|f]; [|discriminate].
  destruct (move_loop _ reorder _ 0) as [t [v|f]]; [now intros [= <-] | discriminate].
Qed.

(** C8, counterexample: a container that holds one playlist, which is not
    loaded.  The pass returns 1, the value it returns for the container
    that holds the same playlist loaded: nothing reaches the caller. *)
Lemma not_ready_report_fails :
  ~ not_ready_report [SP_PLAYLIST_TYPE_PLAYLIST false "a"].
Proof.
  intros H. destruct (H eq_refl) as [_ D].
  apply (D [SP_PLAYLIST_TYPE_PLAYLIST true "a"] 1); reflexivity.
Qed.

(** C8, amended: if at least one playlist reports not loaded and every end
    marker closes an open folder, [sort_playlists] prints the number of
    playlists that are not loaded and returns 1; its trace holds no move
    call; and 1 is the value of every pass that returns, a completed pass
    included, so the value returned tells the caller nothing. *)
Theorem sort_playlists_not_loaded (pc : list entry) :
  existsb is_not_loaded pc = true ->
  ends_matched 0 pc = true ->
  sort_playlists pc =
    mk_outcome [printf_reordering (length pc); printf_error (count_not_loaded pc)]
               (Ok 1) /\
  0 < count_not_loaded pc /\
  moves_of (trace (sort_playlists pc)) = [] /\
  forall (pc' : list entry) (code : Z),
    returned (sort_playlists pc') = Ok code ->
    returned (sort_playlists pc) = Ok code.
Proof.
  intros U M.
  pose proof (count_not_loaded_pos pc U) as P.
  destruct (build_loop_matched pc 0 (mk_builder [] [] 0) M) as [st [B C]].
  simpl in C.
  assert (E : sort_playlists pc =
              mk_outcome [printf_reordering (length pc);
                          printf_error (count_not_loaded pc)] (Ok 1)).
  { rewrite sort_playlists_on_trees_eq. unfold sort_playlists_on_trees. rewrite B, C.
    destruct (Z.gtb_spec (count_not_loaded pc) 0); [reflexivity | lia]. }
  rewrite E. split; [reflexivity|]. split; [exact P|]. split; [reflexivity|].
  intros pc' code R. cbn [returned].
  now rewrite (sort_playlists_returns_one pc' code R).
Qed.

Lemma sort_playlists_not_loaded_witness :
  let pc := [SP_PLAYLIST_TYPE_START_FOLDER "f"; SP_PLAYLIST_TYPE_PLAYLIST false "a";
             SP_PLAYLIST_TYPE_PLAYLIST true "b"; SP_PLAYLIST_TYPE_END_FOLDER;
             SP_PLAYLIST_TYPE_PLAYLIST false "c"] in
  sort_playlists pc =
    mk_outcome [printf_reordering (length pc); printf_error (count_not_loaded pc)]
               (Ok 1) /\
  0 < count_not_loaded pc /\
  moves_of (trace (sort_playlists pc)) = [] /\
  forall (pc' : list entry) (code : Z),
    returned (sort_playlists pc') = Ok code ->
    returned (sort_playlists pc) = Ok code.
Proof.
  apply sort_playlists_not_loaded; reflexivity.
Defined.

(** C5, counterexample: on a container that holds one end marker the call
    does not return. *)
Lemma unmatched_end_not_reported :
  ~ structural_error_reported [SP_PLAYLIST_TYPE_END_FOLDER].
Proof.
  intros H. destruct (H eq_refl) as [code R]. discriminate R.
Qed.

(** C5, amended: the first loop has no check for an end marker met while no
    folder is open and signals no error: at that entry it dereferences the
    null [parent], so the call does not return to its caller; nothing but
    the opening message has been printed and no move has been emitted. *)
Theorem sort_playlists_unmatched_end (pc : list entry) :
  ends_matched 0 pc = false ->
  sort_playlists pc =
    mk_outcome [printf_reordering (length pc)] (Fault NullDereference) /\
  moves_of (trace (sort_playlists pc)) = [] /\
  ~ (exists code, returned (sort_playlists pc) = Ok code).
Proof.
  intros M.
  assert (E : sort_playlists pc =
              mk_outcome [printf_reordering (length pc)] (Fault NullDereference)).
  { rewrite sort_playlists_on_trees_eq. unfold sort_playlists_on_trees.
    now rewrite (build_loop_unmatched pc 0 (mk_builder [] [] 0) M). }
  rewrite E. repeat split. intros [code R]. discriminate R.
Qed.

Lemma sort_playlists_unmatched_end_witness :
  let pc := [SP_PLAYLIST_TYPE_PLAYLIST true "a"; SP_PLAYLIST_TYPE_END_FOLDER] in
  sort_playlists pc =
    mk_outcome [printf_reordering (length pc)] (Fault NullDereference) /\
  moves_of (trace (sort_playlists pc)) = [] /\
  ~ (exists code, returned (sort_playlists pc) = Ok code).
Proof.
  apply sort_playlists_unmatched_end. reflexivity.
Defined.

(** ** Invariants of the first loop *)

(** A property of the builder's state and of the entries still to come is
    carried through the loop when each step keeps it. *)
Lemma build_loop_invariant (I : builder -> nat -> list entry -> Prop) :
  (forall st i e pc st', I st i (e :: pc) -> build_step st i e = Ok st' ->
                         I st' (S i) pc) ->
  forall pc i st st',
    I st i pc -> build_loop pc i st = Ok st' -> I st' (i + length pc)%nat [].
Proof.
  intros step pc. induction pc as [|e pc IH]; intros i st st' H B.
  - simpl in *. injection B as <-. now rewrite Nat.add_0_r.
  - cbn [build_loop] in B. destruct (build_step st i e) as [st1|f] eqn:S1;
      [|discriminate].
    simpl. rewrite <- Nat.add_succ_comm. apply (IH (S i) st1); [|exact B].
    now apply (step st i e pc).
Qed.

Lemma build_loop_balanced (pc : list entry) :
  forall (i : nat) (st : builder),
    balanced_from (length (parents st)) pc = true ->
    exists st', build_loop pc i st = Ok st' /\ parents st' = [] /\
                not_loaded st' = not_loaded st + count_not_loaded pc.
Proof.
  induction pc as [|e pc IH]; intros i st M.
  - exists st. simpl in *. repeat split; [|lia].
    destruct (parents st); [reflexivity | discriminate].
  - destruct e as [[|] nm | nm | | ]; cbn [build_loop build_step negb];
      cbn [count_not_loaded is_not_loaded].
    + destruct (IH (S i) (mk_builder (parents st)
                  (Node (create_playlist_item (Z.of_nat i) nm) [] :: siblings st)
                  (not_loaded st)) M) as [st' [B [P C]]].
      exists st'. repeat split; [exact B | exact P |]. rewrite C. cbn [not_loaded]. lia.
    + destruct (IH (S i) (mk_builder (parents st) (siblings st) (not_loaded st + 1)) M)
        as [st' [B [P C]]].
      exists st'. repeat split; [exact B | exact P |]. rewrite C. cbn [not_loaded]. lia.
    + destruct (IH (S i) (mk_builder
                  ((create_playlist_item (Z.of_nat i) nm, siblings st) :: parents st)
                  [] (not_loaded st)) M) as [st' [B [P C]]].
      exists st'. repeat split; [exact B | exact P |]. rewrite C. cbn [not_loaded]. lia.
    + simpl in M. destruct (parents st) as [|[it before] up] eqn:E; [discriminate|].
      destruct (IH (S i) (mk_builder up
                  (Node (set_end_index it (Z.of_nat i)) (rev (siblings st)) :: before)
                  (not_loaded st)) M) as [st' [B [P C]]].
      exists st'. repeat split; [exact B | exact P |]. rewrite C. cbn [not_loaded]. lia.
    + destruct (IH (S i) st M) as [st' [B [P C]]].
      exists st'. repeat split; [exact B | exact P |]. rewrite C. lia.
Qed.

(** Once an entry has made a node, a folder is open or the chain in hand has
    a node. *)
Lemma build_loop_has_node (pc : list entry) (i : nat) (st st' : builder) :
  build_loop pc i st = Ok st' ->
  existsb makes_node pc = true \/ parents st <> [] \/ siblings st <> [] ->
  parents st' <> [] \/ siblings st' <> [].
Proof.
  intros B H.
  apply (build_loop_invariant
           (fun s _ rest => existsb makes_node rest = true \/
                            parents s <> [] \/ siblings s <> [])) in B.
  - destruct B as [B|B]; [discriminate | exact B].
  - clear. intros s j e rest s' H S1.
    destruct e as [[|] nm | nm | | ]; cbn [build_step negb] in S1.
    + injection S1 as <-. right. right. discriminate.
    + injection S1 as <-. cbn [existsb makes_node orb] in H. exact H.
    + injection S1 as <-. right. left. discriminate.
    + destruct (parents s) as [|[it before] up]; [discriminate|].
      injection S1 as <-. right. right. discriminate.
    + injection S1 as <-. cbn [existsb makes_node orb] in H. exact H.
  - exact H.
Qed.

(** ** Flattening and sorting *)

Lemma flatten_list_app (l1 l2 : list node) :
  _flatten_list (l1 ++ l2) = _flatten_list l1 ++ _flatten_list l2.
Proof. unfold _flatten_list. apply flat_map_app. Qed.

Lemma flatten_list_split (n : node) (l1 l2 : list node) :
  _flatten_list (l1 ++ n :: l2) =
  _flatten_list l1 ++ _flatten_node n ++ _flatten_list l2.
Proof. unfold _flatten_list. now rewrite flat_map_app. Qed.

Lemma flat_len_cons (n : node) (l : list node) :
  flat_len (n :: l) = (length (_flatten_node n) + flat_len l)%nat.
Proof. unfold flat_len, _flatten_list. simpl. now rewrite length_app. Qed.

Lemma flat_len_rev (l : list node) : flat_len (rev l) = flat_len l.
Proof.
  unfold flat_len, _flatten_list. apply Permutation_length.
  apply Permutation_flat_map. symmetry. apply Permutation_rev.
Qed.

Lemma flatten_node_length (it : playlist_item) (ch : list node) :
  (length (_flatten_node (Node it ch)) <= 2 + flat_len ch)%nat.
Proof.
  destruct ch as [|c ch]; [simpl; lia|].
  cbn [_flatten_node length]. rewrite length_app. simpl. unfold flat_len, _flatten_list.
  simpl. lia.
Qed.

Lemma flatten_sort_children_perm (n : node) :
  Permutation (_flatten_node (sort_children n)) (_flatten_node n).
Proof.
  induction n as [it ch IH] using node_forall_ind.
  destruct ch as [|c ch]; [reflexivity|].
  cbn [sort_children _flatten_node].
  destruct (merge_sort (map sort_children (c :: ch))) as [|m ms] eqn:E.
  - apply merge_sort_nil in E. discriminate.
  - rewrite <- E. constructor. apply Permutation_app_tail.
    rewrite (Permutation_flat_map _flatten_node
               (merge_sort_perm (map sort_children (c :: ch)))).
    rewrite flat_map_concat_map, map_map, <- flat_map_concat_map.
    clear E. induction IH as [|x l Hx Hl IHl]; [reflexivity|].
    cbn [flat_map]. now apply Permutation_app.
Qed.

Lemma flatten_sort_list_perm (head : list node) :
  Permutation (_flatten_list (sort_list head)) (_flatten_list head).
Proof.
  unfold _flatten_list, sort_list.
  rewrite (Permutation_flat_map _flatten_node
             (merge_sort_perm (map sort_children head))).
  rewrite flat_map_concat_map, map_map, <- flat_map_concat_map.
  induction head as [|x l IHl]; [reflexivity|].
  cbn [flat_map]. apply Permutation_app; [apply flatten_sort_children_perm | exact IHl].
Qed.

(** ** Placeholders (C10) *)

Lemma build_step_len (st st' : builder) (i : nat) (e : entry) :
  build_step st i e = Ok st' ->
  (open_len (parents st') + flat_len (siblings st') <=
   open_len (parents st) + flat_len (siblings st) +
   (if is_placeholder e then 0 else 1))%nat.
Proof.
  destruct e as [[|] nm | nm | | ]; cbn [build_step negb is_placeholder].
  - intros [= <-]. cbn [parents siblings]. rewrite flat_len_cons. simpl. lia.
  - intros [= <-]. cbn [parents siblings]. lia.
  - intros [= <-]. cbn [parents siblings open_len]. change (flat_len []) with 0%nat. lia.
  - destruct (parents st) as [|[it before] up]; [discriminate|].
    intros [= <-]. cbn [parents siblings open_len]. rewrite flat_len_cons.
    pose proof (flatten_node_length (set_end_index it (Z.of_nat i)) (rev (siblings st))).
    rewrite flat_len_rev in *. lia.
  - intros [= <-]. lia.
Qed.

Lemma build_loop_len (pc : list entry) (i : nat) (st st' : builder) :
  build_loop pc i st = Ok st' ->
  (open_len (parents st') + flat_len (siblings st') <=
   open_len (parents st) + flat_len (siblings st) + count_slots pc)%nat.
Proof.
  intros B.
  apply (build_loop_invariant
           (fun s _ rest =>
              (open_len (parents s) + flat_len (siblings s) + count_slots rest <=
               open_len (parents st) + flat_len (siblings st) + count_slots pc)%nat)
           ) with (st' := st') (i := i) in B.
  - unfold count_slots in B at 1. simpl in B. lia.
  - clear. intros s j e rest s' H S1. apply build_step_len in S1.
    unfold count_slots in *. cbn [filter] in H.
    destruct (is_placeholder e); simpl in *; lia.
  - lia.
Qed.

Lemma count_slots_placeholder (pc : list entry) :
  existsb is_placeholder pc = true -> (count_slots pc < length pc)%nat.
Proof.
  unfold count_slots. induction pc as [|e pc IH]; [discriminate|].
  cbn [existsb filter]. pose proof (filter_length_le (fun e => negb (is_placeholder e)) pc).
  destruct (is_placeholder e); cbn [negb orb length]; [lia|].
  intros E. specialize (IH E). lia.
Qed.

(** C10, counterexample: a container that holds only a placeholder makes no
    node; [items] stays null, the array is not allocated and the move loop
    does not run. *)
Lemma placeholder_only_no_read :
  ~ placeholder_reads_unwritten [SP_PLAYLIST_TYPE_PLACEHOLDER].
Proof.
  intros H. destruct (H eq_refl eq_refl) as [_ [i R]]. discriminate R.
Qed.

(** C10, amended: for every balanced, fully loaded container that holds a
    placeholder and at least one loaded playlist or folder start,
    [flatten_list] writes fewer than [num_playlists] cells of [reorder], and
    the move pass reads the first cell that was never written. *)
Theorem placeholder_unwritten_read (pc : list entry) :
  fully_loaded pc = true ->
  balanced pc = true ->
  existsb is_placeholder pc = true ->
  existsb makes_node pc = true ->
  (length (target pc) < length pc)%nat /\
  returned (sort_playlists pc) = Fault (UninitialisedRead (length (target pc))).
Proof.
  intros FL BA PH MN.
  destruct (build_loop_balanced pc 0 (mk_builder [] [] 0) BA) as [st [B [P C]]].
  rewrite (count_not_loaded_fully pc FL) in C. cbn [not_loaded] in C.
  pose proof (build_loop_has_node pc 0 _ st B (or_introl MN)) as HN.
  pose proof (build_loop_len pc 0 _ st B) as LEN.
  cbn [parents siblings open_len] in LEN. change (flat_len []) with 0%nat in LEN.
  rewrite P in LEN, HN. cbn [open_len] in LEN.
  pose proof (count_slots_placeholder pc PH) as CS.
  assert (IT : items st = rev (siblings st)) by (unfold items; now rewrite P).
  assert (TL : length (target pc) = flat_len (siblings st)).
  { unfold target, build. rewrite B.
    rewrite (Permutation_length (flatten_sort_list_perm (items st))), IT.
    apply flat_len_rev. }
  assert (TE : target pc = _flatten_list (sort_list (items st)))
    by (unfold target, build; now rewrite B).
  split; [lia|].
  rewrite sort_playlists_on_trees_eq. unfold sort_playlists_on_trees.
  rewrite B, C. cbn [Z.gtb Z.compare].
  destruct (items st) as [|n0 ns] eqn:EI.
  - exfalso. destruct HN as [HN|HN]; [now apply HN|].
    apply HN. rewrite <- (rev_involutive (siblings st)), <- IT. reflexivity.
  - cbv zeta. unfold sp_playlistcontainer_num_playlists.
    rewrite flatten_list_malloc
      by first [apply sort_list_not_nil; congruence | rewrite <- TE; lia]. rewrite <- TE.
    destruct (length pc - length (target pc))%nat as [|m] eqn:D; [lia|].
    cbn [repeat].
    pose proof (move_loop_unwritten (target pc) (repeat None m) (length pc)
                  (length (target pc)) 0 (target pc) (length pc)
                  eq_refl eq_refl ltac:(lia) ltac:(lia)) as ML.
    destruct (move_loop (length pc) (map Some (target pc) ++ None :: repeat None m)
                (length pc) 0) as [t r].
    simpl in ML. subst r. reflexivity.
Qed.

Lemma placeholder_unwritten_read_witness :
  let pc := [SP_PLAYLIST_TYPE_PLAYLIST true "b"; SP_PLAYLIST_TYPE_PLACEHOLDER;
             SP_PLAYLIST_TYPE_PLAYLIST true "a"] in
  (length (target pc) < length pc)%nat /\
  returned (sort_playlists pc) = Fault (UninitialisedRead (length (target pc))).
Proof.
  apply placeholder_unwritten_read; reflexivity.
Defined.

(** ** Empty folders (C4, C7, C1) *)

(** C4 at a container that holds one empty folder: the folder node has no
    children, so [_flatten_list] writes its start position only; the position
    of the end marker is left out of the sequence. *)
Theorem empty_folder_end_not_written :
  balanced empty_folder = true /\
  fully_loaded empty_folder = true /\
  slots empty_folder = [0; 1] /\
  target empty_folder = [0] /\
  ~ Permutation (target empty_folder) (slots empty_folder).
Proof.
  repeat split; try reflexivity.
  intros P. apply Permutation_length in P. discriminate P.
Qed.

(** C7 at the same container: the node built for the folder records the end
    marker at position 1, and the flattened sequence does not hold that
    position at all, so it does not follow the folder's subtree. *)
Theorem empty_folder_end_not_after_subtree :
  build empty_folder =
    Ok (mk_builder [] [Node (mk_item 0 1 "A") []] 0) /\
  _flatten_list (sort_list [Node (mk_item 0 1 "A") []]) = [0] /\
  ~ In 1 (target empty_folder).
Proof.
  repeat split; try reflexivity.
  intros [H|[]]. discriminate H.
Qed.

(** C1 at a container with an empty folder: the end marker of the folder is
    not in the target, the playlist is moved to position 1, in front of the
    end marker, and the pass then reads the third cell of [reorder], which
    was never written.  The moved array is not the target. *)
Theorem empty_folder_moves_wrong :
  balanced empty_folder_then_playlist = true /\
  fully_loaded empty_folder_then_playlist = true /\
  placeholder_free empty_folder_then_playlist = true /\
  target empty_folder_then_playlist = [0; 2] /\
  sort_playlists empty_folder_then_playlist =
    mk_outcome [printf_reordering 3; printf_dot; printf_dot;
                sp_playlistcontainer_move_playlist 2 1]
               (Fault (UninitialisedRead 2)) /\
  apply_moves (moves_of (trace (sort_playlists empty_folder_then_playlist)))
    (original_order empty_folder_then_playlist) = Some [0; 2; 1] /\
  ~ moves_realise_target empty_folder_then_playlist.
Proof.
  repeat split; try reflexivity. intros H. discriminate H.
Qed.

(** ** Containers without empty folders: the flattening *)

Lemma positions_read_cons (parents : list (playlist_item * list node))
  (n : node) (siblings : list node) :
  positions_read parents (n :: siblings) =
  positions_read parents siblings ++ _flatten_node n.
Proof.
  destruct parents as [|[it before] up]; cbn [positions_read rev];
    rewrite flatten_list_app; unfold _flatten_list at 2; cbn [flat_map];
    rewrite app_nil_r.
  - reflexivity.
  - now rewrite <- app_assoc.
Qed.

(** In a fully loaded container without empty folders, every entry that is
    not a placeholder adds its position to the flattening. *)
Lemma build_loop_positions_read (pc : list entry) (i : nat) (st st' : builder)
  (opened : bool) :
  fully_loaded pc = true ->
  no_empty_folder_from opened pc = true ->
  (siblings st = [] -> parents st <> [] -> opened = true) ->
  build_loop pc i st = Ok st' ->
  positions_read (parents st') (siblings st') =
  positions_read (parents st) (siblings st) ++ slots_from i pc.
Proof.
  intros FL NE OP B.
  apply (build_loop_invariant
           (fun s j rest =>
              fully_loaded rest = true /\
              (exists o, no_empty_folder_from o rest = true /\
                         (siblings s = [] -> parents s <> [] -> o = true)) /\
              positions_read (parents s) (siblings s) ++ slots_from j rest =
              positions_read (parents st) (siblings st) ++ slots_from i pc)) in B.
  - destruct B as (_ & _ & E). now rewrite app_nil_r in E.
  - clear. intros s j e rest s' (FL & (o & NE & OP) & E) S1.
    unfold fully_loaded in *. cbn [forallb] in FL.
    apply andb_prop in FL. destruct FL as [FL1 FL].
    repeat split; [exact FL | |].
    + destruct e as [[|] nm | nm | | ]; cbn [build_step negb] in S1;
        try discriminate.
      * injection S1 as <-. exists false. split; [exact NE|]. discriminate.
      * injection S1 as <-. exists true. split; [exact NE|]. reflexivity.
      * destruct (parents s) as [|[it before] up]; [discriminate|].
        injection S1 as <-. exists false. cbn [no_empty_folder_from] in NE.
        apply andb_prop in NE. split; [apply NE|]. discriminate.
      * injection S1 as <-. exists o. split; [exact NE | exact OP].
    + rewrite <- E. destruct e as [[|] nm | nm | | ]; cbn [build_step negb] in S1;
        try discriminate; cbn [slots_from is_placeholder].
      * injection S1 as <-. cbn [parents siblings].
        rewrite positions_read_cons. cbn [_flatten_node create_playlist_item index].
        now rewrite <- app_assoc.
      * injection S1 as <-. cbn [parents siblings positions_read rev].
        cbn [create_playlist_item index]. unfold _flatten_list at 1. cbn [flat_map].
        now rewrite <- app_assoc.
      * destruct (parents s) as [|[it before] up] eqn:P; [discriminate|].
        injection S1 as <-. cbn [parents siblings positions_read].
        rewrite positions_read_cons.
        cbn [no_empty_folder_from] in NE. apply andb_prop in NE.
        destruct NE as [NO _]. destruct o; [discriminate|].
        destruct (rev (siblings s)) as [|r rs] eqn:R.
        { assert (siblings s = []) as S0.
          { rewrite <- (rev_involutive (siblings s)), R. reflexivity. }
          specialize (OP S0 ltac:(discriminate)). discriminate. }
        cbn [_flatten_node set_end_index index end_index]. unfold _flatten_list.
        generalize (flat_map _flatten_node (r :: rs)) as fm. intros fm.
        repeat (rewrite <- app_assoc; cbn [app]). reflexivity.
      * injection S1 as <-. reflexivity.
  - repeat split; try assumption. exists opened. split; assumption.
Qed.

(** On a balanced, fully loaded container without empty folders the forest
    built by the first loop flattens to the positions of the entries that
    are not placeholders, in their order. *)
Lemma flatten_built (pc : list entry) :
  balanced pc = true -> fully_loaded pc = true -> no_empty_folder pc = true ->
  _flatten_list (built pc) = slots pc.
Proof.
  intros BA FL NE.
  destruct (build_loop_balanced pc 0 (mk_builder [] [] 0) BA) as [st [B [P C]]].
  assert (O : siblings (mk_builder [] [] 0) = [] ->
               parents (mk_builder [] [] 0) <> [] -> false = true)
    by (intros _ H; exfalso; now apply H).
  pose proof (build_loop_positions_read pc 0 _ st false FL NE O B) as E.
  rewrite P in E. cbn [positions_read parents siblings rev] in E.
  unfold built, build. rewrite B. unfold items. rewrite P. exact E.
Qed.

(** Where no folder is empty the target is a permutation of the positions of
    the entries that are not placeholders. *)
Lemma target_permutation (pc : list entry) :
  balanced pc = true -> fully_loaded pc = true -> no_empty_folder pc = true ->
  Permutation (target pc) (slots pc).
Proof.
  intros BA FL NE. rewrite <- (flatten_built pc BA FL NE).
  unfold target, built. destruct (build pc) as [st|f]; [|reflexivity].
  apply flatten_sort_list_perm.
Qed.

(** For a node that has children, the flattening holds its start position,
    then the flattening of its children, then at once its end position. *)
Lemma flatten_brackets (n : node) (head : list node) :
  in_forest n head -> children n <> [] ->
  exists pre post,
    _flatten_list head =
    pre ++ index (item n) :: _flatten_list (children n)
        ++ end_index (item n) :: post.
Proof.
  intros I NE. induction I as [head H | m head H I IH].
  - apply in_split in H. destruct H as (l1 & l2 & ->).
    exists (_flatten_list l1), (_flatten_list l2).
    rewrite flatten_list_split. f_equal.
    destruct n as [it [|c cs]]; [now contradiction NE|].
    cbn [_flatten_node item children app]. unfold _flatten_list.
    now rewrite <- app_assoc.
  - destruct IH as (pre & post & E).
    apply in_split in H. destruct H as (l1 & l2 & ->).
    destruct m as [it ch]. cbn [children] in *.
    destruct ch as [|c cs]; [now destruct pre|].
    exists (_flatten_list l1 ++ index it :: pre),
           (post ++ end_index it :: _flatten_list l2).
    rewrite flatten_list_split. cbn [_flatten_node].
    fold (_flatten_list (c :: cs)). rewrite E.
    repeat (rewrite <- app_assoc; cbn [app]). reflexivity.
Qed.

(** ** Forests and containers *)

Lemma relabel_node_eq (k : nat) (it : playlist_item) (ch : list node) :
  relabel_node k (Node it ch) =
  Node (mk_item (Z.of_nat k)
                (match ch with
                 | [] => -1
                 | _ => Z.of_nat (S k + flat_len ch)
                 end)
                (name it))
       (relabel (S k) ch).
Proof.
  cbn [relabel_node]. f_equal.
Qed.

Lemma encode_app (l1 l2 : list node) : encode (l1 ++ l2) = encode l1 ++ encode l2.
Proof. unfold encode. apply flat_map_app. Qed.

Lemma entries_read_cons (parents : list (playlist_item * list node))
  (n : node) (siblings : list node) :
  entries_read parents (n :: siblings) =
  entries_read parents siblings ++ encode_node n.
Proof.
  destruct parents as [|[it before] up]; cbn [entries_read rev];
    rewrite encode_app; unfold encode at 2; cbn [flat_map];
    rewrite app_nil_r.
  - reflexivity.
  - now rewrite <- app_assoc.
Qed.

(** A container without unloaded playlists, placeholders and empty folders
    is read back from what the first loop builds of it. *)
Lemma build_loop_entries_read (pc : list entry) (i : nat) (st st' : builder)
  (opened : bool) :
  fully_loaded pc = true -> placeholder_free pc = true ->
  no_empty_folder_from opened pc = true ->
  (siblings st = [] -> parents st <> [] -> opened = true) ->
  build_loop pc i st = Ok st' ->
  entries_read (parents st') (siblings st') =
  entries_read (parents st) (siblings st) ++ pc.
Proof.
  intros FL PF NE OP B.
  apply (build_loop_invariant
           (fun s _ rest =>
              fully_loaded rest = true /\ placeholder_free rest = true /\
              (exists o, no_empty_folder_from o rest = true /\
                         (siblings s = [] -> parents s <> [] -> o = true)) /\
              entries_read (parents s) (siblings s) ++ rest =
              entries_read (parents st) (siblings st) ++ pc)) in B.
  - destruct B as (_ & _ & _ & E). now rewrite app_nil_r in E.
  - clear. intros s j e rest s' (FL & PF & (o & NE & OP) & E) S1.
    unfold fully_loaded, placeholder_free in *. cbn [forallb] in FL, PF.
    apply andb_prop in FL, PF. destruct FL as [FL1 FL], PF as [PF1 PF].
    repeat split; [exact FL | exact PF | |].
    + destruct e as [[|] nm | nm | | ]; cbn [build_step negb] in S1;
        try discriminate.
      * injection S1 as <-. exists false. split; [exact NE|]. discriminate.
      * injection S1 as <-. exists true. split; [exact NE|]. reflexivity.
      * destruct (parents s) as [|[it before] up]; [discriminate|].
        injection S1 as <-. exists false. cbn [no_empty_folder_from] in NE.
        apply andb_prop in NE. split; [apply NE|]. discriminate.
    + rewrite <- E. destruct e as [[|] nm | nm | | ]; cbn [build_step negb] in S1;
        try discriminate.
      * injection S1 as <-. cbn [parents siblings].
        rewrite entries_read_cons. cbn [encode_node create_playlist_item name].
        now rewrite <- app_assoc.
      * injection S1 as <-. cbn [parents siblings entries_read rev].
        cbn [create_playlist_item name]. unfold encode at 1. cbn [flat_map].
        now rewrite <- app_assoc.
      * destruct (parents s) as [|[it before] up] eqn:P; [discriminate|].
        injection S1 as <-. cbn [parents siblings entries_read].
        rewrite entries_read_cons.
        cbn [no_empty_folder_from] in NE. apply andb_prop in NE.
        destruct NE as [NO _]. destruct o; [discriminate|].
        destruct (rev (siblings s)) as [|r rs] eqn:R.
        { assert (siblings s = []) as S0.
          { rewrite <- (rev_involutive (siblings s)), R. reflexivity. }
          specialize (OP S0 ltac:(discriminate)). discriminate. }
        cbn [encode_node set_end_index name]. unfold encode.
        generalize (flat_map encode_node (r :: rs)) as fm. intros fm.
        rewrite <- !app_assoc. cbn [app]. rewrite <- !app_assoc. reflexivity.
  - repeat split; try assumption. exists opened. split; assumption.
Qed.

Lemma reads_back_chain (head : list node) :
  Forall reads_back_node head -> reads_back head.
Proof.
  intros F. induction F as [|c l Hc Hl IH]; intros k st rest.
  - cbn [encode flat_map relabel rev app]. change (flat_len []) with 0%nat.
    rewrite Nat.add_0_r. now destruct st.
  - unfold encode. cbn [flat_map]. rewrite <- app_assoc.
    rewrite (Hc k st). fold (encode l). rewrite IH. cbn [parents siblings not_loaded].
    rewrite flat_len_cons, Nat.add_assoc. cbn [relabel rev].
    now rewrite <- app_assoc.
Qed.

Lemma encode_node_reads_back (n : node) : reads_back_node n.
Proof.
  induction n as [it ch IH] using node_forall_ind.
  apply reads_back_chain in IH. intros k st rest.
  rewrite relabel_node_eq. destruct ch as [|c cs].
  - cbn [encode_node app build_loop build_step negb _flatten_node length relabel].
    now rewrite Nat.add_1_r.
  - remember (c :: cs) as ch eqn:Ech.
    assert (E : encode_node (Node it ch) =
                SP_PLAYLIST_TYPE_START_FOLDER (name it)
                :: encode ch ++ [SP_PLAYLIST_TYPE_END_FOLDER])
      by now subst ch.
    assert (L : length (_flatten_node (Node it ch)) = S (S (flat_len ch))).
    { subst ch. cbn [_flatten_node length]. rewrite length_app. unfold flat_len, _flatten_list.
      simpl. lia. }
    rewrite E, L. clear E L.
    cbn [app build_loop build_step]. rewrite <- app_assoc.
    rewrite IH. cbn [parents siblings not_loaded app build_loop build_step].
    rewrite app_nil_r, rev_involutive.
    replace (S k + flat_len ch)%nat with (S (k + flat_len ch)) by lia.
    replace (k + S (S (flat_len ch)))%nat with (S (S (k + flat_len ch))) by lia.
    subst ch. reflexivity.
Qed.

Lemma encode_reads_back (head : list node) : reads_back head.
Proof.
  apply reads_back_chain. apply Forall_forall. intros n _.
  apply encode_node_reads_back.
Qed.

Lemma encode_length (head : list node) : length (encode head) = flat_len head.
Proof.
  induction head as [head IH] using forest_ind.
  induction IH as [|n l Hn Hl IHl]; [reflexivity|].
  unfold encode in *. cbn [flat_map]. rewrite length_app, IHl, flat_len_cons.
  f_equal. destruct n as [it [|c cs]]; [reflexivity|].
  cbn [children] in Hn. cbn [encode_node _flatten_node length].
  rewrite !length_app. cbn [length]. unfold flat_len, _flatten_list in Hn. now rewrite Hn.
Qed.

Lemma length_flatten_encode_node (n : node) :
  length (encode_node n) = length (_flatten_node n).
Proof.
  pose proof (encode_length [n]) as E. unfold encode, flat_len, _flatten_list in E.
  cbn [flat_map] in E. now rewrite !app_nil_r in E.
Qed.

(** The flattening of a relabelled forest counts up from [k]. *)
Lemma flatten_relabel (head : list node) :
  forall k, _flatten_list (relabel k head) = map Z.of_nat (seq k (flat_len head)).
Proof.
  induction head as [head IH] using forest_ind.
  induction IH as [|n l Hn Hl IHl]; intros k; [reflexivity|].
  cbn [relabel]. unfold _flatten_list in *. cbn [flat_map].
  rewrite IHl, flat_len_cons, seq_app, map_app. f_equal.
  destruct n as [it ch]. rewrite relabel_node_eq. cbn [children] in Hn.
  destruct ch as [|c cs]; [reflexivity|].
  remember (c :: cs) as ch eqn:Ech.
  assert (R : relabel (S k) ch <> []) by (subst ch; discriminate).
  assert (L : length (_flatten_node (Node it ch)) = S (flat_len ch + 1)).
  { subst ch. cbn [_flatten_node length]. now rewrite length_app. }
  rewrite L. cbn [_flatten_node index end_index].
  destruct (relabel (S k) ch) as [|r rs] eqn:ER; [contradiction|].
  rewrite <- ER, Hn. cbn [seq map]. f_equal.
  rewrite seq_app, map_app. f_equal.
Qed.

(** What the first loop makes of a balanced container without unloaded
    playlists, placeholders and empty folders: a forest that stands for the
    container and carries the positions of its entries. *)
Lemma built_well_formed (pc : list entry) :
  balanced pc = true -> fully_loaded pc = true ->
  placeholder_free pc = true -> no_empty_folder pc = true ->
  build pc = Ok (mk_builder [] (rev (built pc)) 0) /\
  encode (built pc) = pc /\
  built pc = relabel 0 (built pc) /\
  flat_len (built pc) = length pc.
Proof.
  intros BA FL PF NE.
  destruct (build_loop_balanced pc 0 (mk_builder [] [] 0) BA) as [st [B [P C]]].
  rewrite (count_not_loaded_fully pc FL) in C. cbn [not_loaded] in C.
  assert (IT : built pc = rev (siblings st)).
  { unfold built, build. rewrite B. unfold items. now rewrite P. }
  assert (EN : encode (built pc) = pc).
  { assert (O : siblings (mk_builder [] [] 0) = [] ->
                 parents (mk_builder [] [] 0) <> [] -> false = true)
      by (intros _ H; exfalso; now apply H).
    pose proof (build_loop_entries_read pc 0 _ st false FL PF NE O B) as E.
    rewrite P in E. cbn [entries_read parents siblings rev] in E.
    now rewrite IT. }
  assert (ST : st = mk_builder [] (rev (built pc)) 0).
  { rewrite IT, rev_involutive. destruct st as [ps sb nl].
    cbn [parents siblings not_loaded] in P, C. subst ps. f_equal. lia. }
  pose proof (encode_reads_back (built pc) 0%nat (mk_builder [] [] 0) []) as RB.
  rewrite app_nil_r, EN in RB. cbn [build_loop parents siblings not_loaded] in RB.
  rewrite app_nil_r in RB. fold (build pc) in B. unfold build in B at 1.
  rewrite B in RB. injection RB as RB.
  repeat split.
  - unfold build. now rewrite B, ST.
  - exact EN.
  - rewrite ST in RB. injection RB as RB.
    apply (f_equal (@rev node)) in RB. now rewrite !rev_involutive in RB.
  - now rewrite <- encode_length, EN.
Qed.

Lemma labelled_flatten_node (pc : list entry) (n : node) :
  labelled pc n -> map (entry_of pc) (_flatten_node n) = encode_node n.
Proof.
  induction n as [it ch IH] using node_forall_ind. intros L.
  inversion L as [it' ch' E1 E2 F]; subst.
  destruct ch as [|c cs]; cbn [_flatten_node encode_node map]; [now rewrite E1|].
  rewrite E1, map_app. cbn [map]. rewrite E2 by discriminate. do 2 f_equal.
  remember (c :: cs) as ch. clear Heqch E1 E2 L.
  induction ch as [|x l IHl]; [reflexivity|].
  cbn [flat_map]. rewrite map_app.
  inversion IH; inversion F; subst. f_equal; auto.
Qed.

Lemma labelled_flatten (pc : list entry) (head : list node) :
  Forall (labelled pc) head ->
  map (entry_of pc) (_flatten_list head) = encode head.
Proof.
  intros F. induction F as [|n l Hn Hl IH]; [reflexivity|].
  unfold _flatten_list, encode in *. cbn [flat_map]. rewrite map_app, IH.
  now rewrite labelled_flatten_node.
Qed.

Lemma labelled_sort_children (pc : list entry) (n : node) :
  labelled pc n -> labelled pc (sort_children n).
Proof.
  induction n as [it ch IH] using node_forall_ind. intros L.
  inversion L as [it' ch' E1 E2 F]; subst.
  destruct ch as [|c cs]; [exact L|].
  cbn [sort_children].
  destruct (merge_sort (map sort_children (c :: cs))) as [|m ms] eqn:E.
  - apply merge_sort_nil in E. discriminate.
  - rewrite <- E. constructor.
    + rewrite E. exact E1.
    + intros _. apply E2. discriminate.
    + apply (Forall_perm _ (map sort_children (c :: cs)));
        [symmetry; apply merge_sort_perm|].
      apply Forall_map. rewrite Forall_forall in *. intros x Hx.
      apply IH; [exact Hx | now apply F].
Qed.

Lemma labelled_sort_list (pc : list entry) (head : list node) :
  Forall (labelled pc) head -> Forall (labelled pc) (sort_list head).
Proof.
  intros F. unfold sort_list.
  apply (Forall_perm _ (map sort_children head)); [symmetry; apply merge_sort_perm|].
  apply Forall_map. rewrite Forall_forall in *. intros x Hx.
  apply labelled_sort_children. now apply F.
Qed.

Lemma entry_of_middle (pre post : list entry) (e : entry) (k : nat) :
  length pre = k -> entry_of (pre ++ e :: post) (Z.of_nat k) = e.
Proof.
  intros <-. unfold entry_of. rewrite Nat2Z.id. apply nth_middle.
Qed.

Lemma labelled_relabel (head : list node) :
  forall (k : nat) (pre post : list entry),
    length pre = k ->
    Forall (labelled (pre ++ encode head ++ post)) (relabel k head).
Proof.
  induction head as [head IH] using forest_ind.
  induction IH as [|n l Hn Hl IHl]; intros k pre post Lp; [constructor|].
  cbn [relabel]. unfold encode. cbn [flat_map]. fold (encode l).
  constructor.
  - destruct n as [it ch]. rewrite relabel_node_eq. cbn [children] in Hn.
    rewrite <- app_assoc.
    destruct ch as [|c cs].
    + constructor; [|intros H; now contradiction H | constructor].
      cbn [index encode_node app]. now apply entry_of_middle.
    + remember (c :: cs) as ch eqn:Ech.
      assert (E : encode_node (Node it ch) =
                  SP_PLAYLIST_TYPE_START_FOLDER (name it)
                  :: encode ch ++ [SP_PLAYLIST_TYPE_END_FOLDER])
        by now subst ch.
      rewrite E. clear E.
      assert (R : relabel (S k) ch <> []) by (subst ch; discriminate).
      clear Ech.
      constructor.
      * cbn [index name app].
        destruct (relabel (S k) ch) as [|r rs]; [contradiction|].
        now apply entry_of_middle.
      * intros _. cbn [end_index app].
        replace (pre ++ SP_PLAYLIST_TYPE_START_FOLDER (name it)
                     :: (encode ch ++ [SP_PLAYLIST_TYPE_END_FOLDER]) ++ encode l ++ post)
          with ((pre ++ SP_PLAYLIST_TYPE_START_FOLDER (name it) :: encode ch)
                  ++ SP_PLAYLIST_TYPE_END_FOLDER :: encode l ++ post)
          by (repeat (rewrite <- app_assoc; cbn [app]); reflexivity).
        apply entry_of_middle. rewrite length_app. cbn [length].
        rewrite encode_length. lia.
      * specialize (Hn (S k) (pre ++ [SP_PLAYLIST_TYPE_START_FOLDER (name it)])
                       (SP_PLAYLIST_TYPE_END_FOLDER :: encode l ++ post)).
        rewrite <- !app_assoc in Hn. cbn [app] in *. rewrite <- !app_assoc.
        apply Hn. rewrite length_app. cbn [length]. lia.
  - specialize (IHl (k + length (_flatten_node n))%nat (pre ++ encode_node n) post).
    rewrite <- !app_assoc in *. apply IHl.
    rewrite length_app, length_flatten_encode_node. lia.
Qed.

(** ** One move on the array *)

Lemma assign_app {A : Type} (pre post : list A) (c x : A) :
  assign (pre ++ c :: post) (length pre) x = Some (pre ++ x :: post).
Proof.
  unfold assign. rewrite length_app. cbn [length].
  destruct (Nat.ltb_spec (length pre) (length pre + S (length post))); [|lia].
  now rewrite firstn_length_app, skipn_S_length_app.
Qed.

Lemma shift_up_spec {A : Type} (mid : list A) :
  forall (pre : list A) (y : A) (post : list A),
    shift_up (length mid) (pre ++ mid ++ y :: post) (length pre + length mid - 1) =
    Some (pre ++ hd y mid :: mid ++ post).
Proof.
  induction mid as [|z m IH] using rev_ind; intros pre y post.
  - reflexivity.
  - rewrite length_app. cbn [length]. rewrite Nat.add_1_r. cbn [shift_up].
    replace (length pre + S (length m) - 1)%nat with (length (pre ++ m))
      by (rewrite length_app; lia).
    replace (pre ++ (m ++ [z]) ++ y :: post) with ((pre ++ m) ++ z :: y :: post)
      by (repeat (rewrite <- app_assoc; cbn [app]); reflexivity).
    rewrite nth_error_app2, Nat.sub_diag by lia. cbn [nth_error].
    replace ((pre ++ m) ++ z :: y :: post) with ((pre ++ m ++ [z]) ++ y :: post)
      by (repeat (rewrite <- app_assoc; cbn [app]); reflexivity).
    replace (length (pre ++ m) + 1)%nat with (length (pre ++ m ++ [z]))
      by (rewrite !length_app; cbn [length]; lia).
    rewrite assign_app.
    replace ((pre ++ m ++ [z]) ++ z :: post) with (pre ++ m ++ z :: z :: post)
      by (repeat (rewrite <- app_assoc; cbn [app]); reflexivity).
    replace (length (pre ++ m) - 1)%nat with (length pre + length m - 1)%nat
      by (rewrite length_app; lia).
    rewrite IH. do 2 f_equal.
    replace (hd y (m ++ [z])) with (hd z m) by now destruct m.
    f_equal. now rewrite <- app_assoc.
Qed.

(** Moving an item towards the front takes it out of its place and puts it
    in at the destination, the items in between moving up by one. *)
Lemma move_playlist_up {A : Type} (pre mid post : list A) (x : A) :
  mid <> [] ->
  move_playlist (pre ++ mid ++ x :: post) (length pre + length mid) (length pre) =
  Some (pre ++ x :: mid ++ post).
Proof.
  intros NE. unfold move_playlist.
  assert (Lm : (0 < length mid)%nat) by (destruct mid; [contradiction | simpl; lia]).
  replace (nth_error (pre ++ mid ++ x :: post) (length pre + length mid))
    with (Some x).
  2:{ rewrite app_assoc, <- length_app, nth_error_app2, Nat.sub_diag by lia.
      reflexivity. }
  destruct (Nat.ltb_spec (length pre + length mid) (length pre)); [lia|].
  destruct (Nat.ltb_spec (length pre) (length pre + length mid)); [|lia].
  replace (length pre + length mid - length pre)%nat with (length mid) by lia.
  rewrite shift_up_spec. apply assign_app.
Qed.

Lemma moved_nth_between {A : Type} (pre mid post : list A) (x d : A) (k : nat) :
  (length pre <= k < length pre + length mid)%nat ->
  nth (S k) (pre ++ x :: mid ++ post) d = nth k (pre ++ mid ++ x :: post) d.
Proof.
  intros L.
  rewrite !app_nth2 by lia.
  replace (S k - length pre)%nat with (S (k - length pre)) by lia.
  cbn [nth]. now rewrite !app_nth1 by lia.
Qed.

Lemma moved_nth_after {A : Type} (pre mid post : list A) (x d : A) (k : nat) :
  (length pre + length mid < k)%nat ->
  nth k (pre ++ x :: mid ++ post) d = nth k (pre ++ mid ++ x :: post) d.
Proof.
  intros L.
  rewrite (app_nth2 pre) by lia. rewrite (app_nth2 pre) by lia.
  destruct (k - length pre)%nat as [|k'] eqn:E; [lia|].
  cbn [nth]. rewrite !app_nth2 by lia.
  destruct (S k' - length mid)%nat as [|k''] eqn:E2; [lia|].
  cbn [nth]. f_equal. lia.
Qed.

(** ** Containers without empty folders: the moves realise the target *)

Section MoveCorrectness.

(** The target order: a list without repetition of positions below its
    length. *)
Variable target_order : list Z.
Hypothesis target_nodup : NoDup target_order.

Lemma target_nth_inj (i j : nat) :
  (i < length target_order)%nat -> (j < length target_order)%nat ->
  nth i target_order 0 = nth j target_order 0 -> i = j.
Proof.
  intros Li Lj E. now apply (proj1 (NoDup_nth target_order 0) target_nodup).
Qed.

Lemma in_step_keep (i : nat) (w faux : list Z) :
  (i < length target_order)%nat ->
  in_step target_order i w faux -> Z.of_nat i = nth i w 0 -> in_step target_order (S i) w faux.
Proof.
  intros Li (Lw & Lf & F & H) E.
  destruct (H i ltac:(lia)) as [_ Hi]. rewrite <- E, Nat2Z.id in Hi.
  repeat split; try assumption.
  - rewrite (firstn_succ_nth faux 0), (firstn_succ_nth target_order 0) by lia.
    now rewrite F, Hi.
  - destruct (H j ltac:(lia)) as [[Lo _] Hj].
    destruct (Z.eq_dec (nth j w 0) (Z.of_nat i)) as [Ej|]; [|lia].
    rewrite Ej, Nat2Z.id, Hi in Hj.
    apply target_nth_inj in Hj; lia.
  - now destruct (H j ltac:(lia)) as [[_ Hi'] _].
  - now destruct (H j ltac:(lia)) as [_ Hj].
Qed.

Lemma in_step_move (i : nat) (w faux : list Z) :
  (i < length target_order)%nat ->
  in_step target_order i w faux -> Z.of_nat i <> nth i w 0 ->
  exists faux',
    move_playlist faux (Z.to_nat (nth i w 0)) i = Some faux' /\
    in_step target_order (S i) (recalculated w i) faux'.
Proof.
  intros Li (Lw & Lf & F & H) NE.
  destruct (H i ltac:(lia)) as [[Lo Hi] Hv].
  set (v := Z.to_nat (nth i w 0)) in *.
  assert (Ev : nth i w 0 = Z.of_nat v) by (unfold v; lia).
  assert (Lv : (i < v < length faux)%nat) by lia.
  destruct (split_at_two faux 0 i v Lv) as (pre & mid & post & E & Lp & Lm & Nm & Pf).
  exists (pre ++ nth v faux 0 :: mid ++ post). split.
  - rewrite E at 1. rewrite <- Lm, <- Lp. now apply move_playlist_up.
  - repeat split.
    + now rewrite recalculated_length.
    + pose proof (f_equal (@length Z) E) as LE.
      rewrite !length_app in LE. cbn [length] in LE.
      rewrite !length_app. cbn [length]. rewrite !length_app. lia.
    + rewrite (firstn_succ_nth target_order 0), <- F, <- Pf, <- Hv by lia.
      replace (S i) with (length (pre ++ [nth v faux 0]))
        by (rewrite length_app; cbn [length]; lia).
      replace (pre ++ nth v faux 0 :: mid ++ post)
        with ((pre ++ [nth v faux 0]) ++ mid ++ post)
        by (now rewrite <- app_assoc).
      apply firstn_length_app.
    + rewrite recalculated_nth by lia. destruct (H j ltac:(lia)) as [[Lj _] _].
      unfold bump. destruct (Z.ltb_spec (nth j w 0) (nth i w 0)); lia.
    + rewrite recalculated_nth by lia. destruct (H j ltac:(lia)) as [[_ Lj] _].
      unfold bump. destruct (Z.ltb_spec (nth j w 0) (nth i w 0)); lia.
    + rewrite recalculated_nth by lia.
      destruct (H j ltac:(lia)) as [[Lj Uj] Hj].
      assert (Nj : nth j w 0 <> nth i w 0).
      { intros Ej. rewrite Ej in Hj. fold v in Hj. rewrite Hv in Hj.
        apply target_nth_inj in Hj; lia. }
      rewrite <- Hj. rewrite E at 2.
      unfold bump. destruct (Z.ltb_spec (nth j w 0) (nth i w 0)).
      * replace (Z.to_nat (nth j w 0 + 1)) with (S (Z.to_nat (nth j w 0))) by lia.
        apply moved_nth_between. lia.
      * apply moved_nth_after. lia.
Qed.

Lemma moves_from_realise (n : nat) :
  forall (i : nat) (w faux : list Z),
    (i + n = length target_order)%nat -> in_step target_order i w faux ->
    apply_moves (moves_from n w i) faux = Some target_order.
Proof.
  induction n as [|n IH]; intros i w faux L S.
  - cbn [moves_from apply_moves]. destruct S as (_ & Lf & F & _).
    rewrite Nat.add_0_r in L. subst i.
    rewrite <- Lf, firstn_all in F. rewrite Lf, firstn_all in F. now rewrite F.
  - cbn [moves_from].
    destruct (Z.eqb_spec (Z.of_nat i) (nth i w 0)) as [E|NE].
    + apply IH; [lia|]. apply in_step_keep; [lia | exact S | exact E].
    + destruct (in_step_move i w faux ltac:(lia) S NE) as (faux' & M & S').
      cbn [apply_moves].
      destruct S as (_ & _ & _ & H). destruct (H i ltac:(lia)) as [[Lo _] _].
      destruct (Z.ltb_spec (nth i w 0) 0); [lia|].
      destruct (Z.ltb_spec (Z.of_nat i) 0); [lia|].
      cbn [orb]. rewrite Nat2Z.id, M. apply IH; [lia | exact S'].
Qed.

End MoveCorrectness.

Lemma slots_from_placeholder_free (pc : list entry) :
  forall i, placeholder_free pc = true ->
            slots_from i pc = map Z.of_nat (seq i (length pc)).
Proof.
  induction pc as [|e pc IH]; intros i PF; [reflexivity|].
  unfold placeholder_free in PF. cbn [forallb] in PF. apply andb_prop in PF.
  destruct PF as [P1 PF]. cbn [slots_from length seq map].
  destruct (is_placeholder e); [discriminate|]. f_equal. now apply IH.
Qed.

(** Where the flattening is complete, the moves do what C1 says: on a
    balanced, fully loaded container without placeholders and without empty
    folders the pass returns, and its moves, applied in order to the original
    order, give the target order. *)
Lemma moves_realise_target_without_empty_folder (pc : list entry) :
  balanced pc = true -> fully_loaded pc = true ->
  placeholder_free pc = true -> no_empty_folder pc = true ->
  returned (sort_playlists pc) = Ok 1 /\ moves_realise_target pc.
Proof.
  intros BA FL PF NE.
  destruct (built_well_formed pc BA FL PF NE) as (B & EN & RL & LEN).
  pose proof (target_permutation pc BA FL NE) as TP.
  unfold slots in TP. rewrite (slots_from_placeholder_free pc 0 PF) in TP.
  fold (original_order pc) in TP.
  assert (TL : length (target pc) = length pc).
  { rewrite (Permutation_length TP). unfold original_order.
    now rewrite length_map, length_seq. }
  assert (ND : NoDup (target pc)).
  { apply (Permutation_NoDup (Permutation_sym TP)). unfold original_order.
    apply Finite.Injective_map_NoDup; [intros x y; apply Nat2Z.inj | apply seq_NoDup]. }
  assert (S0 : in_step (target pc) 0 (target pc) (original_order pc)).
  { repeat split.
    - unfold original_order. now rewrite length_map, length_seq.
    - assert (I : In (nth j (target pc) 0) (original_order pc))
        by (apply (Permutation_in _ TP); apply nth_In; lia).
      unfold original_order in I. apply in_map_iff in I.
      destruct I as (x & <- & _). lia.
    - assert (I : In (nth j (target pc) 0) (original_order pc))
        by (apply (Permutation_in _ TP); apply nth_In; lia).
      unfold original_order in I. apply in_map_iff in I.
      destruct I as (x & <- & Hx). apply in_seq in Hx. lia.
    - assert (I : In (nth j (target pc) 0) (original_order pc))
        by (apply (Permutation_in _ TP); apply nth_In; lia).
      unfold original_order in *. apply in_map_iff in I.
      destruct I as (x & <- & Hx). apply in_seq in Hx.
      rewrite Nat2Z.id. change 0 with (Z.of_nat 0).
      rewrite map_nth, seq_nth by lia. reflexivity. }
  assert (TE : target pc = _flatten_list (sort_list (built pc))).
  { unfold target. rewrite B. unfold items. cbn [parents siblings items_of].
    now rewrite rev_involutive. }
  unfold moves_realise_target. rewrite sort_playlists_on_trees_eq.
  unfold sort_playlists_on_trees. fold (build pc). rewrite B.
  cbn [not_loaded Z.gtb Z.compare].
  replace (items (mk_builder [] (rev (built pc)) 0)) with (built pc)
    by (unfold items; cbn [parents siblings items_of]; now rewrite rev_involutive).
  destruct (built pc) as [|n0 ns] eqn:EB.
  - change (flat_len []) with 0%nat in LEN.
    destruct pc; [|discriminate]. split; reflexivity.
  - rewrite <- EB in *. cbv zeta. unfold sp_playlistcontainer_num_playlists.
    rewrite flatten_list_malloc
      by first [apply sort_list_not_nil; congruence | rewrite <- TE; lia].
    rewrite <- TE, TL, Nat.sub_diag. cbn [repeat]. rewrite app_nil_r.
    destruct (move_loop_moves_from (length pc) 0 (target pc) ltac:(lia))
      as (t & final & ML & M).
    rewrite TL in ML. rewrite ML. cbn [trace returned]. split; [reflexivity|].
    rewrite !moves_of_app. cbn [moves_of flat_map app]. rewrite app_nil_r.
    fold (moves_of t). rewrite M.
    apply (moves_from_realise (target pc) ND); [lia | exact S0].
Qed.

(** ** Chains without ties *)

Lemma no_ties_perm (l1 l2 : list node) :
  Permutation l1 l2 -> no_ties l1 = no_ties l2.
Proof.
  intros P. induction P as [|x l l' P IH|x y l|l l' l'' P1 IH1 P2 IH2];
    cbn [no_ties forallb]; try congruence.
  - now rewrite IH, (forallb_perm _ l l' P).
  - rewrite (strcmp_swap (name_of x) (name_of y)).
    replace (- strcmp (name_of x) (name_of y) =? 0)
      with (strcmp (name_of x) (name_of y) =? 0)
      by (destruct (Z.eqb_spec (strcmp (name_of x) (name_of y)) 0),
                   (Z.eqb_spec (- strcmp (name_of x) (name_of y)) 0); lia).
    destruct (strcmp (name_of x) (name_of y) =? 0); cbn [negb andb]; [reflexivity|].
    destruct (forallb _ l), (forallb _ l), (no_ties l); reflexivity.
Qed.

Lemma name_of_sort_children (n : node) : name_of (sort_children n) = name_of n.
Proof. now destruct n. Qed.

Lemma no_ties_names (l1 l2 : list node) :
  map name_of l1 = map name_of l2 -> no_ties l1 = no_ties l2.
Proof.
  revert l2; induction l1 as [|a l1 IH]; intros [|b l2] E; try discriminate;
    [reflexivity|].
  cbn [map] in E. injection E as Ea El. cbn [no_ties].
  rewrite (IH l2 El), Ea. f_equal.
  clear IH. revert l2 El. induction l1 as [|x l1 IH]; intros [|y l2] El;
    try discriminate; [reflexivity|].
  cbn [map] in El. injection El as Ex El. cbn [forallb].
  now rewrite Ex, (IH l2 El).
Qed.

Lemma distinct_below_children (n : node) :
  distinct_below n = distinct_names (children n).
Proof. now destruct n. Qed.

Lemma distinct_names_sort_list (head : list node) :
  distinct_names head = true -> distinct_names (sort_list head) = true.
Proof.
  induction head as [head IH] using forest_ind. unfold distinct_names.
  intros D. apply andb_prop in D. destruct D as [D1 D2].
  unfold sort_list.
  rewrite (no_ties_perm _ _ (merge_sort_perm (map sort_children head))).
  rewrite (forallb_perm _ _ _ (merge_sort_perm (map sort_children head))).
  rewrite (no_ties_names (map sort_children head) head)
    by (rewrite map_map; apply map_ext; apply name_of_sort_children).
  rewrite D1. cbn [andb].
  apply forallb_forall. intros x Hx. apply in_map_iff in Hx.
  destruct Hx as [n [<- Hn]].
  rewrite distinct_below_children, children_sort_children.
  rewrite Forall_forall in IH. apply (IH n Hn).
  rewrite <- distinct_below_children.
  rewrite forallb_forall in D2. now apply D2.
Qed.

Lemma sorted_no_ties_strict (head : list node) :
  Sorted name_le head -> no_ties head = true -> StronglySorted name_lt head.
Proof.
  intros S. apply Sorted_StronglySorted in S;
    [|intros x y z; apply strcmp_le_trans].
  induction S as [|a l S IH F]; intros T; [constructor|].
  cbn [no_ties] in T. apply andb_prop in T. destruct T as [T1 T2].
  constructor; [now apply IH|].
  rewrite forallb_forall in T1. rewrite Forall_forall in *.
  intros x Hx. specialize (F x Hx). specialize (T1 x Hx).
  unfold name_lt, name_le in *.
  destruct (Z.eqb_spec (strcmp (name_of a) (name_of x)) 0); [discriminate | lia].
Qed.

(** Sorted, a forest without ties has strictly increasing names in every
    chain. *)
Lemma levels_strict_sort_list (head : list node) :
  distinct_names head = true -> levels_strict (sort_list head).
Proof.
  induction head as [head IH] using forest_ind. intros D.
  pose proof (distinct_names_sort_list head D) as DS.
  unfold distinct_names in D, DS. apply andb_prop in D, DS.
  destruct D as [_ D2], DS as [DS1 _].
  constructor.
  - apply sorted_no_ties_strict; [apply merge_sort_sorted | exact DS1].
  - unfold sort_list.
    apply (Forall_perm _ (map sort_children head));
      [symmetry; apply merge_sort_perm|].
    apply Forall_map. apply Forall_forall. intros n Hn.
    rewrite Forall_forall in IH. rewrite children_sort_children.
    apply (IH n Hn). rewrite <- distinct_below_children.
    rewrite forallb_forall in D2. now apply D2.
Qed.

(** ** Sorting a strictly sorted forest *)

Lemma merge_app (l1 l2 : list node) :
  (forall x y, In x l1 -> In y l2 -> name_lt x y) ->
  merge l1 l2 = l1 ++ l2.
Proof.
  revert l2; induction l1 as [|a l1 IH]; intros l2 H.
  - apply merge_nil_l.
  - destruct l2 as [|b l2]; [now rewrite merge_nil_r, app_nil_r|].
    rewrite merge_cons.
    assert (Lt : name_lt a b) by (apply H; now left).
    unfold name_lt in Lt.
    destruct (Z.ltb_spec (strcmp (name_of a) (name_of b)) 0); [|lia].
    cbn [app]. f_equal. apply IH. intros x y Hx Hy. apply H; [now right | exact Hy].
Qed.

Lemma strongly_sorted_app (l1 l2 : list node) :
  StronglySorted name_lt (l1 ++ l2) ->
  StronglySorted name_lt l1 /\ StronglySorted name_lt l2 /\
  (forall x y, In x l1 -> In y l2 -> name_lt x y).
Proof.
  induction l1 as [|a l1 IH]; intros S.
  - repeat split; [constructor | exact S | intros x y []].
  - cbn [app] in S. apply StronglySorted_inv in S. destruct S as [S F].
    destruct (IH S) as (S1 & S2 & C).
    rewrite Forall_forall in F.
    repeat split.
    + constructor; [exact S1|]. apply Forall_forall. intros x Hx.
      apply F. apply in_or_app. now left.
    + exact S2.
    + intros x y [<-|Hx] Hy; [|now apply C].
      apply F. apply in_or_app. now right.
Qed.

Lemma merge_sort_strict (head : list node) :
  StronglySorted name_lt head -> merge_sort head = head.
Proof.
  funelim (merge_sort head); simp merge_sort; try reflexivity.
  intros S.
  assert (E : fst (split (a :: b :: rest)) ++ snd (split (a :: b :: rest)) =
              a :: b :: rest) by apply split_walk_app.
  rewrite <- E in S. destruct (strongly_sorted_app _ _ S) as (S1 & S2 & C).
  match goal with
  | H1 : StronglySorted _ (fst _) -> merge_sort (fst _) = _,
    H2 : StronglySorted _ (snd _) -> merge_sort (snd _) = _ |- _ =>
      rewrite (H1 S1), (H2 S2)
  end.
  rewrite merge_app by exact C. exact E.
Qed.

Lemma sort_list_strict (head : list node) :
  levels_strict head -> sort_list head = head.
Proof.
  induction head as [head IH] using forest_ind. intros LS.
  inversion LS as [h S F]; subst. unfold sort_list.
  assert (M : map sort_children head = head).
  { rewrite <- (map_id head) at 2. apply map_ext_in. intros n Hn.
    rewrite Forall_forall in IH, F.
    specialize (IH n Hn (F n Hn)). destruct n as [it ch]. cbn [children] in IH.
    cbn [sort_children]. f_equal. destruct ch as [|c cs]; [reflexivity | exact IH]. }
  rewrite M. now apply merge_sort_strict.
Qed.

Lemma relabel_names (head : list node) :
  forall k, map name_of (relabel k head) = map name_of head.
Proof.
  induction head as [|n l IH]; intros k; [reflexivity|].
  cbn [relabel map]. rewrite IH. f_equal.
  destruct n as [it ch]. now rewrite relabel_node_eq.
Qed.

Lemma strongly_sorted_names (l1 l2 : list node) :
  map name_of l1 = map name_of l2 ->
  StronglySorted name_lt l1 -> StronglySorted name_lt l2.
Proof.
  revert l2; induction l1 as [|a l1 IH]; intros [|b l2] E S; try discriminate;
    [constructor|].
  cbn [map] in E. injection E as Ea El.
  apply StronglySorted_inv in S. destruct S as [S F].
  constructor; [now apply IH|].
  clear IH S. revert l2 El. induction F as [|x l Hx F IH]; intros [|y l2] El;
    try discriminate; [constructor|].
  cbn [map] in El. injection El as Ex El.
  constructor; [|now apply IH].
  unfold name_lt in *. now rewrite <- Ea, <- Ex.
Qed.

Lemma levels_strict_relabel (head : list node) :
  forall k, levels_strict head -> levels_strict (relabel k head).
Proof.
  induction head as [head IH] using forest_ind. intros k LS.
  inversion LS as [h S F]; subst.
  constructor.
  - apply (strongly_sorted_names head); [symmetry; apply relabel_names | exact S].
  - clear S LS. revert k.
    induction IH as [|n l Hn Hl IHl]; intros k; [constructor|].
    inversion F; subst. cbn [relabel]. constructor; [|now apply IHl].
    destruct n as [it ch]. rewrite relabel_node_eq. cbn [children] in *.
    now apply Hn.
Qed.

(** ** Running the pass a second time (C3) *)

(** C3, counterexample: two playlists of the same name are swapped by every
    pass, so the second pass aims at [1; 0] again and emits a move. *)
Lemma second_pass_swaps_tie :
  let pc := [SP_PLAYLIST_TYPE_PLAYLIST true "a"; SP_PLAYLIST_TYPE_PLAYLIST true "a"] in
  balanced pc = true /\ fully_loaded pc = true /\
  target (reordered pc) = [1; 0] /\
  moves_of (trace (sort_playlists (reordered pc))) = [(1, 0)] /\
  ~ second_pass_idle pc.
Proof.
  repeat split. intros [H _]. discriminate H.
Qed.

(** C3, amended: for every balanced, fully loaded container without
    placeholders and without empty folders in which no two nodes of one
    child list (or of the root chain) have names that compare equal, the
    container put in the order of the first pass has the identity as its
    target, and the pass on it returns without emitting a move. *)
Theorem second_pass_identity (pc : list entry) :
  balanced pc = true -> fully_loaded pc = true ->
  placeholder_free pc = true -> no_empty_folder pc = true ->
  distinct_names (built pc) = true ->
  target (reordered pc) = map Z.of_nat (seq 0 (length (reordered pc))) /\
  moves_of (trace (sort_playlists (reordered pc))) = [] /\
  returned (sort_playlists (reordered pc)) = Ok 1.
Proof.
  intros BA FL PF NE DN.
  destruct (built_well_formed pc BA FL PF NE) as (B & EN & RL & LEN).
  set (sorted := sort_list (built pc)).
  assert (T : target pc = _flatten_list sorted).
  { unfold target. rewrite B. unfold items. cbn [parents siblings items_of].
    now rewrite rev_involutive. }
  assert (LB : Forall (labelled pc) sorted).
  { apply labelled_sort_list. rewrite RL.
    pose proof (labelled_relabel (built pc) 0 [] [] eq_refl) as L.
    cbn [app] in L. now rewrite app_nil_r, EN in L. }
  assert (R : reordered pc = encode sorted).
  { unfold reordered. rewrite T. now apply labelled_flatten. }
  assert (ST : levels_strict (relabel 0 sorted)).
  { apply levels_strict_relabel. now apply levels_strict_sort_list. }
  assert (B2 : build (reordered pc) = Ok (mk_builder [] (rev (relabel 0 sorted)) 0)).
  { pose proof (encode_reads_back sorted 0%nat (mk_builder [] [] 0) []) as RB.
    rewrite !app_nil_r in RB. unfold build. rewrite R. exact RB. }
  assert (I2 : items (mk_builder [] (rev (relabel 0 sorted)) 0) = relabel 0 sorted).
  { unfold items. cbn [parents siblings items_of]. apply rev_involutive. }
  assert (L2 : length (reordered pc) = flat_len sorted)
    by (rewrite R; apply encode_length).
  assert (T2 : target (reordered pc) = map Z.of_nat (seq 0 (length (reordered pc)))).
  { unfold target. rewrite B2, I2, (sort_list_strict _ ST), flatten_relabel.
    now rewrite L2. }
  split; [exact T2|].
  rewrite sort_playlists_on_trees_eq. unfold sort_playlists_on_trees.
  fold (build (reordered pc)). rewrite B2.
  cbn [not_loaded Z.gtb Z.compare]. rewrite I2.
  destruct (relabel 0 sorted) as [|r rs] eqn:ER; [split; reflexivity|].
  rewrite <- ER in *. cbv zeta. rewrite (sort_list_strict _ ST).
  unfold sp_playlistcontainer_num_playlists.
  rewrite flatten_list_malloc
    by first [congruence | rewrite flatten_relabel, length_map, length_seq; lia].
  rewrite flatten_relabel, length_map, length_seq, <- L2, Nat.sub_diag.
  cbn [repeat]. rewrite app_nil_r, move_loop_identity by lia.
  cbn [trace returned]. split; [|reflexivity].
  change (moves_of (repeat printf_dot (length (reordered pc)) ++ [printf_done]) = []).
  now rewrite moves_of_dots.
Qed.

Lemma second_pass_identity_witness :
  let pc := [SP_PLAYLIST_TYPE_PLAYLIST true "m";
             SP_PLAYLIST_TYPE_START_FOLDER "f";
             SP_PLAYLIST_TYPE_PLAYLIST true "z";
             SP_PLAYLIST_TYPE_PLAYLIST true "b";
             SP_PLAYLIST_TYPE_END_FOLDER;
             SP_PLAYLIST_TYPE_PLAYLIST true "a"] in
  target (reordered pc) = map Z.of_nat (seq 0 (length (reordered pc))) /\
  moves_of (trace (sort_playlists (reordered pc))) = [] /\
  returned (sort_playlists (reordered pc)) = Ok 1.
Proof.
  apply second_pass_identity; reflexivity.
Defined.

(** ** Further properties of the sorter *)

(** X1: [merge] of two chains that are sorted by name gives a chain that is
    sorted by name and holds the nodes of both, each as often as they hold
    it. *)
Theorem merge_sorted_permutation (head_one head_two : list node) :
  Sorted name_le head_one -> Sorted name_le head_two ->
  Sorted name_le (merge head_one head_two) /\
  Permutation (merge head_one head_two) (head_one ++ head_two).
Proof.
  intros S1 S2. split; [now apply merge_sorted | apply merge_perm].
Qed.

Lemma merge_sorted_permutation_witness :
  let head_one := [Node (create_playlist_item 0 "a") [];
                   Node (create_playlist_item 2 "c") []] in
  let head_two := [Node (create_playlist_item 1 "b") []] in
  Sorted name_le (merge head_one head_two) /\
  Permutation (merge head_one head_two) (head_one ++ head_two).
Proof.
  apply merge_sorted_permutation;
    repeat first [constructor | unfold name_le; simpl; lia].
Defined.

(** X2: [merge_sort] returns the nodes of its chain, each as often as the
    chain holds it: no node is lost and none is linked twice. *)
Theorem merge_sort_permutation (head : list node) :
  Permutation (merge_sort head) head /\ length (merge_sort head) = length head.
Proof.
  split; [apply merge_sort_perm | apply Permutation_length, merge_sort_perm].
Qed.

Lemma split_walk_snd_step (h x y : node) (next r : list node) :
  snd (split_walk (h :: next) (x :: y :: r)) =
  snd (split_walk next (tl (tl next))).
Proof.
  cbn [split_walk]. now destruct (split_walk next (tl (tl next))).
Qed.

Lemma split_walk_back_length (next : list node) :
  (2 <= length next)%nat ->
  length (snd (split_walk next (tl (tl next)))) =
  (if (length next =? 2)%nat then 1 else 2)%nat.
Proof.
  induction next as [|b next IH]; intros L; [simpl in L; lia|].
  destruct next as [|c [|d [|e next]]]; try reflexivity.
  - simpl in L. lia.
  - change (tl (tl (b :: c :: d :: e :: next))) with (d :: e :: next).
    rewrite split_walk_snd_step. rewrite IH by (simpl; lia). reflexivity.
Qed.

Lemma split_back_length (head : list node) :
  (2 <= length head)%nat ->
  length (snd (split head)) = (if (length head <=? 3)%nat then 1 else 2)%nat.
Proof.
  intros L.
  unfold split. destruct head as [|a [|b [|c next]]]; try (simpl in L; lia).
  - reflexivity.
  - change (tl (a :: b :: c :: next)) with (b :: c :: next).
    rewrite split_walk_snd_step.
    rewrite split_walk_back_length by (simpl; lia). now destruct next.
Qed.

(** X3: the cut of [merge_sort] is not a cut in the middle.  On a chain of
    two nodes or more the walk keeps the order of the nodes and leaves one
    node in the second part when the chain has two or three nodes, and two
    nodes however long the chain is otherwise. *)
Theorem merge_sort_cut (head : list node) :
  (2 <= length head)%nat ->
  fst (split head) ++ snd (split head) = head /\
  length (snd (split head)) = (if (length head <=? 3)%nat then 1 else 2)%nat.
Proof.
  intros L. split; [apply split_walk_app | now apply split_back_length].
Qed.

Lemma merge_sort_cut_witness :
  let head := map (fun i => Node (create_playlist_item i "x") []) [0; 1; 2; 3; 4; 5; 6] in
  fst (split head) ++ snd (split head) = head /\
  length (snd (split head)) = (if (length head <=? 3)%nat then 1 else 2)%nat.
Proof.
  apply merge_sort_cut. simpl. lia.
Defined.

Lemma merge_right_first (l1 l2 : list node) :
  (forall x y, In x l1 -> In y l2 -> name_ge x y) ->
  merge l1 l2 = l2 ++ l1.
Proof.
  intros H. destruct l1 as [|a l1]; [now rewrite merge_nil_l, app_nil_r|].
  induction l2 as [|b l2 IH]; [now rewrite merge_nil_r|].
  rewrite merge_cons.
  destruct (Z.ltb_spec (strcmp (name_of a) (name_of b)) 0) as [Lt|Ge].
  - specialize (H a b (or_introl eq_refl) (or_introl eq_refl)).
    unfold name_ge in H. lia.
  - cbn [app]. f_equal. apply IH. intros x y Hx Hy. apply H; [exact Hx | now right].
Qed.

Lemma strongly_sorted_ge_app (l1 l2 : list node) :
  StronglySorted name_ge (l1 ++ l2) ->
  StronglySorted name_ge l1 /\ StronglySorted name_ge l2 /\
  (forall x y, In x l1 -> In y l2 -> name_ge x y).
Proof.
  induction l1 as [|a l1 IH]; intros S.
  - repeat split; [constructor | exact S | intros x y []].
  - cbn [app] in S. inversion S as [|a' l' S' F]; subst.
    destruct (IH S') as (S1 & S2 & C).
    rewrite Forall_app in F. destruct F as [F1 F2].
    repeat split; [now constructor | exact S2 |].
    intros x y [<-|Hx] Hy; [|now apply C].
    rewrite Forall_forall in F2. now apply F2.
Qed.

(** X4: a chain whose names never increase from one node to the next, equal
    names included, comes out of [merge_sort] in the opposite order: nodes
    of the same name change places. *)
Theorem merge_sort_reverses (head : list node) :
  StronglySorted name_ge head -> merge_sort head = rev head.
Proof.
  funelim (merge_sort head); simp merge_sort; intros S; try reflexivity.
  pose proof (split_walk_app (a :: b :: rest) (tl (a :: b :: rest))) as E.
  fold (split (a :: b :: rest)) in E.
  rewrite <- E in S. apply strongly_sorted_ge_app in S.
  destruct S as (S1 & S2 & C).
  rewrite H by exact S1. rewrite H0 by exact S2.
  rewrite merge_right_first.
  - rewrite <- rev_app_distr. now rewrite E.
  - intros x y Hx Hy. apply C; now apply in_rev.
Qed.

Lemma merge_sort_reverses_witness :
  merge_sort descending_sample = rev descending_sample.
Proof.
  apply merge_sort_reverses.
  unfold descending_sample.
  repeat first [apply SSorted_nil | apply SSorted_cons | apply Forall_nil
               | apply Forall_cons | (unfold name_ge; simpl; lia)].
Defined.

(** X5: on a forest in which no two nodes of one chain have names that
    compare equal, [sort_list] is idempotent: sorting the sorted forest
    changes nothing. *)
Theorem sort_list_idempotent (head : list node) :
  distinct_names head = true ->
  sort_list (sort_list head) = sort_list head.
Proof.
  intros D. apply sort_list_strict. now apply levels_strict_sort_list.
Qed.

Lemma sort_list_idempotent_witness :
  let head := [Node (create_playlist_item 0 "m") [];
               Node (mk_item 1 4 "f")
                 [Node (create_playlist_item 2 "z") [];
                  Node (create_playlist_item 3 "b") []];
               Node (create_playlist_item 5 "a") []] in
  sort_list (sort_list head) = sort_list head.
Proof.
  apply sort_list_idempotent. reflexivity.
Defined.

Lemma flat_len_sort_list (head : list node) :
  flat_len (sort_list head) = flat_len head.
Proof. unfold flat_len. apply Permutation_length, flatten_sort_list_perm. Qed.

(** X6: sorting changes the order in which the positions are flattened, not
    the positions: the flattening of the sorted forest holds the same
    values, each as often, as the flattening of the forest. *)
Theorem flatten_sorted_permutation (head : list node) :
  Permutation (_flatten_list (sort_list head)) (_flatten_list head) /\
  flat_len (sort_list head) = flat_len head.
Proof.
  split; [apply flatten_sort_list_perm | apply flat_len_sort_list].
Qed.

(** ** Further properties of the [reorder] array *)

Lemma store_all_overflow (vals : list Z) :
  forall (pre cells : list cell),
    (length cells < length vals)%nat ->
    store_all (pre ++ cells) (length pre) vals =
    Fault (OutOfBounds (length pre + length cells)).
Proof.
  induction vals as [|v vals IH]; intros pre cells L; [simpl in L; lia|].
  cbn [store_all]. destruct cells as [|c cells].
  - unfold write. rewrite app_nil_r.
    destruct (Nat.ltb_spec (length pre) (length pre)); [lia|].
    cbn [length]. now rewrite Nat.add_0_r.
  - rewrite write_app_r.
    replace (pre ++ Some v :: cells) with ((pre ++ [Some v]) ++ cells)
      by (now rewrite <- app_assoc).
    replace (S (length pre)) with (length (pre ++ [Some v]))
      by (rewrite length_app; cbn [length]; lia).
    rewrite IH by (cbn [length] in L; lia).
    rewrite length_app. cbn [length]. do 2 f_equal. lia.
Qed.

Lemma flatten_list_stores (head : list node) (reorder : list cell) :
  head <> [] ->
  flatten_list head reorder =
  if (flat_len head <=? length reorder)%nat
  then Ok (map Some (_flatten_list head) ++ skipn (flat_len head) reorder)
  else Fault (OutOfBounds (length reorder)).
Proof.
  intros NE. rewrite (flatten_list_eq head reorder NE). unfold flat_len.
  destruct (Nat.leb_spec (length (_flatten_list head)) (length reorder)) as [Le|Gt].
  - apply (store_all_app (_flatten_list head) [] reorder Le).
  - apply (store_all_overflow (_flatten_list head) [] reorder Gt).
Qed.

Lemma recalculated_entry_nth (w : list Z) (size moved j : nat) :
  (moved < length w)%nat -> (size <= length w)%nat ->
  nth j (firstn moved w
         ++ map (bump (nth moved w 0)) (firstn (size - moved) (skipn moved w))
         ++ skipn (moved + (size - moved)) w) 0 =
  recalculated_entry w size moved j.
Proof.
  intros Lm Ls. unfold recalculated_entry.
  destruct (Nat.leb_spec moved j) as [Le|Gt]; cbn [andb].
  - rewrite app_nth2 by (rewrite length_firstn; lia).
    rewrite length_firstn, Nat.min_l by lia.
    destruct (Nat.ltb_spec j size) as [Lt|Ge]; cbn [andb].
    + rewrite app_nth1
        by (rewrite length_map, length_firstn, length_skipn; lia).
      rewrite (nth_indep _ 0 (bump (nth moved w 0) 0))
        by (rewrite length_map, length_firstn, length_skipn; lia).
      rewrite map_nth.
      replace (nth (j - moved) (firstn (size - moved) (skipn moved w)) 0)
        with (nth j w 0).
      * unfold bump. reflexivity.
      * rewrite nth_firstn.
        destruct (Nat.ltb_spec (j - moved) (size - moved)); [|lia].
        rewrite nth_skipn. f_equal. lia.
    + rewrite app_nth2
        by (rewrite length_map, length_firstn, length_skipn; lia).
      rewrite length_map, length_firstn, length_skipn, nth_skipn.
      destruct (Nat.le_gt_cases (length w) j) as [Out|In].
      * rewrite !nth_overflow by lia. reflexivity.
      * f_equal. lia.
  - rewrite app_nth1 by (rewrite length_firstn; lia).
    rewrite nth_firstn. destruct (Nat.ltb_spec j moved); [reflexivity | lia].
Qed.

(** X8: on an array whose cells all hold a value, [recalculate_indexes]
    keeps the length, leaves every entry before [moved], the entry at
    [moved] and every entry from [size] on as it is, and adds one to each
    entry from [moved] to [size - 1] that is smaller than the entry at
    [moved]. *)
Theorem recalculate_indexes_effect (w : list Z) (size moved : nat) :
  (moved < length w)%nat -> (size <= length w)%nat ->
  exists w',
    recalculate_indexes (map Some w) size moved = Ok (map Some w') /\
    length w' = length w /\
    nth moved w' 0 = nth moved w 0 /\
    forall j, nth j w' 0 = recalculated_entry w size moved j.
Proof.
  intros Lm Ls.
  exists (firstn moved w
          ++ map (bump (nth moved w 0)) (firstn (size - moved) (skipn moved w))
          ++ skipn (moved + (size - moved)) w).
  assert (N : forall j,
             nth j (firstn moved w
                    ++ map (bump (nth moved w 0)) (firstn (size - moved) (skipn moved w))
                    ++ skipn (moved + (size - moved)) w) 0 =
             recalculated_entry w size moved j)
    by (intros j; now apply recalculated_entry_nth).
  repeat split.
  - unfold recalculate_indexes. rewrite read_written by lia.
    pose proof (recalculate_loop_written (nth moved w 0)
                  (firstn (size - moved) (skipn moved w))
                  (map Some (firstn moved w))
                  (map Some (skipn (moved + (size - moved)) w)) 0) as R.
    rewrite length_firstn, length_skipn, length_map, length_firstn in R.
    rewrite !Nat.min_l, Nat.add_0_r in R by lia.
    assert (W : w = firstn moved w ++ firstn (size - moved) (skipn moved w)
                    ++ skipn (moved + (size - moved)) w).
    { rewrite <- (firstn_skipn moved w) at 1. f_equal.
      rewrite <- (firstn_skipn (size - moved) (skipn moved w)) at 1. f_equal.
      rewrite skipn_skipn. f_equal. lia. }
    rewrite W at 1. rewrite !map_app. rewrite R. cbn [recalculate_loop].
    reflexivity.
  - rewrite !length_app, length_map, !length_firstn, !length_skipn. lia.
  - rewrite N. unfold recalculated_entry. rewrite Z.ltb_irrefl.
    now rewrite andb_false_r.
  - exact N.
Qed.

Lemma recalculate_indexes_effect_witness :
  exists w',
    recalculate_indexes (map Some [4; 0; 3; 1; 2]) 5 2 = Ok (map Some w') /\
    length w' = length [4; 0; 3; 1; 2] /\
    nth 2 w' 0 = nth 2 [4; 0; 3; 1; 2] 0 /\
    forall j, nth j w' 0 = recalculated_entry [4; 0; 3; 1; 2] 5 2 j.
Proof.
  apply recalculate_indexes_effect; simpl; lia.
Defined.

(** ** Further properties of [move_playlist] *)

Lemma assign_length {A : Type} (faux faux' : list A) (i : nat) (x : A) :
  assign faux i x = Some faux' -> length faux' = length faux.
Proof.
  unfold assign. destruct (i <? length faux)%nat eqn:L; [|discriminate].
  apply Nat.ltb_lt in L.
  intros E. assert (E' : firstn i faux ++ x :: skipn (S i) faux = faux') by congruence.
  rewrite <- E', length_app, length_firstn.
  change (length (x :: skipn (S i) faux)) with (S (length (skipn (S i) faux))).
  rewrite (length_skipn (S i) faux). lia.
Qed.

Lemma last_indep {A : Type} (c : A) (l : list A) (d d' : A) :
  last (c :: l) d = last (c :: l) d'.
Proof.
  revert c; induction l as [|b l IH]; intros c; [reflexivity|]. apply (IH b).
Qed.

Lemma last_cons {A : Type} (m : A) (mid : list A) (x : A) :
  last (m :: mid) x = last mid m.
Proof.
  destruct mid as [|c mid]; [reflexivity|].
  change (last (m :: c :: mid) x) with (last (c :: mid) x). apply last_indep.
Qed.

Lemma shift_down_spec {A : Type} (mid : list A) :
  forall (pre : list A) (x : A) (post : list A),
    shift_down (length mid) (pre ++ x :: mid ++ post) (length pre + 1) =
    Some (pre ++ mid ++ last mid x :: post).
Proof.
  induction mid as [|m mid IH]; intros pre x post; [reflexivity|].
  cbn [length shift_down].
  replace (pre ++ x :: (m :: mid) ++ post) with ((pre ++ [x]) ++ m :: mid ++ post)
    by (now rewrite <- app_assoc).
  replace (length pre + 1)%nat with (length (pre ++ [x]))
    by (rewrite length_app; reflexivity).
  rewrite nth_error_app2, Nat.sub_diag by lia. cbn [nth_error].
  replace (length (pre ++ [x]) - 1)%nat with (length pre)
    by (rewrite length_app; cbn [length]; lia).
  rewrite <- app_assoc. cbn [app]. rewrite assign_app.
  replace (S (length (pre ++ [x]))) with (length (pre ++ [m]) + 1)%nat
    by (rewrite !length_app; cbn [length]; lia).
  replace (pre ++ m :: m :: mid ++ post) with ((pre ++ [m]) ++ m :: mid ++ post)
    by (now rewrite <- app_assoc).
  rewrite IH, <- app_assoc. cbn [app]. do 3 f_equal.
  now rewrite last_cons.
Qed.

Lemma shift_down_outside {A : Type} (n : nat) :
  forall (faux : list A) (i : nat),
    (1 <= i <= length faux)%nat -> (length faux < i + n)%nat ->
    shift_down n faux i = None.
Proof.
  induction n as [|n IH]; intros faux i Li Ln; [lia|].
  cbn [shift_down]. destruct (nth_error faux i) as [x|] eqn:E; [|reflexivity].
  assert (Lt : (i < length faux)%nat) by (apply nth_error_Some; congruence).
  destruct (assign faux (i - 1) x) as [faux'|] eqn:Ea; [|reflexivity].
  apply IH; rewrite (assign_length _ _ _ _ Ea); lia.
Qed.

(** Moving an item towards the back takes it out of its place and puts it
    in at the destination, the items in between moving down by one. *)
Lemma move_playlist_down {A : Type} (pre mid post : list A) (x : A) :
  move_playlist (pre ++ x :: mid ++ post) (length pre) (length pre + length mid) =
  Some (pre ++ mid ++ x :: post).
Proof.
  unfold move_playlist.
  rewrite nth_error_app2, Nat.sub_diag by lia. cbn [nth_error].
  destruct mid as [|m mid].
  - cbn [length app]. rewrite Nat.add_0_r, Nat.ltb_irrefl. apply assign_app.
  - destruct (Nat.ltb_spec (length pre) (length pre + length (m :: mid)));
      [|cbn [length] in *; lia].
    replace (length pre + length (m :: mid) - length pre)%nat
      with (length (m :: mid)) by lia.
    rewrite shift_down_spec.
    replace (pre ++ (m :: mid) ++ last (m :: mid) x :: post)
      with ((pre ++ m :: mid) ++ last (m :: mid) x :: post)
      by (now rewrite <- app_assoc).
    rewrite <- length_app, assign_app. now rewrite <- app_assoc.
Qed.

Lemma cut_at {A : Type} (l : list A) (i : nat) (x : A) :
  nth_error l i = Some x -> l = firstn i l ++ x :: skipn (S i) l.
Proof.
  revert i; induction l as [|a l IH]; intros i E; [now destruct i|].
  destruct i as [|i]; cbn [nth_error] in E.
  - now injection E as ->.
  - cbn [firstn skipn app]. f_equal. now apply IH.
Qed.

Lemma cut_lengths {A : Type} (l : list A) (i : nat) :
  (i <= length l)%nat -> length (firstn i l) = i.
Proof. intros L. rewrite length_firstn. lia. Qed.

Lemma cut_back {A : Type} (l : list A) (i v : nat) (x : A) :
  nth_error l i = Some x -> (i <= v < length l)%nat ->
  exists pre mid post,
    l = pre ++ x :: mid ++ post /\ i = length pre /\
    v = (length pre + length mid)%nat.
Proof.
  intros E L. pose proof (cut_at l i x E) as C.
  exists (firstn i l), (firstn (v - i) (skipn (S i) l)),
         (skipn (v - i) (skipn (S i) l)).
  rewrite firstn_skipn. split; [exact C|].
  rewrite cut_lengths by lia. split; [reflexivity|].
  rewrite cut_lengths by (rewrite length_skipn; lia). lia.
Qed.

Lemma cut_front {A : Type} (l : list A) (i v : nat) (x : A) :
  nth_error l v = Some x -> (i <= v)%nat ->
  exists pre mid post,
    l = pre ++ mid ++ x :: post /\ i = length pre /\
    v = (length pre + length mid)%nat.
Proof.
  intros E L. pose proof (cut_at l v x E) as C.
  assert (Lv : (v < length l)%nat) by (apply nth_error_Some; congruence).
  exists (firstn i (firstn v l)), (skipn i (firstn v l)), (skipn (S v) l).
  rewrite app_assoc, firstn_skipn. split; [exact C|].
  rewrite cut_lengths by (rewrite length_firstn; lia). split; [reflexivity|].
  rewrite length_skipn, length_firstn. lia.
Qed.

Lemma remove_at_app {A : Type} (pre post : list A) (x : A) :
  remove_at (length pre) (pre ++ x :: post) = pre ++ post.
Proof.
  unfold remove_at. now rewrite firstn_length_app, skipn_S_length_app.
Qed.

Lemma insert_at_app {A : Type} (pre post : list A) (x : A) :
  insert_at (length pre) x (pre ++ post) = pre ++ x :: post.
Proof.
  unfold insert_at.
  now rewrite firstn_length_app, skipn_app, Nat.sub_diag, skipn_all.
Qed.

(** X9: [move_playlist] is the remove-then-reinsert move.  With both
    positions inside the array it takes the item at [from_index] out and
    puts it in at [to_index] of what is left; with a position outside the
    array it reads or writes outside it. *)
Theorem move_playlist_remove_insert {A : Type} (faux : list A)
  (from_index to_index : nat) :
  move_playlist faux from_index to_index =
  match nth_error faux from_index with
  | Some it =>
      if (to_index <? length faux)%nat
      then Some (insert_at to_index it (remove_at from_index faux))
      else None
  | None => None
  end.
Proof.
  destruct (nth_error faux from_index) as [it|] eqn:E;
    [|unfold move_playlist; now rewrite E].
  assert (Lf : (from_index < length faux)%nat) by (apply nth_error_Some; congruence).
  destruct (Nat.ltb_spec to_index (length faux)) as [Lt|Ge].
  - destruct (Nat.le_gt_cases from_index to_index) as [Lo|Hi].
    + (* towards the back, or to its own place *)
      destruct (cut_back faux from_index to_index it E ltac:(lia))
        as (pre & mid & post & -> & -> & ->).
      rewrite move_playlist_down, remove_at_app. f_equal.
      rewrite <- length_app, (app_assoc pre mid post), insert_at_app.
      now rewrite <- app_assoc.
    + (* towards the front *)
      destruct (cut_front faux to_index from_index it E ltac:(lia))
        as (pre & mid & post & -> & -> & ->).
      rewrite move_playlist_up
        by (intros ->; cbn [length] in Hi; lia).
      f_equal. rewrite <- length_app, (app_assoc pre mid (it :: post)).
      rewrite remove_at_app, <- app_assoc. now rewrite insert_at_app.
  - (* the destination is outside the array *)
    unfold move_playlist. rewrite E.
    destruct (Nat.ltb_spec from_index to_index); [|lia].
    now rewrite shift_down_outside by lia.
Qed.

(** X10: with both positions inside the array, moving an item and moving it
    back from where it went gives the array back, and the array in between
    holds the same items. *)
Theorem move_playlist_round_trip {A : Type} (faux : list A)
  (from_index to_index : nat) :
  (from_index < length faux)%nat -> (to_index < length faux)%nat ->
  exists faux',
    move_playlist faux from_index to_index = Some faux' /\
    move_playlist faux' to_index from_index = Some faux /\
    Permutation faux faux'.
Proof.
  intros Lf Lt.
  destruct (nth_error faux from_index) as [it|] eqn:E;
    [|apply nth_error_None in E; lia].
  destruct (Nat.lt_trichotomy from_index to_index) as [Lo|[Eq|Hi]].
  - destruct (cut_back faux from_index to_index it E ltac:(lia))
      as (pre & mid & post & -> & -> & ->).
    exists (pre ++ mid ++ it :: post). repeat split.
    + apply move_playlist_down.
    + apply move_playlist_up. intros ->. cbn [length] in Lo. lia.
    + apply Permutation_app_head. apply Permutation_middle.
  - subst to_index.
    destruct (cut_back faux from_index from_index it E ltac:(lia))
      as (pre & mid & post & -> & -> & Lm).
    assert (mid = []) as -> by (destruct mid; [reflexivity | cbn [length] in Lm; lia]).
    exists (pre ++ it :: [] ++ post).
    assert (M : move_playlist (pre ++ it :: [] ++ post) (length pre) (length pre) =
                Some (pre ++ it :: [] ++ post)).
    { pose proof (move_playlist_down pre [] post it) as M.
      cbn [length app] in *. now rewrite Nat.add_0_r in M. }
    repeat split; [exact M | exact M | reflexivity].
  - destruct (cut_front faux to_index from_index it E ltac:(lia))
      as (pre & mid & post & -> & -> & ->).
    exists (pre ++ it :: mid ++ post). repeat split.
    + apply move_playlist_up. intros ->. cbn [length] in Hi. lia.
    + apply move_playlist_down.
    + apply Permutation_app_head. symmetry. apply Permutation_middle.
Qed.

Lemma move_playlist_round_trip_witness :
  exists faux',
    move_playlist ["a"; "b"; "c"; "d"; "e"]%string 1 3 = Some faux' /\
    move_playlist faux' 3 1 = Some ["a"; "b"; "c"; "d"; "e"]%string /\
    Permutation ["a"; "b"; "c"; "d"; "e"]%string faux'.
Proof.
  apply move_playlist_round_trip; simpl; lia.
Defined.

(** ** Further properties of [create_node] and of the first loop *)

Lemma poke_length (m : memory) (p : nat) (f : s_node -> s_node) :
  length (poke m p f) = length m.
Proof.
  unfold poke. destruct (nth_error m p) as [r|] eqn:E; [|reflexivity].
  assert (L : (p < length m)%nat) by (apply nth_error_Some; congruence).
  rewrite length_app. cbn [length]. rewrite length_firstn, length_skipn. lia.
Qed.

Lemma nth_error_poke (m : memory) (p a : nat) (f : s_node -> s_node) :
  nth_error (poke m p f) a =
  if (a =? p)%nat then option_map f (nth_error m a) else nth_error m a.
Proof.
  unfold poke. destruct (nth_error m p) as [r|] eqn:E.
  - assert (L : (p < length m)%nat) by (apply nth_error_Some; congruence).
    pose proof (cut_at m p r E) as C.
    destruct (Nat.eqb_spec a p) as [->|N].
    + rewrite E. cbn [option_map].
      rewrite nth_error_app2 by (rewrite length_firstn; lia).
      rewrite length_firstn, Nat.min_l, Nat.sub_diag by lia. reflexivity.
    + rewrite C at 3.
      destruct (Nat.lt_ge_cases a p) as [Lt|Ge].
      * rewrite !nth_error_app1 by (rewrite length_firstn; lia). reflexivity.
      * rewrite !nth_error_app2 by (rewrite length_firstn; lia).
        rewrite length_firstn, Nat.min_l by lia.
        destruct (a - p)%nat as [|k] eqn:K; [lia | reflexivity].
  - destruct (Nat.eqb_spec a p) as [->|N]; [now rewrite E | reflexivity].
Qed.

(** X11: [create_node] puts the new record behind the records there are and
    returns its address; the record has the item and the parent it was
    given and no [next] and no [children].  Of a record that was there
    before, it never changes the item or the parent; it sets [next] of
    [previous] only, and [children] of [parent] only when that is null. *)
Theorem create_node_frame (m : memory) (previous parent : option nat)
  (it : playlist_item) :
  valid_in m previous -> valid_in m parent ->
  snd (create_node m previous parent it) = length m /\
  length (fst (create_node m previous parent it)) = S (length m) /\
  nth_error (fst (create_node m previous parent it)) (length m) =
    Some (mk_s_node None None parent it) /\
  forall a r, nth_error m a = Some r ->
    nth_error (fst (create_node m previous parent it)) a =
    Some (mk_s_node
            (if points_to previous a then Some (length m) else p_next r)
            (if points_to parent a
             then match p_children r with
                  | None => Some (length m)
                  | c => c
                  end
             else p_children r)
            (p_parent r) (p_item r)).
Proof.
  intros Vp Vq. unfold create_node. cbn [fst snd].
  set (new_rec := mk_s_node None None parent it).
  set (set_next := fun n => mk_s_node (Some (length m)) (p_children n) (p_parent n)
                              (p_item n)).
  set (set_children := fun n => mk_s_node (p_next n) (Some (length m)) (p_parent n)
                                  (p_item n)).
  set (mem2 := match previous with
               | Some p => poke (m ++ [new_rec]) p set_next
               | None => m ++ [new_rec]
               end).
  assert (L2 : length mem2 = S (length m)).
  { unfold mem2. destruct previous; [rewrite poke_length|];
      rewrite length_app; cbn [length]; lia. }
  assert (N2 : forall a, nth_error mem2 a =
                 if points_to previous a
                 then option_map set_next (nth_error (m ++ [new_rec]) a)
                 else nth_error (m ++ [new_rec]) a).
  { intros a. unfold mem2, points_to. destruct previous as [p|]; [|reflexivity].
    rewrite nth_error_poke. now rewrite Nat.eqb_sym. }
  set (mem3 := match parent with
               | Some q =>
                   match option_map p_children (nth_error mem2 q) with
                   | Some None => poke mem2 q set_children
                   | _ => mem2
                   end
               | None => mem2
               end).
  assert (L3 : length mem3 = S (length m)).
  { unfold mem3. destruct parent as [q|]; [|exact L2].
    destruct (option_map p_children (nth_error mem2 q)) as [[c|]|];
      [exact L2 | now rewrite poke_length | exact L2]. }
  assert (N3 : forall a, nth_error mem3 a =
                 if points_to parent a
                 then match option_map p_children (nth_error mem2 a) with
                      | Some None => option_map set_children (nth_error mem2 a)
                      | _ => nth_error mem2 a
                      end
                 else nth_error mem2 a).
  { intros a. unfold mem3, points_to. destruct parent as [q|]; [|reflexivity].
    destruct (Nat.eqb_spec q a) as [->|Nq].
    - destruct (option_map p_children (nth_error mem2 a)) as [[c|]|];
        [reflexivity | | reflexivity].
      now rewrite nth_error_poke, Nat.eqb_refl.
    - destruct (option_map p_children (nth_error mem2 q)) as [[c|]|];
        [reflexivity | | reflexivity].
      rewrite nth_error_poke. destruct (Nat.eqb_spec a q); [congruence | reflexivity]. }
  repeat split; [exact L3 | |].
  - rewrite N3, N2.
    assert (Fp : points_to previous (length m) = false).
    { unfold points_to. destruct previous as [p|]; [|reflexivity].
      specialize (Vp p eq_refl). apply Nat.eqb_neq. lia. }
    assert (Fq : points_to parent (length m) = false).
    { unfold points_to. destruct parent as [q|]; [|reflexivity].
      specialize (Vq q eq_refl). apply Nat.eqb_neq. lia. }
    rewrite Fp, Fq. now rewrite nth_error_app2, Nat.sub_diag by lia.
  - intros a r E.
    assert (La : (a < length m)%nat) by (apply nth_error_Some; congruence).
    rewrite N3, N2, nth_error_app1, E by lia. cbn [option_map].
    destruct (points_to previous a), (points_to parent a);
      cbn [option_map set_next set_children p_children p_next p_parent p_item];
      try reflexivity; destruct r as [nx [c|] pa i]; reflexivity.
Qed.

Lemma create_node_frame_witness :
  let m := [mk_s_node None None None (create_playlist_item 0 "f")] in
  snd (create_node m None (Some 0%nat) (create_playlist_item 1 "a")) = length m /\
  length (fst (create_node m None (Some 0%nat) (create_playlist_item 1 "a"))) =
    S (length m) /\
  nth_error (fst (create_node m None (Some 0%nat) (create_playlist_item 1 "a")))
    (length m) =
    Some (mk_s_node None None (Some 0%nat) (create_playlist_item 1 "a")) /\
  forall a r, nth_error m a = Some r ->
    nth_error (fst (create_node m None (Some 0%nat) (create_playlist_item 1 "a"))) a =
    Some (mk_s_node
            (if points_to None a then Some (length m) else p_next r)
            (if points_to (Some 0%nat) a
             then match p_children r with
                  | None => Some (length m)
                  | c => c
                  end
             else p_children r)
            (p_parent r) (p_item r)).
Proof.
  apply create_node_frame; intros a E; [discriminate|].
  injection E as <-. simpl. lia.
Defined.

Lemma create_node_length (m : memory) (previous parent : option nat)
  (it : playlist_item) :
  length (fst (create_node m previous parent it)) = S (length m) /\
  snd (create_node m previous parent it) = length m.
Proof.
  unfold create_node. cbn [fst snd]. split; [|reflexivity].
  assert (L2 : forall f,
             length (match previous with
                     | Some p => poke (m ++ [mk_s_node None None parent it]) p f
                     | None => m ++ [mk_s_node None None parent it]
                     end) = S (length m)).
  { intros f. destruct previous; [rewrite poke_length|];
      rewrite length_app; cbn [length]; lia. }
  destruct parent as [q|]; [|apply L2].
  match goal with
  | |- context [option_map p_children ?x] =>
      destruct (option_map p_children x) as [[c|]|]
  end; [apply L2 | rewrite poke_length; apply L2 | apply L2].
Qed.

Lemma first_loop_step_nodes (s s' : locals) (i : nat) (e : entry) :
  first_loop_step s i e = Ok s' ->
  length (mem s') = (length (mem s) + if makes_node e then 1 else 0)%nat /\
  l_items s' = match l_items s with
               | None => if makes_node e then Some (length (mem s)) else None
               | x => x
               end.
Proof.
  destruct e as [[|] nm | nm | | ]; cbn [first_loop_step negb makes_node].
  - pose proof (create_node_length (mem s) (l_previous s) (l_parent s)
                  (create_playlist_item (Z.of_nat i) nm)) as [L N].
    destruct (create_node (mem s) (l_previous s) (l_parent s)
                (create_playlist_item (Z.of_nat i) nm)) as [m n].
    cbn [fst snd] in L, N. intros [= <-]. cbn [mem l_items]. subst n.
    split; [lia | now destruct (l_items s)].
  - intros [= <-]. cbn [mem l_items]. split; [lia | now destruct (l_items s)].
  - pose proof (create_node_length (mem s) (l_previous s) (l_parent s)
                  (create_playlist_item (Z.of_nat i) nm)) as [L N].
    destruct (create_node (mem s) (l_previous s) (l_parent s)
                (create_playlist_item (Z.of_nat i) nm)) as [m n].
    cbn [fst snd] in L, N. intros [= <-]. cbn [mem l_items]. subst n.
    split; [lia | now destruct (l_items s)].
  - destruct (l_parent s) as [p|]; [|discriminate].
    destruct (nth_error (mem s) p) as [r|]; [|discriminate].
    intros [= <-]. cbn [mem l_items]. rewrite poke_length.
    split; [lia | now destruct (l_items s)].
  - intros [= <-]. split; [lia | now destruct (l_items s)].
Qed.

Lemma first_loop_nodes (pc : list entry) :
  forall (i : nat) (s s' : locals),
    (l_items s = None <-> mem s = []) ->
    (forall a, l_items s = Some a -> a = 0%nat) ->
    first_loop pc i s = Ok s' ->
    length (mem s') = (length (mem s) + length (filter makes_node pc))%nat /\
    (l_items s' = None <-> mem s' = []) /\
    (forall a, l_items s' = Some a -> a = 0%nat).
Proof.
  induction pc as [|e pc IH]; intros i s s' I Z E.
  - cbn [first_loop] in E. injection E as <-. cbn [filter length].
    split; [lia | split; assumption].
  - cbn [first_loop] in E.
    destruct (first_loop_step s i e) as [s1|f] eqn:E1; [|discriminate].
    destruct (first_loop_step_nodes s s1 i e E1) as [L1 I1].
    assert (I' : l_items s1 = None <-> mem s1 = []).
    { rewrite I1. destruct (l_items s) as [a|] eqn:Ei.
      - split; [discriminate|]. intros M. rewrite M in L1. cbn [length] in L1.
        assert (Em : mem s = []) by (apply length_zero_iff_nil; lia).
        apply I in Em. congruence.
      - destruct (makes_node e).
        + split; [discriminate|]. intros M. rewrite M in L1.
          cbn [length] in L1. lia.
        + split; [|reflexivity]. intros _.
          assert (M : mem s = []) by now apply I.
          rewrite M in L1. cbn [length] in L1.
          destruct (mem s1); [reflexivity | cbn [length] in L1; lia]. }
    assert (Z' : forall a, l_items s1 = Some a -> a = 0%nat).
    { intros a. rewrite I1. destruct (l_items s) as [b|] eqn:Ei.
      - intros [= <-]. now apply Z.
      - destruct (makes_node e); [|discriminate]. intros [= <-].
        assert (M : mem s = []) by now apply I. now rewrite M. }
    destruct (IH (S i) s1 s' I' Z' E) as (L & I2 & Z2).
    split; [|split; assumption].
    rewrite L, L1. cbn [filter]. destruct (makes_node e); cbn [length]; lia.
Qed.

(** X12: when every end marker closes a folder that is open, the first loop
    of [sort_playlists] runs to its end: it has counted the playlists that
    are not loaded, it has allocated one node for each loaded playlist and
    each folder start and none for any other entry, and [items] is null
    when no node was allocated and points to the first node otherwise. *)
Theorem first_loop_completes (pc : list entry) :
  ends_matched 0 pc = true ->
  exists s,
    first_loop pc 0 (mk_locals [] None None None 0) = Ok s /\
    l_not_loaded s = count_not_loaded pc /\
    length (mem s) = length (filter makes_node pc) /\
    l_items s = (if existsb makes_node pc then Some 0%nat else None).
Proof.
  intros M.
  destruct (build_loop_matched pc 0 (mk_builder [] [] 0) M) as (st & B & C).
  assert (R0 : stands_for (mk_locals [] None None None 0) (mk_builder [] [] 0))
    by (repeat split).
  pose proof (first_loop_agrees pc 0 _ _ R0) as A. rewrite B in A.
  destruct (first_loop pc 0 (mk_locals [] None None None 0)) as [s|f] eqn:E;
    cbn [results_agree] in A; [|contradiction].
  exists s. destruct A as (_ & _ & _ & _ & N).
  destruct (first_loop_nodes pc 0 (mk_locals [] None None None 0) s) as (L & I & Z);
    [split; reflexivity | discriminate | exact E |].
  cbn [mem length] in L. repeat split; [rewrite N, C; cbn [not_loaded]; lia | exact L |].
  destruct (existsb makes_node pc) eqn:X.
  - destruct (l_items s) as [a|] eqn:Ei; [now rewrite (Z a eq_refl)|].
    assert (Em : mem s = []) by now apply I.
    rewrite Em in L. cbn [length] in L.
    apply existsb_exists in X. destruct X as (e & He & Me).
    assert (F : In e (filter makes_node pc)) by (apply filter_In; now split).
    destruct (filter makes_node pc); [contradiction | cbn [length] in L; lia].
  - destruct (l_items s) as [a|] eqn:Ei; [|reflexivity].
    assert (F : filter makes_node pc = []).
    { destruct (filter makes_node pc) as [|e l] eqn:Ef; [reflexivity|].
      assert (He : In e (filter makes_node pc)) by (rewrite Ef; now left).
      apply filter_In in He. destruct He as [He Me].
      assert (X' : existsb makes_node pc = true)
        by (apply existsb_exists; now exists e).
      congruence. }
    rewrite F in L. cbn [length] in L.
    assert (Em : mem s = []) by (apply length_zero_iff_nil; lia).
    apply I in Em. congruence.
Qed.

Lemma first_loop_completes_witness :
  let pc := [SP_PLAYLIST_TYPE_PLACEHOLDER; SP_PLAYLIST_TYPE_START_FOLDER "f";
             SP_PLAYLIST_TYPE_PLAYLIST false "a"; SP_PLAYLIST_TYPE_PLAYLIST true "b";
             SP_PLAYLIST_TYPE_END_FOLDER; SP_PLAYLIST_TYPE_START_FOLDER "g"] in
  exists s,
    first_loop pc 0 (mk_locals [] None None None 0) = Ok s /\
    l_not_loaded s = count_not_loaded pc /\
    length (mem s) = length (filter makes_node pc) /\
    l_items s = (if existsb makes_node pc then Some 0%nat else None).
Proof.
  apply first_loop_completes. reflexivity.
Defined.

(** ** Further properties of the pass: bounds *)

Lemma write_in_bounds (reorder : list cell) (i : nat) (v : Z) :
  (i < length reorder)%nat ->
  exists reorder', write reorder i v = Ok reorder' /\
                   length reorder' = length reorder.
Proof.
  intros L. unfold write. destruct (Nat.ltb_spec i (length reorder)); [|lia].
  eexists. split; [reflexivity|].
  rewrite length_app, length_firstn.
  change (length (Some v :: skipn (S i) reorder))
    with (S (length (skipn (S i) reorder))).
  rewrite (length_skipn (S i) reorder). lia.
Qed.

Lemma read_in_bounds (reorder : list cell) (i : nat) :
  (i < length reorder)%nat ->
  match read reorder i with
  | Ok _ => True
  | Fault f => f = UninitialisedRead i
  end.
Proof.
  intros L. unfold read. destruct (nth_error reorder i) as [[v|]|] eqn:E;
    [exact I | reflexivity |].
  apply nth_error_None in E. lia.
Qed.

Lemma recalculate_loop_in_bounds (n : nat) :
  forall (reorder : list cell) (original_index : Z) (i : nat),
    (i + n <= length reorder)%nat ->
    match recalculate_loop n reorder original_index i with
    | Ok reorder' => length reorder' = length reorder
    | Fault f => exists j, (j < length reorder)%nat /\ f = UninitialisedRead j
    end.
Proof.
  induction n as [|n IH]; intros reorder original_index i L; [reflexivity|].
  cbn [recalculate_loop].
  pose proof (read_in_bounds reorder i ltac:(lia)) as R.
  destruct (read reorder i) as [v|f]; [|exists i; split; [lia | exact R]].
  destruct (v <? original_index).
  - destruct (write_in_bounds reorder i (v + 1) ltac:(lia)) as (r' & W & Lr).
    rewrite W. specialize (IH r' original_index (S i) ltac:(lia)).
    rewrite Lr in IH. exact IH.
  - apply IH. lia.
Qed.

Lemma move_loop_in_bounds (n : nat) :
  forall (reorder : list cell) (i : nat),
    (i + n <= length reorder)%nat ->
    only_unwritten (length reorder)
      (snd (move_loop n reorder (length reorder) i)).
Proof.
  induction n as [|n IH]; intros reorder i L; [exact I|].
  cbn [move_loop].
  pose proof (read_in_bounds reorder i ltac:(lia)) as R.
  destruct (read reorder i) as [v|f]; [|subst f; cbn [snd only_unwritten]; lia].
  destruct (Z.of_nat i =? v).
  - specialize (IH reorder (S i) ltac:(lia)).
    destruct (move_loop n reorder (length reorder) (S i)) as [t r]. exact IH.
  - unfold recalculate_indexes.
    pose proof (read_in_bounds reorder i ltac:(lia)) as R'.
    destruct (read reorder i) as [original_index|f];
      [|subst f; cbn [snd only_unwritten]; lia].
    pose proof (recalculate_loop_in_bounds (length reorder - i) reorder
                  original_index i ltac:(lia)) as C.
    destruct (recalculate_loop (length reorder - i) reorder original_index i)
      as [reorder'|f].
    + specialize (IH reorder' (S i) ltac:(lia)). rewrite C in IH.
      destruct (move_loop n reorder' (length reorder) (S i)) as [t r]. exact IH.
    + destruct C as (j & Lj & ->). exact Lj.
Qed.

Lemma count_slots_le (pc : list entry) : (count_slots pc <= length pc)%nat.
Proof. unfold count_slots. apply filter_length_le. Qed.

(** X13: on a balanced container the pass never follows a null pointer and
    never reads or writes outside [reorder]: it returns 1, or it goes wrong
    by reading a cell of [reorder] that was never written. *)
Theorem balanced_pass_in_bounds (pc : list entry) :
  balanced pc = true ->
  returned (sort_playlists pc) = Ok 1 \/
  exists j, (j < length pc)%nat /\
            returned (sort_playlists pc) = Fault (UninitialisedRead j).
Proof.
  intros BA. rewrite sort_playlists_on_trees_eq. unfold sort_playlists_on_trees.
  destruct (build_loop_balanced pc 0 (mk_builder [] [] 0) BA) as (st & B & P & _).
  pose proof (build_loop_len pc 0 _ st B) as Len.
  rewrite B, P in *. cbn [open_len parents siblings] in Len.
  change (flat_len []) with 0%nat in Len.
  destruct (not_loaded st >? 0); [now left|].
  assert (I : items st = rev (siblings st)) by (unfold items; now rewrite P).
  destruct (items st) as [|n ns] eqn:E; [now left|].
  rewrite <- E. cbv zeta. unfold sp_playlistcontainer_num_playlists.
  assert (F : (flat_len (sort_list (items st)) <= length pc)%nat).
  { unfold flat_len.
    rewrite (Permutation_length (flatten_sort_list_perm (items st))).
    fold (flat_len (items st)). rewrite E, I, flat_len_rev.
    pose proof (count_slots_le pc). unfold flat_len in *. lia. }
  unfold flat_len in F. rewrite flatten_list_malloc
    by first [apply sort_list_not_nil; congruence | exact F].
  set (reorder := map Some (_flatten_list (sort_list (items st)))
                  ++ repeat None (length pc - length (_flatten_list (sort_list (items st))))).
  assert (Lr : length reorder = length pc).
  { unfold reorder. rewrite length_app, length_map, repeat_length. lia. }
  pose proof (move_loop_in_bounds (length pc) reorder 0 ltac:(lia)) as M.
  rewrite Lr in M.
  destruct (move_loop (length pc) reorder (length pc) 0) as [t [final|f]];
    cbn [snd only_unwritten returned] in *; [now left|].
  destruct f as [|j|j]; try contradiction. right. now exists j.
Qed.

Lemma balanced_pass_in_bounds_witness :
  let pc := [SP_PLAYLIST_TYPE_START_FOLDER "f"; SP_PLAYLIST_TYPE_PLACEHOLDER;
             SP_PLAYLIST_TYPE_PLAYLIST true "a"; SP_PLAYLIST_TYPE_END_FOLDER] in
  returned (sort_playlists pc) = Ok 1 \/
  exists j, (j < length pc)%nat /\
            returned (sort_playlists pc) = Fault (UninitialisedRead j).
Proof.
  apply balanced_pass_in_bounds. reflexivity.
Defined.

Lemma well_formed_parts (pc : list entry) :
  well_formed pc = true ->
  balanced pc = true /\ fully_loaded pc = true /\
  placeholder_free pc = true /\ no_empty_folder pc = true.
Proof.
  unfold well_formed. intros W.
  apply andb_prop in W. destruct W as [W NE].
  apply andb_prop in W. destruct W as [W PF].
  apply andb_prop in W. destruct W as [BA FL]. now repeat split.
Qed.

Lemma relabel_nil (k : nat) (head : list node) :
  relabel k head = [] -> head = [].
Proof. destruct head; [reflexivity | discriminate]. Qed.

Lemma flat_len_app (l1 l2 : list node) :
  flat_len (l1 ++ l2) = (flat_len l1 + flat_len l2)%nat.
Proof. unfold flat_len. now rewrite flatten_list_app, length_app. Qed.

Lemma flat_len_relabel (k : nat) (head : list node) :
  flat_len (relabel k head) = flat_len head.
Proof. unfold flat_len. now rewrite flatten_relabel, length_map, length_seq. Qed.

(** X14: a folder that is opened and never closed, with an entry in it,
    makes [flatten_list] store past the end of [reorder].  The flattening
    then has one position more than the container has entries (the
    [end_index] of the open folder, which is still -1), and the pass stops
    at the store into [reorder[num_playlists]], before any move. *)
Theorem open_folder_overflows (pc0 pc1 : list entry) (nm : string) :
  well_formed pc0 = true -> well_formed pc1 = true -> pc1 <> [] ->
  sort_playlists (pc0 ++ SP_PLAYLIST_TYPE_START_FOLDER nm :: pc1) =
  mk_outcome
    [printf_reordering (length (pc0 ++ SP_PLAYLIST_TYPE_START_FOLDER nm :: pc1))]
    (Fault (OutOfBounds (length (pc0 ++ SP_PLAYLIST_TYPE_START_FOLDER nm :: pc1)))).
Proof.
  intros W0 W1 N1.
  destruct (well_formed_parts pc0 W0) as (BA0 & FL0 & PF0 & NE0).
  destruct (well_formed_parts pc1 W1) as (BA1 & FL1 & PF1 & NE1).
  destruct (built_well_formed pc0 BA0 FL0 PF0 NE0) as (_ & EN0 & _ & LEN0).
  destruct (built_well_formed pc1 BA1 FL1 PF1 NE1) as (_ & EN1 & _ & LEN1).
  set (h0 := built pc0) in *. set (h1 := built pc1) in *.
  assert (H1 : h1 <> []).
  { intros E. rewrite E in EN1. cbn in EN1. now apply N1. }
  set (it := create_playlist_item (Z.of_nat (flat_len h0)) nm).
  assert (B : build_loop (pc0 ++ SP_PLAYLIST_TYPE_START_FOLDER nm :: pc1) 0
                (mk_builder [] [] 0) =
              Ok (mk_builder [(it, rev (relabel 0 h0))]
                    (rev (relabel (S (flat_len h0)) h1)) 0)).
  { rewrite <- EN0 at 1. rewrite (encode_reads_back h0 0%nat).
    cbn [build_loop build_step parents siblings not_loaded Nat.add].
    rewrite app_nil_r. fold it.
    pose proof (encode_reads_back h1 (S (flat_len h0))
                  (mk_builder [(it, rev (relabel 0 h0))] [] 0) []) as R.
    rewrite !app_nil_r, EN1 in R. cbn [parents siblings not_loaded] in R.
    rewrite R. reflexivity. }
  rewrite sort_playlists_on_trees_eq. unfold sort_playlists_on_trees.
  rewrite B. cbn [not_loaded Z.gtb Z.compare].
  unfold items.
  cbn [parents siblings items_of rev]. rewrite !rev_involutive.
  set (forest := relabel 0 h0 ++ [Node it (relabel (S (flat_len h0)) h1)]).
  assert (FL : flat_len forest =
               S (length (pc0 ++ SP_PLAYLIST_TYPE_START_FOLDER nm :: pc1))).
  { unfold forest. rewrite flat_len_app, flat_len_relabel, flat_len_cons.
    change (flat_len []) with 0%nat.
    destruct (relabel (S (flat_len h0)) h1) as [|r rs] eqn:R;
      [apply relabel_nil in R; contradiction|].
    rewrite <- R. cbn [_flatten_node]. rewrite R, <- R.
    rewrite length_app. cbn [length]. rewrite length_app. cbn [length].
    fold (_flatten_list (relabel (S (flat_len h0)) h1)).
    fold (flat_len (relabel (S (flat_len h0)) h1)).
    rewrite flat_len_relabel. lia. }
  assert (NF : forest <> []) by (unfold forest; now destruct (relabel 0 h0)).
  destruct forest as [|f fs] eqn:EF; [contradiction|]. rewrite <- EF in *.
  cbv zeta. unfold sp_playlistcontainer_num_playlists.
  rewrite flatten_list_stores by (apply sort_list_not_nil; congruence).
  rewrite flat_len_sort_list, FL.
  unfold malloc. rewrite repeat_length.
  destruct (Nat.leb_spec (S (length (pc0 ++ SP_PLAYLIST_TYPE_START_FOLDER nm :: pc1)))
              (length (pc0 ++ SP_PLAYLIST_TYPE_START_FOLDER nm :: pc1))); [lia|].
  reflexivity.
Qed.

Lemma open_folder_overflows_witness :
  let pc0 := [SP_PLAYLIST_TYPE_PLAYLIST true "b"] in
  let pc1 := [SP_PLAYLIST_TYPE_PLAYLIST true "a"] in
  sort_playlists (pc0 ++ SP_PLAYLIST_TYPE_START_FOLDER "f" :: pc1) =
  mk_outcome
    [printf_reordering (length (pc0 ++ SP_PLAYLIST_TYPE_START_FOLDER "f" :: pc1))]
    (Fault (OutOfBounds (length (pc0 ++ SP_PLAYLIST_TYPE_START_FOLDER "f" :: pc1)))).
Proof.
  apply open_folder_overflows; [reflexivity | reflexivity | discriminate].
Defined.

(** ** Further properties of the pass: nothing to sort *)

Lemma build_loop_placeholders (pc : list entry) :
  forall (i : nat) (st : builder),
    forallb is_placeholder pc = true -> build_loop pc i st = Ok st.
Proof.
  induction pc as [|e pc IH]; intros i st F; [reflexivity|].
  cbn [forallb] in F. apply andb_prop in F. destruct F as [Fe F].
  destruct e; try discriminate. cbn [build_loop build_step]. now apply IH.
Qed.

(** X15: on a container that holds nothing but placeholders, the empty
    container included, the pass prints its first line and returns 1: it
    allocates no array, makes no move and does not print that it is done. *)
Theorem sort_playlists_nothing_to_sort (pc : list entry) :
  forallb is_placeholder pc = true ->
  sort_playlists pc = mk_outcome [printf_reordering (length pc)] (Ok 1).
Proof.
  intros F. rewrite sort_playlists_on_trees_eq. unfold sort_playlists_on_trees.
  now rewrite build_loop_placeholders.
Qed.

Lemma sort_playlists_nothing_to_sort_witness :
  sort_playlists [SP_PLAYLIST_TYPE_PLACEHOLDER; SP_PLAYLIST_TYPE_PLACEHOLDER] =
  mk_outcome [printf_reordering 2] (Ok 1).
Proof.
  apply (sort_playlists_nothing_to_sort
           [SP_PLAYLIST_TYPE_PLACEHOLDER; SP_PLAYLIST_TYPE_PLACEHOLDER]).
  reflexivity.
Defined.

(** ** Further properties of the pass: the moves on a well-formed container *)

(** What the pass does on a well-formed container. *)
Lemma well_formed_pass (pc : list entry) :
  well_formed pc = true ->
  returned (sort_playlists pc) = Ok 1 /\
  moves_of (trace (sort_playlists pc)) = moves_from (length pc) (target pc) 0 /\
  length (target pc) = length pc /\
  NoDup (target pc) /\
  Permutation (target pc) (original_order pc) /\
  in_step (target pc) 0 (target pc) (original_order pc).
Proof.
  intros W. destruct (well_formed_parts pc W) as (BA & FL & PF & NE).
  destruct (built_well_formed pc BA FL PF NE) as (B & EN & RL & LEN).
  pose proof (target_permutation pc BA FL NE) as TP.
  unfold slots in TP. rewrite (slots_from_placeholder_free pc 0 PF) in TP.
  fold (original_order pc) in TP.
  assert (TL : length (target pc) = length pc).
  { rewrite (Permutation_length TP). unfold original_order.
    now rewrite length_map, length_seq. }
  assert (ND : NoDup (target pc)).
  { apply (Permutation_NoDup (Permutation_sym TP)). unfold original_order.
    apply Finite.Injective_map_NoDup; [intros x y; apply Nat2Z.inj | apply seq_NoDup]. }
  assert (IN : forall j, (j < length (target pc))%nat ->
                exists x, nth j (target pc) 0 = Z.of_nat x /\ (x < length pc)%nat).
  { intros j Lj.
    assert (I : In (nth j (target pc) 0) (original_order pc))
      by (apply (Permutation_in _ TP); apply nth_In; lia).
    unfold original_order in I. apply in_map_iff in I.
    destruct I as (x & <- & Hx). apply in_seq in Hx. exists x. split; [reflexivity | lia]. }
  assert (S0 : in_step (target pc) 0 (target pc) (original_order pc)).
  { repeat split.
    - unfold original_order. now rewrite length_map, length_seq.
    - destruct (IN j ltac:(lia)) as (x & -> & _). lia.
    - destruct (IN j ltac:(lia)) as (x & -> & Hx). lia.
    - destruct (IN j ltac:(lia)) as (x & -> & Hx).
      unfold original_order. rewrite Nat2Z.id. change 0 with (Z.of_nat 0).
      rewrite map_nth, seq_nth by lia. reflexivity. }
  assert (TE : target pc = _flatten_list (sort_list (built pc))).
  { unfold target. rewrite B. unfold items. cbn [parents siblings items_of].
    now rewrite rev_involutive. }
  assert (R : returned (sort_playlists pc) = Ok 1 /\
              moves_of (trace (sort_playlists pc)) =
              moves_from (length pc) (target pc) 0).
  { rewrite sort_playlists_on_trees_eq.
    unfold sort_playlists_on_trees. fold (build pc). rewrite B.
    cbn [not_loaded Z.gtb Z.compare].
    replace (items (mk_builder [] (rev (built pc)) 0)) with (built pc)
      by (unfold items; cbn [parents siblings items_of]; now rewrite rev_involutive).
    destruct (built pc) as [|n0 ns] eqn:EB.
    - change (flat_len []) with 0%nat in LEN.
      destruct pc; [|discriminate]. split; reflexivity.
    - rewrite <- EB in *. cbv zeta. unfold sp_playlistcontainer_num_playlists.
      rewrite flatten_list_malloc
        by first [apply sort_list_not_nil; congruence | rewrite <- TE; lia].
      rewrite <- TE, TL, Nat.sub_diag. cbn [repeat]. rewrite app_nil_r.
      destruct (move_loop_moves_from (length pc) 0 (target pc) ltac:(lia))
        as (t & final & ML & M).
      rewrite TL in ML. rewrite ML. cbn [trace returned]. split; [reflexivity|].
      rewrite !moves_of_app. cbn [moves_of flat_map app]. rewrite app_nil_r.
      fold (moves_of t). exact M. }
  destruct R as [R1 R2].
  split; [exact R1|]. split; [exact R2|]. split; [exact TL|].
  split; [exact ND|]. split; [exact TP | exact S0].
Qed.

Lemma moves_from_towards_front (target_order : list Z) (n : nat) :
  NoDup target_order ->
  forall (i : nat) (w faux : list Z),
    (i + n = length target_order)%nat -> in_step target_order i w faux ->
    Forall (towards_front i (length target_order)) (moves_from n w i).
Proof.
  intros ND. induction n as [|n IH]; intros i w faux L St; [constructor|].
  cbn [moves_from].
  assert (Up : forall l, Forall (towards_front (S i) (length target_order)) l ->
                         Forall (towards_front i (length target_order)) l).
  { intros l. apply Forall_impl. intros m [A B]. split; [lia | exact B]. }
  destruct (Z.eqb_spec (Z.of_nat i) (nth i w 0)) as [E|NE].
  - apply Up. apply (IH (S i) w faux); [lia|].
    apply in_step_keep; [exact ND | lia | exact St | exact E].
  - destruct (in_step_move target_order ND i w faux ltac:(lia) St NE)
      as (faux' & M & S').
    constructor.
    + destruct St as (_ & _ & _ & H). destruct (H i ltac:(lia)) as [[Lo Hi] _].
      unfold towards_front. cbn [fst snd]. lia.
    + apply Up. apply (IH (S i) _ faux'); [lia | exact S'].
Qed.

Lemma moves_from_destinations (n : nat) :
  forall (i : nat) (w : list Z),
    Forall (fun m => Z.of_nat i <= snd m) (moves_from n w i) /\
    StronglySorted Z.lt (map snd (moves_from n w i)).
Proof.
  induction n as [|n IH]; intros i w; [split; constructor|].
  cbn [moves_from].
  assert (Up : forall l, Forall (fun m : Z * Z => Z.of_nat (S i) <= snd m) l ->
                         Forall (fun m : Z * Z => Z.of_nat i <= snd m) l).
  { intros l. apply Forall_impl. intros m A. lia. }
  destruct (Z.of_nat i =? nth i w 0).
  - destruct (IH (S i) w) as [F St]. split; [now apply Up | exact St].
  - destruct (IH (S i) (recalculated w i)) as [F St]. split.
    + constructor; [cbn [snd]; lia | now apply Up].
    + cbn [map snd]. constructor; [exact St|].
      apply Forall_map. revert F. apply Forall_impl. intros m A. lia.
Qed.

(** X16: on a well-formed container every move the pass asks for takes an
    item from behind its destination to its destination, both inside the
    container, and the destinations of the moves increase from one move to
    the next: no item is ever moved towards the back, and no destination is
    used twice. *)
Theorem moves_go_towards_front (pc : list entry) :
  well_formed pc = true ->
  Forall (towards_front 0 (length pc)) (moves_of (trace (sort_playlists pc))) /\
  StronglySorted Z.lt (map snd (moves_of (trace (sort_playlists pc)))).
Proof.
  intros W. destruct (well_formed_pass pc W) as (_ & M & TL & ND & _ & S0).
  rewrite M. split.
  - rewrite <- TL at 1.
    apply (moves_from_towards_front (target pc) (length pc) ND 0 (target pc)
             (original_order pc)); [lia | exact S0].
  - apply moves_from_destinations.
Qed.

Lemma moves_go_towards_front_witness :
  let pc := [SP_PLAYLIST_TYPE_PLAYLIST true "m";
             SP_PLAYLIST_TYPE_START_FOLDER "f";
             SP_PLAYLIST_TYPE_PLAYLIST true "z";
             SP_PLAYLIST_TYPE_PLAYLIST true "b";
             SP_PLAYLIST_TYPE_END_FOLDER;
             SP_PLAYLIST_TYPE_PLAYLIST true "a"] in
  Forall (towards_front 0 (length pc)) (moves_of (trace (sort_playlists pc))) /\
  StronglySorted Z.lt (map snd (moves_of (trace (sort_playlists pc)))).
Proof.
  apply moves_go_towards_front. reflexivity.
Defined.

Lemma moves_from_identity (size n : nat) :
  forall i, (i + n <= size)%nat ->
            moves_from n (map Z.of_nat (seq 0 size)) i = [].
Proof.
  induction n as [|n IH]; intros i L; [reflexivity|].
  cbn [moves_from].
  assert (N : nth i (map Z.of_nat (seq 0 size)) 0 = Z.of_nat i).
  { change 0 with (Z.of_nat 0). now rewrite map_nth, seq_nth by lia. }
  rewrite N, Z.eqb_refl. apply IH. lia.
Qed.

(** X17: on a well-formed container the pass asks for no move exactly when
    the container is already in the order it aims at. *)
Theorem no_move_iff_in_order (pc : list entry) :
  well_formed pc = true ->
  (moves_of (trace (sort_playlists pc)) = [] <-> target pc = original_order pc).
Proof.
  intros W. destruct (well_formed_parts pc W) as (BA & FL & PF & NE).
  destruct (well_formed_pass pc W) as (_ & M & TL & _).
  split.
  - intros E.
    destruct (moves_realise_target_without_empty_folder pc BA FL PF NE) as [_ R].
    unfold moves_realise_target in R. rewrite E in R. cbn [apply_moves] in R.
    now injection R as ->.
  - intros E. rewrite M, E. unfold original_order. apply moves_from_identity. lia.
Qed.

Lemma no_move_iff_in_order_witness :
  let pc := [SP_PLAYLIST_TYPE_PLAYLIST true "a";
             SP_PLAYLIST_TYPE_START_FOLDER "f";
             SP_PLAYLIST_TYPE_PLAYLIST true "b";
             SP_PLAYLIST_TYPE_END_FOLDER] in
  moves_of (trace (sort_playlists pc)) = [] <-> target pc = original_order pc.
Proof.
  apply no_move_iff_in_order. reflexivity.
Defined.

(** ** Further properties of the pass: the container it aims at *)

Lemma balanced_from_encode_node (n : node) :
  forall (d : nat) (rest : list entry),
    balanced_from d (encode_node n ++ rest) = balanced_from d rest.
Proof.
  induction n as [it ch IH] using node_forall_ind. intros d rest.
  destruct ch as [|c cs]; [reflexivity|].
  remember (c :: cs) as ch eqn:Ech.
  assert (E : encode_node (Node it ch) =
              SP_PLAYLIST_TYPE_START_FOLDER (name it)
              :: flat_map encode_node ch ++ [SP_PLAYLIST_TYPE_END_FOLDER])
    by now subst ch.
  rewrite E. clear E Ech. cbn [app balanced_from]. rewrite <- app_assoc.
  cbn [app].
  assert (C : forall d' rest',
             balanced_from d' (flat_map encode_node ch ++ rest') =
             balanced_from d' rest').
  { induction IH as [|x l Hx Hl IHl]; intros d' rest'; [reflexivity|].
    cbn [flat_map]. rewrite <- app_assoc, Hx. apply IHl. }
  rewrite C. reflexivity.
Qed.

Lemma balanced_from_encode (head : list node) :
  forall (d : nat) (rest : list entry),
    balanced_from d (encode head ++ rest) = balanced_from d rest.
Proof.
  induction head as [|n l IH]; intros d rest; [reflexivity|].
  unfold encode in *. cbn [flat_map]. rewrite <- app_assoc.
  rewrite balanced_from_encode_node. apply IH.
Qed.

Lemma sorted_names (l1 l2 : list node) :
  map name_of l1 = map name_of l2 ->
  Sorted name_le l1 -> Sorted name_le l2.
Proof.
  revert l2; induction l1 as [|a l1 IH]; intros [|b l2] E S; try discriminate;
    [constructor|].
  cbn [map] in E. injection E as Ea El.
  inversion S as [|a' l' S' H]; subst.
  constructor; [now apply IH|].
  destruct l2 as [|c l2]; [constructor|].
  destruct l1 as [|a1 l1]; [discriminate|].
  cbn [map] in El. injection El as Ec El.
  inversion H; subst. constructor. unfold name_le in *. now rewrite <- Ea, <- Ec.
Qed.

Lemma levels_sorted_relabel (head : list node) :
  forall k, levels_sorted head -> levels_sorted (relabel k head).
Proof.
  induction head as [head IH] using forest_ind. intros k LS.
  inversion LS as [h S F]; subst.
  constructor.
  - apply (sorted_names head); [symmetry; apply relabel_names | exact S].
  - clear S LS. revert k.
    induction IH as [|n l Hn Hl IHl]; intros k; [constructor|].
    inversion F; subst. cbn [relabel]. constructor; [|now apply IHl].
    destruct n as [it ch]. rewrite relabel_node_eq. cbn [children] in *.
    now apply Hn.
Qed.

Lemma levels_sorted_sort_list (head : list node) :
  levels_sorted (sort_list head).
Proof.
  induction head as [head IH] using forest_ind.
  constructor; [apply merge_sort_sorted|].
  unfold sort_list.
  apply (Forall_perm _ (map sort_children head));
    [symmetry; apply merge_sort_perm|].
  apply Forall_map. rewrite Forall_forall in *. intros n Hn.
  rewrite children_sort_children. now apply IH.
Qed.

Lemma entries_in_original_order (pc : list entry) :
  map (entry_of pc) (original_order pc) = pc.
Proof.
  unfold original_order. rewrite map_map.
  apply nth_ext with (d := SP_PLAYLIST_TYPE_PLACEHOLDER)
                     (d' := SP_PLAYLIST_TYPE_PLACEHOLDER).
  - now rewrite length_map, length_seq.
  - intros j Lj. rewrite length_map, length_seq in Lj.
    rewrite (nth_indep _ _ (entry_of pc (Z.of_nat 0)))
      by (rewrite length_map, length_seq; exact Lj).
    rewrite (map_nth (fun x => entry_of pc (Z.of_nat x))), seq_nth by exact Lj.
    unfold entry_of. now rewrite Nat2Z.id.
Qed.

(** X18: on a well-formed container, the container in the order the pass
    aims at holds the entries of the container, is balanced again, and is
    sorted: it is the sorted forest written out, each folder around its own
    entries, and the first loop, run on it, builds a forest whose chains are
    in the order of the names at every depth. *)
Theorem reordered_container_sorted (pc : list entry) :
  well_formed pc = true ->
  reordered pc = encode (sort_list (built pc)) /\
  Permutation (reordered pc) pc /\
  balanced (reordered pc) = true /\
  built (reordered pc) = relabel 0 (sort_list (built pc)) /\
  levels_sorted (built (reordered pc)).
Proof.
  intros W. destruct (well_formed_parts pc W) as (BA & FL & PF & NE).
  destruct (built_well_formed pc BA FL PF NE) as (B & EN & RL & LEN).
  destruct (well_formed_pass pc W) as (_ & _ & _ & _ & TP & _).
  set (sorted := sort_list (built pc)).
  assert (T : target pc = _flatten_list sorted).
  { unfold target. rewrite B. unfold items. cbn [parents siblings items_of].
    now rewrite rev_involutive. }
  assert (LB : Forall (labelled pc) sorted).
  { apply labelled_sort_list. rewrite RL.
    pose proof (labelled_relabel (built pc) 0 [] [] eq_refl) as L.
    cbn [app] in L. now rewrite app_nil_r, EN in L. }
  assert (R : reordered pc = encode sorted).
  { unfold reordered. rewrite T. now apply labelled_flatten. }
  assert (B2 : built (reordered pc) = relabel 0 sorted).
  { pose proof (encode_reads_back sorted 0%nat (mk_builder [] [] 0) []) as RB.
    rewrite !app_nil_r in RB. unfold built, build. rewrite R, RB.
    cbn [build_loop]. unfold items. cbn [parents siblings items_of].
    apply rev_involutive. }
  split; [|split; [|split; [|split]]].
  - exact R.
  - unfold reordered.
    transitivity (map (entry_of pc) (original_order pc));
      [now apply Permutation_map | now rewrite entries_in_original_order].
  - rewrite R. unfold balanced.
    pose proof (balanced_from_encode sorted 0 []) as E.
    now rewrite app_nil_r in E.
  - exact B2.
  - rewrite B2. apply levels_sorted_relabel. apply levels_sorted_sort_list.
Qed.

Lemma reordered_container_sorted_witness :
  let pc := [SP_PLAYLIST_TYPE_PLAYLIST true "m";
             SP_PLAYLIST_TYPE_START_FOLDER "f";
             SP_PLAYLIST_TYPE_PLAYLIST true "z";
             SP_PLAYLIST_TYPE_PLAYLIST true "b";
             SP_PLAYLIST_TYPE_END_FOLDER;
             SP_PLAYLIST_TYPE_PLAYLIST true "a"] in
  reordered pc = encode (sort_list (built pc)) /\
  Permutation (reordered pc) pc /\
  balanced (reordered pc) = true /\
  built (reordered pc) = relabel 0 (sort_list (built pc)) /\
  levels_sorted (built (reordered pc)).
Proof.
  apply reordered_container_sorted. reflexivity.
Defined.

(** ** Further properties: [trim] *)

Lemma strlen_app (s rest : list ascii) :
  no_zero s -> strlen (s ++ zero :: rest) = Some (length s).
Proof.
  intros N. induction N as [|c s Hc Hs IH]; [reflexivity|].
  cbn [app strlen length]. destruct (Z.eqb_spec (byte_of c) 0); [contradiction|].
  now rewrite IH.
Qed.

Lemma strlen_cut (buf : list ascii) (l : nat) :
  strlen buf = Some l ->
  exists s rest, buf = s ++ zero :: rest /\ no_zero s /\ length s = l.
Proof.
  revert l; induction buf as [|c buf IH]; intros l E; [discriminate|].
  cbn [strlen] in E. destruct (Z.eqb_spec (byte_of c) 0) as [Z|NZ].
  - injection E as <-. exists [], buf. repeat split; [|constructor].
    f_equal. unfold byte_of in Z.
    assert (N : N_of_ascii c = 0%N) by lia.
    rewrite <- (ascii_N_embedding c), N. reflexivity.
  - destruct (strlen buf) as [l'|]; [|discriminate]. injection E as <-.
    destruct (IH l' eq_refl) as (s & rest & -> & N & L).
    exists (c :: s), rest. repeat split; [now constructor | cbn [length]; lia].
Qed.

Lemma trim_loop_spec (char_is_signed : bool) (removed : list ascii) :
  forall (kept rest : list ascii),
    Forall (trimmed char_is_signed) removed ->
    ends_well char_is_signed kept ->
    trim_loop char_is_signed (kept ++ removed ++ rest) (length kept + length removed) =
    Some (kept ++ repeat zero (length removed) ++ rest).
Proof.
  induction removed as [|c removed IH] using rev_ind; intros kept rest F E.
  - cbn [app length repeat]. rewrite Nat.add_0_r.
    destruct kept as [|k kept'] using rev_ind; [reflexivity|].
    rewrite length_app. cbn [length]. rewrite Nat.add_1_r. cbn [trim_loop].
    rewrite <- app_assoc. cbn [app].
    rewrite nth_error_app2, Nat.sub_diag by lia. cbn [nth_error].
    unfold ends_well in E. rewrite rev_app_distr in E. cbn [rev app] in E.
    destruct (Z.ltb_spec (char_value char_is_signed k) 32); [lia | reflexivity].
  - apply Forall_app in F. destruct F as [F Fc].
    inversion Fc as [|c' l' Hc _]; subst. unfold trimmed in Hc.
    rewrite length_app. cbn [length].
    replace (length kept + (length removed + 1))%nat
      with (S (length (kept ++ removed)))
      by (rewrite length_app; lia).
    cbn [trim_loop].
    replace (kept ++ (removed ++ [c]) ++ rest)
      with ((kept ++ removed) ++ c :: rest)
      by (repeat (rewrite <- app_assoc; cbn [app]); reflexivity).
    rewrite nth_error_app2, Nat.sub_diag by lia. cbn [nth_error].
    destruct (Z.ltb_spec (char_value char_is_signed c) 32); [|lia].
    rewrite assign_app.
    replace ((kept ++ removed) ++ zero :: rest)
      with (kept ++ removed ++ zero :: rest) by (now rewrite <- app_assoc).
    rewrite length_app, (IH kept (zero :: rest) F E).
    do 2 f_equal. rewrite Nat.add_1_r. cbn [repeat].
    change (zero :: repeat zero (length removed))
      with (repeat zero (S (length removed))).
    rewrite <- (Nat.add_1_r (length removed)), repeat_app, <- app_assoc.
    reflexivity.
Qed.

(** A string is what [trim] keeps of it followed by what it takes away. *)
Lemma trim_parts (char_is_signed : bool) (s : list ascii) :
  exists kept removed,
    s = kept ++ removed /\ Forall (trimmed char_is_signed) removed /\
    ends_well char_is_signed kept.
Proof.
  induction s as [|c s IH] using rev_ind.
  - exists [], []. repeat split; constructor.
  - destruct (Z.lt_ge_cases (char_value char_is_signed c) 32) as [Lo|Hi].
    + destruct IH as (kept & removed & -> & F & E).
      exists kept, (removed ++ [c]). repeat split; [now rewrite app_assoc | | exact E].
      apply Forall_app. split; [exact F | now repeat constructor].
    + exists (s ++ [c]), []. repeat split; [now rewrite app_nil_r | constructor |].
      unfold ends_well. rewrite rev_app_distr. exact Hi.
Qed.

(** X19: on a buffer that holds a C string, [trim] keeps the length of the
    buffer and everything behind the end of the string, and sets to zero the
    bytes at the end of the string whose [char] value is below 32, and no
    other byte: the string that is left is empty or ends in a byte that is
    not below 32.  With a signed [char] the bytes from 128 on are below 32
    as well. *)
Theorem trim_effect (char_is_signed : bool) (s rest : list ascii) :
  no_zero s ->
  exists kept removed,
    s = kept ++ removed /\
    Forall (trimmed char_is_signed) removed /\
    ends_well char_is_signed kept /\
    trim char_is_signed (s ++ zero :: rest) =
      Some (kept ++ repeat zero (length removed) ++ zero :: rest).
Proof.
  intros N. destruct (trim_parts char_is_signed s) as (kept & removed & -> & F & E).
  exists kept, removed. repeat split; try assumption.
  unfold trim. rewrite strlen_app by exact N.
  rewrite <- app_assoc, length_app. now apply trim_loop_spec.
Qed.

Lemma trim_effect_witness :
  exists kept removed,
    ["j"; "o"; "e"; "010"]%char = kept ++ removed /\
    Forall (trimmed true) removed /\
    ends_well true kept /\
    trim true (["j"; "o"; "e"; "010"]%char ++ zero :: ["x"]%char) =
      Some (kept ++ repeat zero (length removed) ++ zero :: ["x"]%char).
Proof.
  apply trim_effect. repeat constructor; unfold byte_of; simpl; lia.
Defined.

Lemma no_zero_app (s1 s2 : list ascii) :
  no_zero (s1 ++ s2) -> no_zero s1 /\ no_zero s2.
Proof. unfold no_zero. apply Forall_app. Qed.

Lemma repeat_shift {A : Type} (x : A) (n : nat) (rest : list A) :
  repeat x n ++ x :: rest = x :: repeat x n ++ rest.
Proof.
  induction n as [|n IH]; [reflexivity|]. cbn [repeat app]. now rewrite IH.
Qed.

(** X20: [trim] is idempotent: on the buffer it leaves it changes nothing;
    and on a buffer without a zero byte it reads past the end. *)
Theorem trim_idempotent (char_is_signed : bool) (buf : list ascii) :
  match trim char_is_signed buf with
  | Some buf' => trim char_is_signed buf' = Some buf'
  | None => strlen buf = None
  end.
Proof.
  unfold trim at 1. destruct (strlen buf) as [l|] eqn:E; [|reflexivity].
  destruct (strlen_cut buf l E) as (s & rest & -> & N & <-).
  destruct (trim_parts char_is_signed s) as (kept & removed & -> & F & K).
  apply no_zero_app in N. destruct N as [Nk _].
  rewrite <- app_assoc, length_app, trim_loop_spec by assumption.
  rewrite repeat_shift.
  unfold trim. rewrite strlen_app by exact Nk.
  pose proof (trim_loop_spec char_is_signed [] kept
                (zero :: repeat zero (length removed) ++ rest)
                (Forall_nil _) K) as T.
  cbn [app length repeat] in T. rewrite Nat.add_0_r in T. exact T.
Qed.

(** ** Further properties: [logged_in] *)

Lemma moves_in_map (t : list event) :
  moves_in (map in_sort_playlists t) = moves_of t.
Proof.
  induction t as [|e t IH]; [reflexivity|].
  cbn [map]. unfold moves_in, moves_of in *. cbn [flat_map]. rewrite IH.
  now destruct e.
Qed.

(** X21: [logged_in] makes nothing of a pass that stopped.  After a login
    that succeeded, when a playlist is not loaded (and every end marker
    closes an open folder), it prints the count, lets no move be made, logs
    out and sets [g_quit]: the pass is not tried again.  After a login that
    failed it releases the session and ends the process with status 4. *)
Theorem logged_in_never_retries (sess : sp_session) (message : string) :
  existsb is_not_loaded (sp_session_playlistcontainer sess) = true ->
  ends_matched 0 (sp_session_playlistcontainer sess) = true ->
  snd (logged_in sess SP_ERROR_OK) = returns 1 /\
  moves_in (fst (logged_in sess SP_ERROR_OK)) = [] /\
  last (fst (logged_in sess SP_ERROR_OK)) sp_session_release = sp_session_logout /\
  In (in_sort_playlists
        (printf_error (count_not_loaded (sp_session_playlistcontainer sess))))
     (fst (logged_in sess SP_ERROR_OK)) /\
  logged_in sess (SP_ERROR_OTHER message) =
    ([fprintf_failed_to_log_in message; sp_session_release], exits 4).
Proof.
  intros NL M.
  assert (P : sort_playlists (sp_session_playlistcontainer sess) =
              mk_outcome
                [printf_reordering (length (sp_session_playlistcontainer sess));
                 printf_error (count_not_loaded (sp_session_playlistcontainer sess))]
                (Ok 1)).
  { rewrite sort_playlists_on_trees_eq. unfold sort_playlists_on_trees.
    destruct (build_loop_matched _ 0 (mk_builder [] [] 0) M) as (st & B & C).
    rewrite B. cbn [not_loaded] in C. rewrite C, Z.add_0_l.
    pose proof (count_not_loaded_pos _ NL) as Pos.
    destruct (Z.gtb_spec (count_not_loaded (sp_session_playlistcontainer sess)) 0);
      [reflexivity | lia]. }
  unfold logged_in. rewrite P. cbn [returned trace map app fst snd].
  repeat split.
  right. right. now left.
Qed.

Lemma logged_in_never_retries_witness :
  let sess := mk_sp_session (mk_sp_user true "Joe" "joe")
                [SP_PLAYLIST_TYPE_PLAYLIST true "a";
                 SP_PLAYLIST_TYPE_PLAYLIST false "b"] in
  snd (logged_in sess SP_ERROR_OK) = returns 1 /\
  moves_in (fst (logged_in sess SP_ERROR_OK)) = [] /\
  last (fst (logged_in sess SP_ERROR_OK)) sp_session_release = sp_session_logout /\
  In (in_sort_playlists
        (printf_error (count_not_loaded (sp_session_playlistcontainer sess))))
     (fst (logged_in sess SP_ERROR_OK)) /\
  logged_in sess (SP_ERROR_OTHER "x") =
    ([fprintf_failed_to_log_in "x"; sp_session_release], exits 4).
Proof.
  apply (logged_in_never_retries
           (mk_sp_session (mk_sp_user true "Joe" "joe")
              [SP_PLAYLIST_TYPE_PLAYLIST true "a";
               SP_PLAYLIST_TYPE_PLAYLIST false "b"]) "x"); reflexivity.
Defined.

(** ** Counting addresses *)

Lemma occ_app (l1 l2 : list nat) (x : nat) :
  occ (l1 ++ l2) x = (occ l1 x + occ l2 x)%nat.
Proof. apply count_occ_app. Qed.

Lemma occ_cons (a : nat) (l : list nat) (x : nat) :
  occ (a :: l) x = ((if (a =? x)%nat then 1 else 0) + occ l x)%nat.
Proof.
  unfold occ. cbn [count_occ]. destruct (Nat.eq_dec a x) as [E|N].
  - apply Nat.eqb_eq in E. now rewrite E.
  - apply Nat.eqb_neq in N. now rewrite N.
Qed.

Lemma occ_nil (x : nat) : occ [] x = 0%nat.
Proof. reflexivity. Qed.

Lemma nodup_occ (l : list nat) : NoDup l <-> forall x, (occ l x <= 1)%nat.
Proof. apply NoDup_count_occ. Qed.

Lemma in_occ (l : list nat) (x : nat) : In x l <-> (1 <= occ l x)%nat.
Proof. unfold occ. rewrite (count_occ_In Nat.eq_dec). lia. Qed.

Lemma not_in_occ (l : list nat) (x : nat) : ~ In x l <-> occ l x = 0%nat.
Proof. apply count_occ_not_In. Qed.

Lemma perm_occ (l1 l2 : list nat) :
  Permutation l1 l2 <-> forall x, occ l1 x = occ l2 x.
Proof. apply Permutation_count_occ. Qed.


(** ** Forests in memory: segments and what changes leave of them *)

Lemma s_node_eq (r r' : s_node) :
  p_next r' = p_next r -> p_children r' = p_children r ->
  p_parent r' = p_parent r -> p_item r' = p_item r -> r' = r.
Proof. destruct r, r'. cbn. now intros -> -> -> ->. Qed.

Lemma in_tops_addrs (l : list shape) (a : nat) : In a (tops l) -> In a (addrs l).
Proof.
  unfold tops, addrs. intros H. apply in_map_iff in H. destruct H as (s & <- & Hs).
  apply in_flat_map. exists s. split; [exact Hs|]. destruct s. now left.
Qed.

Lemma addrs_app (l1 l2 : list shape) : addrs (l1 ++ l2) = addrs l1 ++ addrs l2.
Proof. apply flat_map_app. Qed.

Lemma addrs_cons (a : nat) (k rest : list shape) :
  addrs (Shape a k :: rest) = a :: addrs k ++ addrs rest.
Proof. reflexivity. Qed.

Lemma addrs_perm (l1 l2 : list shape) :
  Permutation l1 l2 -> Permutation (addrs l1) (addrs l2).
Proof.
  intros P. induction P as [|x l l' P IH|x y l|l l' l'' P1 IH1 P2 IH2].
  - reflexivity.
  - unfold addrs. cbn [flat_map]. now apply Permutation_app_head.
  - unfold addrs. cbn [flat_map]. rewrite !app_assoc.
    apply Permutation_app_tail, Permutation_app_comm.
  - now transitivity (addrs l').
Qed.

Lemma tops_perm (l1 l2 : list shape) :
  Permutation l1 l2 -> Permutation (tops l1) (tops l2).
Proof. apply Permutation_map. Qed.

Lemma segment_app (m : memory) (l1 l2 : list shape) (h mid e : option nat) :
  segment m h l1 mid -> segment m mid l2 e -> segment m h (l1 ++ l2) e.
Proof.
  intros S1 S2. induction S1 as [h|a r k rest e' Ha Sk IHk Sr IHr]; [exact S2|].
  cbn [app]. econstructor; [exact Ha | exact Sk | now apply IHr].
Qed.

Lemma segment_split (m : memory) (l1 l2 : list shape) :
  forall (h e : option nat),
    segment m h (l1 ++ l2) e ->
    exists mid, segment m h l1 mid /\ segment m mid l2 e.
Proof.
  induction l1 as [|s l1 IH]; intros h e S.
  - exists h. split; [constructor | exact S].
  - cbn [app] in S. inversion S as [|a r k rest e' Ha Sk Sr]; subst.
    destruct (IH _ _ Sr) as (mid & S1 & S2).
    exists mid. split; [|exact S2]. econstructor; eassumption.
Qed.

Lemma segment_head (m : memory) (s : shape) (rest : list shape) (h e : option nat) :
  segment m h (s :: rest) e -> h = Some (addr s).
Proof. intros S. now inversion S. Qed.

Lemma realises_null (m : memory) (l : list shape) : realises m None l -> l = [].
Proof. intros S. now inversion S. Qed.

Lemma realises_nil (m : memory) (h : option nat) : realises m h [] -> h = None.
Proof. intros S. now inversion S. Qed.

(** A segment stays one when the records at its addresses stay. *)
Lemma segment_frame (m m' : memory) (h e : option nat) (l : list shape) :
  segment m h l e ->
  (forall a, In a (addrs l) -> nth_error m' a = nth_error m a) ->
  segment m' h l e.
Proof.
  intros S. induction S as [h|a r k rest e Ha Sk IHk Sr IHr]; intros F;
    [constructor|].
  rewrite addrs_cons in F. econstructor.
  - rewrite F by now left. exact Ha.
  - apply IHk. intros b Hb. apply F. right. apply in_or_app. now left.
  - apply IHr. intros b Hb. apply F. right. apply in_or_app. now right.
Qed.

Lemma evolves_refl (m : memory) : evolves m m [] [].
Proof.
  split; [reflexivity|]. intros a r E. exists r. now repeat split.
Qed.

Lemma evolves_weaken (m m' : memory) (nexts childs nexts' childs' : list nat) :
  evolves m m' nexts childs -> incl nexts nexts' -> incl childs childs' ->
  evolves m m' nexts' childs'.
Proof.
  intros [L E] In Ic. split; [exact L|]. intros a r Ha.
  destruct (E a r Ha) as (r' & Hr & I & P & N & C).
  exists r'. repeat split; try assumption.
  - intros H. apply N. intros H'. apply H. now apply In.
  - intros H. apply C. intros H'. apply H. now apply Ic.
Qed.

Lemma evolves_trans (m1 m2 m3 : memory) (nexts childs : list nat) :
  evolves m1 m2 nexts childs -> evolves m2 m3 nexts childs ->
  evolves m1 m3 nexts childs.
Proof.
  intros [L1 E1] [L2 E2]. split; [congruence|]. intros a r Ha.
  destruct (E1 a r Ha) as (r2 & H2 & I2 & P2 & N2 & C2).
  destruct (E2 a r2 H2) as (r3 & H3 & I3 & P3 & N3 & C3).
  exists r3. repeat split; try congruence.
  - intros H. rewrite N3, N2 by exact H. reflexivity.
  - intros H. rewrite C3, C2 by exact H. reflexivity.
Qed.

Lemma evolves_same (m m' : memory) (nexts childs : list nat) (a : nat) :
  evolves m m' nexts childs -> ~ In a nexts -> ~ In a childs ->
  nth_error m' a = nth_error m a.
Proof.
  intros [L E] Nn Nc. destruct (nth_error m a) as [r|] eqn:Ha.
  - destruct (E a r Ha) as (r' & Hr & I & P & N & C). rewrite Hr. f_equal.
    apply s_node_eq; auto.
  - apply nth_error_None. rewrite L. now apply nth_error_None.
Qed.

Lemma evolves_item_at (m m' : memory) (nexts childs : list nat) (a : nat) :
  evolves m m' nexts childs -> item_at m' a = item_at m a.
Proof.
  intros [L E]. unfold item_at. destruct (nth_error m a) as [r|] eqn:Ha.
  - destruct (E a r Ha) as (r' & Hr & I & _). now rewrite Hr.
  - assert (H : nth_error m' a = None)
      by (apply nth_error_None; rewrite L; now apply nth_error_None).
    now rewrite H.
Qed.

Lemma node_of_items (m m' : memory) (s : shape) :
  (forall a, item_at m' a = item_at m a) -> node_of m' s = node_of m s.
Proof.
  intros I. revert s.
  fix IH 1. intros [a k]. cbn [node_of]. rewrite I. f_equal.
  induction k as [|c k IHk]; [reflexivity|]. cbn [map]. now rewrite IH, IHk.
Qed.

Lemma nodes_evolves (m m' : memory) (nexts childs : list nat) (l : list shape) :
  evolves m m' nexts childs -> nodes m' l = nodes m l.
Proof.
  intros E. unfold nodes. apply map_ext. intros s. apply node_of_items.
  intros a. now apply (evolves_item_at m m' nexts childs).
Qed.

Lemma segment_evolves (m m' : memory) (nexts childs : list nat)
  (h e : option nat) (l : list shape) :
  segment m h l e -> evolves m m' nexts childs ->
  (forall a, In a (addrs l) -> ~ In a nexts /\ ~ In a childs) ->
  segment m' h l e.
Proof.
  intros S E D. apply (segment_frame m); [exact S|].
  intros a Ha. destruct (D a Ha). now apply (evolves_same m m' nexts childs).
Qed.

(** [p->next = rest] changes the [next] of [p] and nothing else. *)
Lemma evolves_set_next (m : memory) (a : nat) (rest : option nat) :
  evolves m (poke m a (Heap.set_next rest)) [a] [].
Proof.
  split; [apply poke_length|]. intros b r Hb. rewrite nth_error_poke.
  destruct (Nat.eqb_spec b a) as [->|N].
  - rewrite Hb. eexists. split; [reflexivity|]. repeat split.
    intros H. exfalso. apply H. now left.
  - exists r. repeat split; assumption || reflexivity.
Qed.

Lemma evolves_set_children (m : memory) (a : nat) (c : option nat) :
  evolves m (poke m a (Heap.set_children c)) [] [a].
Proof.
  split; [apply poke_length|]. intros b r Hb. rewrite nth_error_poke.
  destruct (Nat.eqb_spec b a) as [->|N].
  - rewrite Hb. eexists. split; [reflexivity|]. repeat split.
    intros H. exfalso. apply H. now left.
  - exists r. repeat split; assumption || reflexivity.
Qed.

Lemma name_node_of (m : memory) (a : nat) (k : list shape) (r : s_node) :
  nth_error m a = Some r -> name_of (node_of m (Shape a k)) = name (p_item r).
Proof. intros H. unfold name_of. cbn [node_of item]. unfold item_at. now rewrite H. Qed.

Lemma tops_cons (a : nat) (k rest : list shape) :
  tops (Shape a k :: rest) = a :: tops rest.
Proof. reflexivity. Qed.

Lemma tops_app (l1 l2 : list shape) : tops (l1 ++ l2) = tops l1 ++ tops l2.
Proof. apply map_app. Qed.

Lemma addrs_nil : addrs [] = [].
Proof. reflexivity. Qed.

Lemma tops_nil : tops [] = [].
Proof. reflexivity. Qed.

Lemma tops_occ (l : list shape) (x : nat) : (occ (tops l) x <= occ (addrs l) x)%nat.
Proof.
  induction l as [|[a k] l IH]; [reflexivity|].
  rewrite tops_cons, addrs_cons, !occ_cons, occ_app. lia.
Qed.

(** Facts about addresses that stand in lists without repetition are
    settled by counting. *)
Ltac occ_shapes :=
  repeat match goal with
         | H : @Permutation shape ?l ?l' |- _ =>
             lazymatch goal with
             | _ : Permutation (addrs l) (addrs l') |- _ => fail
             | _ => pose proof (addrs_perm l l' H); pose proof (tops_perm l l' H)
             end
         end;
  repeat (rewrite addrs_cons in * || rewrite addrs_app in * ||
          rewrite tops_cons in * || rewrite tops_app in * ||
          rewrite addrs_nil in * || rewrite tops_nil in *);
  repeat match goal with
         | _ : context [tops ?l] |- _ =>
             lazymatch goal with
             | _ : forall x, (occ (tops l) x <= occ (addrs l) x)%nat |- _ => fail
             | _ => pose proof (tops_occ l)
             end
         | |- context [tops ?l] =>
             lazymatch goal with
             | _ : forall x, (occ (tops l) x <= occ (addrs l) x)%nat |- _ => fail
             | _ => pose proof (tops_occ l)
             end
         end.

Ltac occ_hyps :=
  repeat match goal with
         | H : NoDup _ |- _ => rewrite nodup_occ in H
         | H : @Permutation nat _ _ |- _ => rewrite perm_occ in H
         | H : In _ _ |- _ => rewrite in_occ in H
         | H : ~ In _ _ |- _ => rewrite not_in_occ in H
         end.

Ltac occ_inst :=
  repeat match goal with
         | x : nat |- _ =>
             match goal with
             | H : forall a : nat, _ |- _ =>
                 let T := type of (H x) in
                 lazymatch T with
                 | (_ <= _)%nat => idtac
                 | @eq nat _ _ => idtac
                 end;
                 lazymatch goal with
                 | _ : T |- _ => fail
                 | _ => pose proof (H x)
                 end
             end
         end.

Ltac occ_split :=
  repeat match goal with
         | _ : context [(?a =? ?b)%nat] |- _ =>
             destruct (Nat.eqb_spec a b); try subst a
         | |- context [(?a =? ?b)%nat] =>
             destruct (Nat.eqb_spec a b); try subst a
         end.

Ltac occs :=
  intros;
  repeat match goal with
         | |- NoDup _ => rewrite nodup_occ; intros
         | |- ~ In _ _ => rewrite not_in_occ
         | |- In _ _ => rewrite in_occ
         | |- _ <> _ => intros ?
         | |- ~ _ => intros ?
         end;
  subst;
  occ_shapes; occ_hyps; occ_inst;
  repeat (rewrite occ_app in * || rewrite occ_cons in * || rewrite occ_nil in *);
  occ_split; lia.

(** ** [merge] on pointers *)

Lemma merge_refines (fuel : nat) :
  forall (m : memory) (h1 h2 : option nat) (l1 l2 : list shape),
    realises m h1 l1 -> realises m h2 l2 ->
    NoDup (addrs l1 ++ addrs l2) ->
    (length l1 + length l2 < fuel)%nat ->
    exists m' h' l',
      Heap.merge fuel m h1 h2 = Some (Ok (m', h')) /\
      realises m' h' l' /\
      Permutation l' (l1 ++ l2) /\
      nodes m l' = merge (nodes m l1) (nodes m l2) /\
      evolves m m' (tops l1 ++ tops l2) [].
Proof.
  induction fuel as [|fuel IH]; intros m h1 h2 l1 l2 R1 R2 ND L; [lia|].
  destruct l1 as [|[a1 k1] rest1].
  { apply realises_nil in R1. subst h1. exists m, h2, l2. cbn [Heap.merge app].
    split; [reflexivity|]. split; [exact R2|]. split; [reflexivity|]. split.
    - change (nodes m []) with (@nil node). now rewrite merge_nil_l.
    - apply (evolves_weaken m m [] []); [apply evolves_refl | intros x [] | intros x []]. }
  destruct l2 as [|[a2 k2] rest2].
  { apply realises_nil in R2. subst h2.
    pose proof (segment_head _ _ _ _ _ R1) as H1. cbn [addr] in H1. subst h1.
    exists m, (Some a1), (Shape a1 k1 :: rest1). cbn [Heap.merge].
    split; [reflexivity|]. split; [exact R1|]. split; [|split].
    - now rewrite app_nil_r.
    - change (nodes m []) with (@nil node). now rewrite merge_nil_r.
    - apply (evolves_weaken m m [] []); [apply evolves_refl | intros x [] | intros x []]. }
  inversion R1 as [|a1' r1 k1' rest1' e1 Ha1 Sk1 Sr1]; subst.
  inversion R2 as [|a2' r2 k2' rest2' e2 Ha2 Sk2 Sr2]; subst.
  cbn [Heap.merge Heap.load]. rewrite Ha1, Ha2. cbn [Heap.bind Heap.ret].
  cbn [nodes map]. fold (nodes m rest1). fold (nodes m rest2).
  rewrite merge_cons, (name_node_of m a1 k1 r1 Ha1), (name_node_of m a2 k2 r2 Ha2).
  destruct (strcmp (name (p_item r1)) (name (p_item r2)) <? 0).
  - (* the head of the first chain goes first *)
    destruct (IH m (p_next r1) (Some a2) rest1 (Shape a2 k2 :: rest2) Sr1 R2
                ltac:(occs) ltac:(cbn [length] in *; lia))
      as (m1 & hr & lr & M & Rr & Pr & Nr & Er).
    rewrite M. cbn [Heap.bind Heap.ret Heap.store].
    assert (Ha1' : nth_error m1 a1 = Some r1).
    { rewrite (evolves_same m m1 _ [] a1 Er); [exact Ha1 | occs | intros []]. }
    exists (poke m1 a1 (Heap.set_next hr)), (Some a1), (Shape a1 k1 :: lr).
    split; [reflexivity|]. split; [|split; [|split]].
    + econstructor.
      * rewrite nth_error_poke, Nat.eqb_refl, Ha1'. reflexivity.
      * cbn [Heap.set_next p_children].
        apply (segment_frame m); [exact Sk1|]. intros b Hb.
        rewrite nth_error_poke.
        destruct (Nat.eqb_spec b a1) as [->|_]; [exfalso; occs|].
        apply (evolves_same m m1 _ [] b Er); [occs | intros []].
      * cbn [Heap.set_next p_next].
        apply (segment_frame m1); [exact Rr|]. intros b Hb.
        rewrite nth_error_poke.
        destruct (Nat.eqb_spec b a1) as [->|_]; [exfalso; occs | reflexivity].
    + cbn [app]. now constructor.
    + cbn [nodes map]. fold (nodes m lr). rewrite Nr. reflexivity.
    + apply (evolves_trans m m1).
      * apply (evolves_weaken _ _ _ _ _ _ Er); [|intros x []].
        cbn [tops map app]. intros x Hx. right. exact Hx.
      * apply (evolves_weaken _ _ [a1] []); [apply evolves_set_next | | intros x []].
        intros x [<-|[]]. now left.
  - (* the head of the second chain goes first *)
    destruct (IH m (Some a1) (p_next r2) (Shape a1 k1 :: rest1) rest2 R1 Sr2
                ltac:(occs) ltac:(cbn [length] in *; lia))
      as (m1 & hr & lr & M & Rr & Pr & Nr & Er).
    rewrite M. cbn [Heap.bind Heap.ret Heap.store].
    assert (Ha2' : nth_error m1 a2 = Some r2).
    { rewrite (evolves_same m m1 _ [] a2 Er); [exact Ha2 | occs | intros []]. }
    exists (poke m1 a2 (Heap.set_next hr)), (Some a2), (Shape a2 k2 :: lr).
    split; [reflexivity|]. split; [|split; [|split]].
    + econstructor.
      * rewrite nth_error_poke, Nat.eqb_refl, Ha2'. reflexivity.
      * cbn [Heap.set_next p_children].
        apply (segment_frame m); [exact Sk2|]. intros b Hb.
        rewrite nth_error_poke.
        destruct (Nat.eqb_spec b a2) as [->|_]; [exfalso; occs|].
        apply (evolves_same m m1 _ [] b Er); [occs | intros []].
      * cbn [Heap.set_next p_next].
        apply (segment_frame m1); [exact Rr|]. intros b Hb.
        rewrite nth_error_poke.
        destruct (Nat.eqb_spec b a2) as [->|_]; [exfalso; occs | reflexivity].
    + cbn [app]. rewrite Pr. cbn [app].
      apply (Permutation_middle (Shape a1 k1 :: rest1) rest2 (Shape a2 k2)).
    + cbn [nodes map]. fold (nodes m lr). rewrite Nr. reflexivity.
    + apply (evolves_trans m m1).
      * apply (evolves_weaken _ _ _ _ _ _ Er); [|intros x []].
        intros x Hx. apply in_app_or in Hx. apply in_or_app.
        destruct Hx as [Hx|Hx]; [now left | right; now right].
      * apply (evolves_weaken _ _ [a2] []); [apply evolves_set_next | | intros x []].
        intros x [<-|[]]. apply in_or_app. right. now left.
Qed.

(** ** [merge_sort] on pointers *)

Lemma split_cut (head : list node) :
  (2 <= length head)%nat ->
  split head = (firstn (cut_point (length head)) head,
                skipn (cut_point (length head)) head).
Proof.
  intros L. pose proof (split_walk_app head (tl head)) as A.
  fold (split head) in A. pose proof (split_back_length head L) as B.
  destruct (split head) as [front back]. cbn [fst snd] in *.
  assert (Lf : length front = cut_point (length head)).
  { apply (f_equal (@length node)) in A. rewrite length_app in A.
    unfold cut_point. destruct (length head <=? 3)%nat; lia. }
  rewrite <- Lf, <- A. now rewrite firstn_length_app, skipn_app, Nat.sub_diag, skipn_all.
Qed.

Lemma merge_sort_at_cut (head : list node) :
  (2 <= length head)%nat ->
  merge_sort head =
  merge (merge_sort (firstn (cut_point (length head)) head))
        (merge_sort (skipn (cut_point (length head)) head)).
Proof.
  intros L. destruct head as [|a [|b rest]]; try (cbn [length] in L; lia).
  simp merge_sort. now rewrite split_cut by exact L.
Qed.

Lemma ptr_cons (s : shape) (l : list shape) (i : nat) :
  ptr (s :: l) (S i) = ptr l i.
Proof. reflexivity. Qed.

Lemma ptr_end (l : list shape) (i : nat) : (length l <= i)%nat -> ptr l i = None.
Proof.
  intros L. unfold ptr. apply nth_error_None in L. now rewrite L.
Qed.

Lemma ptr_some (l : list shape) (i : nat) :
  (i < length l)%nat -> exists a, ptr l i = Some a.
Proof.
  intros L. unfold ptr. destruct (nth_error l i) as [s|] eqn:E.
  - now exists (addr s).
  - apply nth_error_None in E. lia.
Qed.

(** The records of a chain: each points to the next. *)
Lemma realises_ptr (m : memory) (l : list shape) :
  forall (h : option nat),
    realises m h l ->
    h = ptr l 0 /\
    forall i, (i < length l)%nat ->
      exists r, Heap.load m (ptr l i) = Some (Ok r) /\ p_next r = ptr l (S i).
Proof.
  induction l as [|s l IH]; intros h R.
  - apply realises_nil in R. subst. split; [reflexivity|]. intros i L. cbn in L. lia.
  - inversion R as [|a r k rest e Ha Sk Sr]; subst.
    destruct (IH _ Sr) as [E N]. split; [reflexivity|].
    intros [|i] L.
    + exists r. rewrite ptr_cons. split; [|exact E].
      unfold ptr. cbn [nth_error option_map addr Heap.load]. now rewrite Ha.
    + rewrite !ptr_cons. apply N. cbn [length] in L. lia.
Qed.

Lemma walk_later (m : memory) (l : list shape) (h : option nat) :
  realises m h l ->
  forall (fuel i : nat),
    (i + 2 <= length l)%nat -> (length l - i < fuel)%nat ->
    Heap.walk fuel m (ptr l i) (ptr l (i + 2)) =
    Some (Ok (ptr l (Nat.max i (length l - 3)))).
Proof.
  intros R. destruct (realises_ptr m l h R) as [_ N].
  induction fuel as [|fuel IH]; intros i L F; [lia|].
  cbn [Heap.walk].
  destruct (Nat.lt_ge_cases (i + 2) (length l)) as [Lt|Ge].
  - destruct (N (i + 2)%nat Lt) as (r2 & L2 & N2).
    destruct (ptr_some l (i + 2) Lt) as (a2 & E2). rewrite E2 in *.
    rewrite L2. cbn [Heap.bind].
    destruct (Nat.lt_ge_cases (i + 3) (length l)) as [Lt3|Ge3].
    + destruct (ptr_some l (S (i + 2)) ltac:(lia)) as (a3 & E3).
      rewrite N2, E3.
      destruct (N i ltac:(lia)) as (r0 & L0 & N0). rewrite L0. cbn [Heap.bind].
      destruct (N (S i) ltac:(lia)) as (r1 & L1 & N1). rewrite N0, L1.
      cbn [Heap.bind]. rewrite N1.
      replace (S (S i)) with (i + 2)%nat by lia. rewrite E2, L2. cbn [Heap.bind].
      rewrite N2.
      replace (S (i + 2)) with (S i + 2)%nat by lia.
      rewrite IH by lia. do 3 f_equal. lia.
    + rewrite N2, ptr_end by lia. unfold Heap.ret. do 3 f_equal. lia.
  - rewrite (ptr_end l (i + 2)) by lia. unfold Heap.ret. do 3 f_equal. lia.
Qed.

Lemma walk_first (m : memory) (l : list shape) (h : option nat) (fuel : nat) :
  realises m h l -> (2 <= length l)%nat -> (length l < fuel)%nat ->
  Heap.walk fuel m (ptr l 0) (ptr l 1) =
  Some (Ok (ptr l (cut_point (length l) - 1))).
Proof.
  intros R L F. destruct (realises_ptr m l h R) as [_ N].
  destruct fuel as [|fuel]; [lia|]. cbn [Heap.walk].
  destruct (ptr_some l 1 ltac:(lia)) as (a1 & E1).
  destruct (N 1%nat ltac:(lia)) as (r1 & L1 & N1).
  rewrite E1 in *. rewrite L1. cbn [Heap.bind]. rewrite N1.
  destruct (Nat.lt_ge_cases 2 (length l)) as [Lt|Ge].
  - destruct (ptr_some l 2 Lt) as (a2 & E2). rewrite E2.
    destruct (N 0%nat ltac:(lia)) as (r0 & L0 & N0). rewrite L0. cbn [Heap.bind].
    rewrite N0, E1, L1. cbn [Heap.bind]. rewrite N1, E2.
    destruct (N 2%nat Lt) as (r2 & L2 & N2). rewrite E2 in L2. rewrite L2.
    cbn [Heap.bind]. rewrite N2, <- E1.
    pose proof (walk_later m l h R fuel 1 ltac:(lia) ltac:(lia)) as W.
    cbn [Nat.add] in W. rewrite W. do 3 f_equal.
    unfold cut_point. destruct (Nat.leb_spec (length l) 3); lia.
  - rewrite ptr_end by lia. unfold Heap.ret. do 3 f_equal.
    unfold cut_point. destruct (Nat.leb_spec (length l) 3); lia.
Qed.

(** Cutting a chain behind one of its nodes. *)
Lemma realises_cut (m : memory) (front back : list shape) (a : nat)
  (k : list shape) (h : option nat) :
  realises m h (front ++ Shape a k :: back) ->
  NoDup (addrs (front ++ Shape a k :: back)) ->
  exists r,
    nth_error m a = Some r /\
    realises (poke m a (Heap.set_next None)) h (front ++ [Shape a k]) /\
    realises (poke m a (Heap.set_next None)) (p_next r) back.
Proof.
  intros R ND. apply segment_split in R. destruct R as (mid & S1 & S2).
  inversion S2 as [|a' r k' rest e Ha Sk Sr]; subst.
  exists r. split; [exact Ha|]. split.
  - apply (segment_app _ _ _ _ (Some a)).
    + apply (segment_frame m); [exact S1|]. intros b Hb.
      rewrite nth_error_poke. destruct (Nat.eqb_spec b a) as [->|_]; [|reflexivity].
      exfalso. occs.
    + econstructor.
      * rewrite nth_error_poke, Nat.eqb_refl, Ha. reflexivity.
      * cbn [Heap.set_next p_children].
        apply (segment_frame m); [exact Sk|]. intros b Hb.
        rewrite nth_error_poke. destruct (Nat.eqb_spec b a) as [->|_]; [|reflexivity].
        exfalso. occs.
      * cbn [Heap.set_next p_next]. constructor.
  - apply (segment_frame m); [exact Sr|]. intros b Hb.
    rewrite nth_error_poke. destruct (Nat.eqb_spec b a) as [->|_]; [|reflexivity].
    exfalso. occs.
Qed.

Lemma nodes_app (m : memory) (l1 l2 : list shape) :
  nodes m (l1 ++ l2) = nodes m l1 ++ nodes m l2.
Proof. apply map_app. Qed.

Lemma nodes_length (m : memory) (l : list shape) : length (nodes m l) = length l.
Proof. apply length_map. Qed.

(** A chain of two nodes or more, cut where [merge_sort] cuts it. *)
Lemma cut_chain (l : list shape) :
  (2 <= length l)%nat ->
  exists front a k back,
    l = front ++ Shape a k :: back /\
    length (front ++ [Shape a k]) = cut_point (length l) /\
    (length back < length l)%nat /\ (length (front ++ [Shape a k]) < length l)%nat.
Proof.
  intros L.
  assert (C : (1 <= cut_point (length l) < length l)%nat).
  { unfold cut_point. destruct (Nat.leb_spec (length l) 3); lia. }
  destruct (nth_error l (cut_point (length l) - 1)) as [[a k]|] eqn:E;
    [|apply nth_error_None in E; lia].
  pose proof (cut_at l _ _ E) as D.
  exists (firstn (cut_point (length l) - 1) l), a, k,
         (skipn (S (cut_point (length l) - 1)) l).
  split; [exact D|]. rewrite length_app, length_firstn, length_skipn.
  cbn [length]. lia.
Qed.

Lemma evolves_step (m1 m2 m3 : memory) (n1 n2 nexts c1 c2 childs : list nat) :
  evolves m1 m2 n1 c1 -> evolves m2 m3 n2 c2 ->
  incl n1 nexts -> incl n2 nexts -> incl c1 childs -> incl c2 childs ->
  evolves m1 m3 nexts childs.
Proof.
  intros E1 E2 I1 I2 J1 J2. apply (evolves_trans m1 m2).
  - now apply (evolves_weaken _ _ n1 c1).
  - now apply (evolves_weaken _ _ n2 c2).
Qed.

Ltac incls :=
  let x := fresh "x" in
  let H := fresh "H" in
  intros x H; occs.

Lemma merge_sort_refines (left_first : bool) (fuel : nat) :
  forall (m : memory) (h : option nat) (l : list shape),
    realises m h l -> NoDup (addrs l) -> (length l + 2 <= fuel)%nat ->
    exists m' h' l',
      Heap.merge_sort left_first fuel m h = Some (Ok (m', h')) /\
      realises m' h' l' /\
      Permutation l' l /\
      nodes m l' = merge_sort (nodes m l) /\
      evolves m m' (tops l) [].
Proof.
  induction fuel as [|fuel IH]; intros m h l R ND F; [lia|].
  destruct l as [|s1 [|s2 rest]].
  - apply realises_nil in R. subst h. exists m, None, [].
    cbn [Heap.merge_sort]. split; [reflexivity|]. split; [constructor|].
    split; [reflexivity|]. split; [reflexivity | apply evolves_refl].
  - inversion R as [|a r k rest' e Ha Sk Sr]; subst.
    apply realises_nil in Sr.
    exists m, (Some a), [Shape a k].
    cbn [Heap.merge_sort Heap.load]. rewrite Ha. cbn [Heap.bind Heap.ret].
    rewrite Sr. split; [reflexivity|]. split; [exact R|].
    split; [reflexivity|]. split; [reflexivity|].
    apply (evolves_weaken m m [] []); [apply evolves_refl | intros x [] | intros x []].
  - remember (s1 :: s2 :: rest) as l eqn:El.
    assert (L2 : (2 <= length l)%nat) by (subst l; cbn [length]; lia).
    destruct (realises_ptr m l h R) as [Eh N].
    destruct (N 0%nat ltac:(lia)) as (r0 & L0 & N0).
    destruct (ptr_some l 1 ltac:(lia)) as (a1 & E1).
    destruct (ptr_some l 0 ltac:(lia)) as (a0 & E0).
    pose proof (walk_first m l h fuel R L2 ltac:(lia)) as W.
    rewrite E0 in Eh, L0, W. rewrite E1 in W. subst h.
    cbn [Heap.merge_sort]. rewrite L0.
    cbn [Heap.bind]. rewrite N0, E1, W. cbn [Heap.bind].
    destruct (cut_chain l L2) as (front & a & k & back & D & Lf & Lb & Lf').
    assert (P : ptr l (cut_point (length l) - 1) = Some a).
    { rewrite <- Lf, D. unfold ptr. rewrite length_app. cbn [length].
      replace (length front + 1 - 1)%nat with (length front) by lia.
      now rewrite nth_error_app2, Nat.sub_diag by lia. }
    rewrite P. clear N r0 L0 N0 E1 E0 a1 P W.
    rewrite D in R, ND.
    destruct (realises_cut m front back a k _ R ND) as (r & Ha & Rf & Rb).
    cbn [Heap.load]. rewrite Ha. cbn [Heap.bind Heap.ret Heap.store].
    set (m1 := poke m a (Heap.set_next None)) in *.
    assert (E01 : evolves m m1 [a] []) by apply evolves_set_next.
    assert (U : merge_sort (nodes m l) =
                merge (merge_sort (nodes m (front ++ [Shape a k])))
                      (merge_sort (nodes m back))).
    { rewrite merge_sort_at_cut by (rewrite nodes_length; lia).
      rewrite nodes_length, <- Lf, D.
      replace (front ++ Shape a k :: back) with ((front ++ [Shape a k]) ++ back)
        by (now rewrite <- app_assoc).
      rewrite nodes_app, <- (nodes_length m (front ++ [Shape a k])).
      now rewrite firstn_length_app, skipn_app, Nat.sub_diag, skipn_all. }
    clear El. subst l.
    assert (LL : (length (front ++ [Shape a k]) + length back + 2 <= S fuel)%nat)
      by (rewrite !length_app in *; cbn [length] in *; lia).
    destruct left_first.
    + destruct (IH m1 _ (front ++ [Shape a k]) Rf ltac:(occs) ltac:(lia))
        as (m2 & one & l_one & M1 & R1 & P1 & N1 & E12).
      rewrite M1. cbn [Heap.bind].
      assert (Rb2 : realises m2 (p_next r) back).
      { apply (segment_evolves m1 m2 _ [] _ _ _ Rb E12).
        intros b Hb. split; [occs | intros []]. }
      destruct (IH m2 (p_next r) back Rb2 ltac:(occs) ltac:(lia))
        as (m3 & two & l_two & M2 & R2 & P2 & N2 & E23).
      rewrite M2. cbn [Heap.bind].
      assert (R1' : realises m3 one l_one).
      { apply (segment_evolves m2 m3 _ [] _ _ _ R1 E23).
        intros b Hb. split; [occs | intros []]. }
      destruct (merge_refines fuel m3 one two l_one l_two R1' R2 ltac:(occs)
                  ltac:(rewrite (Permutation_length P1), (Permutation_length P2);
                        lia))
        as (m' & h' & l' & M & R' & P' & N' & E34).
      exists m', h', l'. split; [exact M|]. split; [exact R'|].
      assert (E02 : evolves m m2 (tops (front ++ Shape a k :: back)) []).
      { apply (evolves_step m m1 m2 _ _ _ _ _ _ E01 E12);
          incls. }
      assert (E03 : evolves m m3 (tops (front ++ Shape a k :: back)) []).
      { apply (evolves_step m m2 m3 _ _ _ _ _ _ E02 E23);
          incls. }
      split; [|split].
      * rewrite P', P1, P2, <- app_assoc. reflexivity.
      * rewrite U.
        rewrite <- (nodes_evolves m m3 _ _ l' E03), N'.
        rewrite (nodes_evolves m m3 _ _ l_one E03), (nodes_evolves m m3 _ _ l_two E03).
        rewrite <- (nodes_evolves m m1 _ _ l_one E01), N1.
        rewrite <- (nodes_evolves m m2 _ _ l_two E02), N2.
        now rewrite (nodes_evolves m m1 _ _ _ E01), (nodes_evolves m m2 _ _ _ E02).
      * apply (evolves_step m m3 m' _ _ _ _ _ _ E03 E34);
          incls.
    + destruct (IH m1 (p_next r) back Rb ltac:(occs) ltac:(lia))
        as (m2 & two & l_two & M2 & R2 & P2 & N2 & E12).
      rewrite M2. cbn [Heap.bind].
      assert (Rf2 : realises m2 (Some a0) (front ++ [Shape a k])).
      { apply (segment_evolves m1 m2 _ [] _ _ _ Rf E12).
        intros b Hb. split; [occs | intros []]. }
      destruct (IH m2 _ (front ++ [Shape a k]) Rf2 ltac:(occs) ltac:(lia))
        as (m3 & one & l_one & M1 & R1 & P1 & N1 & E23).
      rewrite M1. cbn [Heap.bind].
      assert (R2' : realises m3 two l_two).
      { apply (segment_evolves m2 m3 _ [] _ _ _ R2 E23).
        intros b Hb. split; [occs | intros []]. }
      destruct (merge_refines fuel m3 one two l_one l_two R1 R2' ltac:(occs)
                  ltac:(rewrite (Permutation_length P1), (Permutation_length P2);
                        lia))
        as (m' & h' & l' & M & R' & P' & N' & E34).
      exists m', h', l'. split; [exact M|]. split; [exact R'|].
      assert (E02 : evolves m m2 (tops (front ++ Shape a k :: back)) []).
      { apply (evolves_step m m1 m2 _ _ _ _ _ _ E01 E12);
          incls. }
      assert (E03 : evolves m m3 (tops (front ++ Shape a k :: back)) []).
      { apply (evolves_step m m2 m3 _ _ _ _ _ _ E02 E23);
          incls. }
      split; [|split].
      * rewrite P', P1, P2, <- app_assoc. reflexivity.
      * rewrite U.
        rewrite <- (nodes_evolves m m3 _ _ l' E03), N'.
        rewrite (nodes_evolves m m3 _ _ l_one E03), (nodes_evolves m m3 _ _ l_two E03).
        rewrite <- (nodes_evolves m m2 _ _ l_one E02), N1.
        rewrite <- (nodes_evolves m m1 _ _ l_two E01), N2.
        now rewrite (nodes_evolves m m1 _ _ _ E01), (nodes_evolves m m2 _ _ _ E02).
      * apply (evolves_step m m3 m' _ _ _ _ _ _ E03 E34);
          incls.
Qed.

(** ** [sort_list] on pointers *)

Lemma nodes_in_cons (a : nat) (k rest : list shape) :
  nodes_in (Shape a k :: rest) = S (nodes_in k + nodes_in rest).
Proof. unfold nodes_in. now rewrite addrs_cons, <- length_app. Qed.

Lemma length_le_nodes_in (l : list shape) : (length l <= nodes_in l)%nat.
Proof.
  induction l as [|[a k] rest IH]; [apply Nat.le_refl|].
  rewrite nodes_in_cons. cbn [length]. lia.
Qed.

Lemma realises_null_iff (m : memory) (h : option nat) (l : list shape) :
  realises m h l -> (h = None <-> l = []).
Proof.
  intros R. split; intros E; subst.
  - now apply (realises_null m).
  - now apply (realises_nil m).
Qed.

Lemma sort_children_eq (it : playlist_item) (ch : list node) :
  sort_children (Node it ch) = Node it (sort_list ch).
Proof. destruct ch; reflexivity. Qed.

Lemma nodes_cons (m : memory) (a : nat) (k rest : list shape) :
  nodes m (Shape a k :: rest) = Node (item_at m a) (nodes m k) :: nodes m rest.
Proof. reflexivity. Qed.

(** The [for] loop of [sort_list], given that the calls of [sort_list] on
    the children do what [sort_list] on lists does. *)
Lemma sort_children_loop_refines
  (sort : memory -> option nat -> Heap.run (memory * option nat)) (f : nat) :
  (forall m h k,
      realises m h k -> NoDup (addrs k) -> (nodes_in k + 3 <= f)%nat ->
      exists m' h' k',
        sort m h = Some (Ok (m', h')) /\ realises m' h' k' /\
        Permutation (addrs k') (addrs k) /\
        nodes m' k' = sort_list (nodes m k) /\
        evolves m m' (addrs k) (addrs k)) ->
  forall (l : list shape) (steps : nat) (m : memory) (n : option nat),
    realises m n l -> NoDup (addrs l) -> (length l < steps)%nat ->
    (nodes_in l + 2 <= f)%nat ->
    exists m' l',
      Heap.sort_children_loop sort steps m n = Some (Ok m') /\
      realises m' n l' /\
      Permutation (addrs l') (addrs l) /\
      nodes m' l' = map sort_children (nodes m l) /\
      evolves m m' (addrs l) (addrs l).
Proof.
  intros Hs. induction l as [|[a k] rest IH]; intros steps m n R ND L F.
  - apply realises_nil in R. subst n. destruct steps as [|steps]; [cbn in L; lia|].
    exists m, []. cbn [Heap.sort_children_loop].
    split; [reflexivity|]. split; [constructor|]. split; [reflexivity|].
    split; [reflexivity | apply evolves_refl].
  - inversion R as [|a' r k' rest' e Ha Sk Sr]; subst.
    destruct steps as [|steps]; [cbn in L; lia|].
    rewrite nodes_in_cons in F. cbn [length] in L.
    cbn [Heap.sort_children_loop Heap.load]. rewrite Ha. cbn [Heap.bind Heap.ret].
    destruct (p_children r) as [c|] eqn:Ec.
    + destruct (Hs m (Some c) k Sk ltac:(occs) ltac:(lia))
        as (m1 & c' & k' & S1 & R1 & P1 & N1 & E1).
      rewrite S1. cbn [Heap.bind Heap.ret Heap.store].
      set (m2 := poke m1 a (Heap.set_children c')).
      assert (E12 : evolves m1 m2 [] [a]) by apply evolves_set_children.
      assert (E02 : evolves m m2 (addrs k) (a :: addrs k)).
      { apply (evolves_step m m1 m2 _ _ _ _ _ _ E1 E12); incls. }
      destruct E1 as [_ E1]. destruct (E1 a r Ha) as (r1 & H1 & _ & _ & Nx1 & _).
      specialize (Nx1 ltac:(occs)).
      assert (H2 : nth_error m2 a = Some (Heap.set_children c' r1)).
      { unfold m2. now rewrite nth_error_poke, Nat.eqb_refl, H1. }
      rewrite H2. cbn [Heap.bind Heap.ret].
      change (p_next (Heap.set_children c' r1)) with (p_next r1). rewrite Nx1.
      assert (R2 : realises m2 (p_next r) rest).
      { apply (segment_evolves m m2 _ _ _ _ _ Sr E02).
        intros b Hb. split; occs. }
      destruct (IH steps m2 (p_next r) R2 ltac:(occs) ltac:(lia) ltac:(lia))
        as (m3 & rest' & S3 & R3 & P3 & N3 & E3).
      exists m3, (Shape a k' :: rest'). split; [exact S3|].
      assert (E03 : evolves m m3 (addrs (Shape a k :: rest))
                      (addrs (Shape a k :: rest))).
      { apply (evolves_step m m2 m3 _ _ _ _ _ _ E02 E3); incls. }
      split; [|split; [|split]].
      * destruct (proj2 E3 a _ H2) as (r3 & H3 & _ & _ & Nx3 & Ch3).
        specialize (Nx3 ltac:(occs)). specialize (Ch3 ltac:(occs)).
        change (p_next (Heap.set_children c' r1)) with (p_next r1) in Nx3.
        change (p_children (Heap.set_children c' r1)) with c' in Ch3.
        apply (segment_cons m3 a r3); [exact H3 | |].
        -- rewrite Ch3.
           apply (segment_evolves m2 m3 (addrs rest) (addrs rest)).
           ++ apply (segment_frame m1); [exact R1|]. intros b Hb.
              unfold m2. rewrite nth_error_poke.
              destruct (Nat.eqb_spec b a) as [->|_]; [|reflexivity].
              exfalso. occs.
           ++ exact E3.
           ++ intros b Hb. split; occs.
        -- rewrite Nx3, Nx1. exact R3.
      * rewrite !addrs_cons. constructor. now apply Permutation_app.
      * rewrite !nodes_cons. cbn [map]. rewrite sort_children_eq. f_equal.
        -- f_equal.
           ++ apply (evolves_item_at m m3 _ _ a E03).
           ++ rewrite <- N1. apply (nodes_evolves m1 m3 (addrs rest ++ [a]) (addrs rest ++ [a])).
              apply (evolves_step m1 m2 m3 _ _ _ _ _ _ E12 E3); incls.
        -- rewrite N3. f_equal. apply (nodes_evolves m m2 _ _ rest E02).
      * exact E03.
    + apply realises_null in Sk. subst k.
      cbn [Heap.bind Heap.ret Heap.load]. rewrite Ha. cbn [Heap.bind Heap.ret].
      destruct (IH steps m (p_next r) Sr ltac:(occs) ltac:(lia) ltac:(lia))
        as (m3 & rest' & S3 & R3 & P3 & N3 & E3).
      exists m3, (Shape a [] :: rest'). split; [exact S3|].
      split; [|split; [|split]].
      * destruct (proj2 E3 a _ Ha) as (r3 & H3 & _ & _ & Nx3 & Ch3).
        specialize (Nx3 ltac:(occs)). specialize (Ch3 ltac:(occs)).
        apply (segment_cons m3 a r3); [exact H3 | |].
        -- rewrite Ch3, Ec. constructor.
        -- rewrite Nx3. exact R3.
      * rewrite !addrs_cons. constructor. now apply Permutation_app.
      * rewrite !nodes_cons. cbn [map]. rewrite sort_children_eq. f_equal; [|exact N3].
        f_equal. apply (evolves_item_at m m3 _ _ a E3).
      * apply (evolves_weaken _ _ _ _ _ _ E3); incls.
Qed.

Lemma sort_list_refines (left_first : bool) (fuel : nat) :
  forall (m : memory) (h : option nat) (l : list shape),
    realises m h l -> NoDup (addrs l) -> (nodes_in l + 3 <= fuel)%nat ->
    exists m' h' l',
      Heap.sort_list left_first fuel m h = Some (Ok (m', h')) /\
      realises m' h' l' /\
      Permutation (addrs l') (addrs l) /\
      nodes m' l' = sort_list (nodes m l) /\
      evolves m m' (addrs l) (addrs l).
Proof.
  induction fuel as [|f IH]; intros m h l R ND F; [lia|].
  pose proof (length_le_nodes_in l) as Ll.
  cbn [Heap.sort_list].
  destruct (sort_children_loop_refines (Heap.sort_list left_first f) f IH
              l f m h R ND ltac:(lia) ltac:(lia))
    as (m1 & l1 & S1 & R1 & P1 & N1 & E1).
  rewrite S1. cbn [Heap.bind].
  assert (L1 : length l1 = length l).
  { apply (f_equal (@length node)) in N1.
    now rewrite length_map, !nodes_length in N1. }
  destruct (merge_sort_refines left_first f m1 h l1 R1 ltac:(occs) ltac:(lia))
    as (m2 & h2 & l2 & S2 & R2 & P2 & N2 & E2).
  exists m2, h2, l2. split; [exact S2|]. split; [exact R2|].
  split; [|split].
  - rewrite (addrs_perm _ _ P2). exact P1.
  - rewrite (nodes_evolves m1 m2 _ _ l2 E2), N2, N1. reflexivity.
  - apply (evolves_step m m1 m2 _ _ _ _ _ _ E1 E2); incls.
Qed.

(** ** [_flatten_list] and [free_list] on pointers *)

Lemma store_all_cat (vals1 vals2 : list Z) :
  forall (reorder : list cell) (idx : nat),
    store_all reorder idx (vals1 ++ vals2) =
    match store_all reorder idx vals1 with
    | Ok r => store_all r (idx + length vals1) vals2
    | Fault f => Fault f
    end.
Proof.
  induction vals1 as [|v vals1 IH]; intros reorder idx.
  - cbn [app store_all length]. now rewrite Nat.add_0_r.
  - cbn [app store_all length]. destruct (write reorder idx v) as [r|f]; [|reflexivity].
    rewrite IH. now rewrite Nat.add_succ_r.
Qed.

Lemma stores_nil (reorder : list cell) (idx : nat) :
  stores reorder idx [] = Heap.ret (reorder, idx).
Proof. unfold stores, Heap.ret. cbn [store_all length]. now rewrite Nat.add_0_r. Qed.

Lemma stores_cons (reorder : list cell) (idx : nat) (v : Z) (vals : list Z) :
  stores reorder idx (v :: vals) =
  Heap.bind (Heap.lift (write reorder idx v)) (fun r => stores r (S idx) vals).
Proof.
  unfold stores, Heap.bind, Heap.lift. cbn [store_all length].
  destruct (write reorder idx v) as [r|f]; [|reflexivity].
  now rewrite Nat.add_succ_r.
Qed.

Lemma stores_app (reorder : list cell) (idx : nat) (vals1 vals2 : list Z) :
  stores reorder idx (vals1 ++ vals2) =
  Heap.bind (stores reorder idx vals1) (fun '(r, i) => stores r i vals2).
Proof.
  unfold stores, Heap.bind. rewrite store_all_cat.
  destruct (store_all reorder idx vals1) as [r|f]; [|reflexivity].
  destruct (store_all r (idx + length vals1) vals2) as [r'|f']; [|reflexivity].
  now rewrite length_app, Nat.add_assoc.
Qed.

Lemma nodes_nil_iff (m : memory) (l : list shape) : nodes m l = [] <-> l = [].
Proof. destruct l; split; intros E; try reflexivity; discriminate. Qed.

Lemma _flatten_list_refines (fuel : nat) :
  forall (m : memory) (h : option nat) (l : list shape)
         (reorder : list cell) (idx : nat),
    realises m h l -> l <> [] -> (nodes_in l <= fuel)%nat ->
    Heap._flatten_list fuel m h reorder idx =
    stores reorder idx (_flatten_list (nodes m l)).
Proof.
  induction fuel as [|f IH]; intros m h l reorder idx R NE F.
  - destruct l as [|[a k] rest]; [contradiction|]. rewrite nodes_in_cons in F. lia.
  - destruct l as [|[a k] rest]; [contradiction|]. rewrite nodes_in_cons in F.
    inversion R as [|a' r k' rest' e Ha Sk Sr]; subst.
    cbn [Heap._flatten_list Heap.load]. rewrite Ha. cbn [Heap.bind Heap.ret].
    rewrite nodes_cons. unfold _flatten_list at 1. cbn [flat_map _flatten_node].
    fold (_flatten_list (nodes m rest)).
    assert (It : item_at m a = p_item r) by (unfold item_at; now rewrite Ha).
    rewrite It, <- app_comm_cons, stores_cons.
    destruct (write reorder idx (index (p_item r))) as [reorder1|flt];
      [|reflexivity].
    cbn [Heap.bind Heap.lift]. rewrite stores_app.
    assert (K : match p_children r with
                | None => Heap.ret (reorder1, S idx)
                | Some _ =>
                    Heap.bind (Heap._flatten_list f m (p_children r) reorder1 (S idx))
                      (fun '(reorder2, idx2) =>
                         Heap.bind
                           (Heap.lift (write reorder2 idx2 (end_index (p_item r))))
                           (fun reorder3 => Heap.ret (reorder3, S idx2)))
                end =
                stores reorder1 (S idx)
                  match nodes m k with
                  | [] => []
                  | _ :: _ => flat_map _flatten_node (nodes m k) ++ [end_index (p_item r)]
                  end).
    { destruct (p_children r) as [c|] eqn:Ec.
      - assert (NK : k <> []).
        { intros ->. apply realises_nil in Sk. discriminate. }
        rewrite (IH m (Some c) k reorder1 (S idx) Sk NK ltac:(lia)).
        destruct (nodes m k) as [|x xs] eqn:En;
          [apply nodes_nil_iff in En; contradiction|].
        rewrite stores_app. fold (_flatten_list (x :: xs)).
        destruct (stores reorder1 (S idx) (_flatten_list (x :: xs)))
          as [[[r2 i2]|flt]|]; cbn [Heap.bind]; try reflexivity.
        rewrite stores_cons.
        destruct (write r2 i2 (end_index (p_item r))); cbn [Heap.bind Heap.lift];
          [now rewrite stores_nil | reflexivity].
      - apply realises_null in Sk. subst k. cbn [nodes map]. now rewrite stores_nil. }
    cbn [Heap.bind Heap.lift] in K. rewrite K.
    destruct (stores reorder1 (S idx) _) as [[[r4 i4]|flt]|]; cbn [Heap.bind];
      try reflexivity.
    destruct (p_next r) as [nx|] eqn:En.
    + assert (NR : rest <> []).
      { intros ->. apply realises_nil in Sr. discriminate. }
      apply (IH m (Some nx) rest r4 i4 Sr NR). lia.
    + apply realises_null in Sr. subst rest. cbn [nodes map _flatten_list flat_map].
      now rewrite stores_nil.
Qed.

Lemma flatten_list_refines (fuel : nat) (m : memory) (h : option nat)
  (l : list shape) (reorder : list cell) :
  realises m h l -> l <> [] -> (nodes_in l <= fuel)%nat ->
  Heap.flatten_list fuel m h reorder = Some (flatten_list (nodes m l) reorder).
Proof.
  intros R NE F.
  rewrite flatten_list_eq by (now rewrite nodes_nil_iff).
  unfold Heap.flatten_list.
  rewrite (_flatten_list_refines fuel m h l reorder 0 R NE F). unfold stores.
  now destruct (store_all reorder 0 (_flatten_list (nodes m l))).
Qed.

Lemma free_list_refines (fuel : nat) :
  forall (m : memory) (h : option nat) (l : list shape),
    realises m h l -> l <> [] -> (nodes_in l <= fuel)%nat ->
    exists freed,
      Heap.free_list fuel m h = Some (Ok freed) /\ Permutation freed (addrs l).
Proof.
  induction fuel as [|f IH]; intros m h l R NE F.
  - destruct l as [|[a k] rest]; [contradiction|]. rewrite nodes_in_cons in F. lia.
  - destruct l as [|[a k] rest]; [contradiction|]. rewrite nodes_in_cons in F.
    inversion R as [|a' r k' rest' e Ha Sk Sr]; subst.
    cbn [Heap.free_list Heap.load]. rewrite Ha. cbn [Heap.bind Heap.ret].
    assert (A : exists fr, match p_next r with
                           | None => Heap.ret []
                           | Some _ => Heap.free_list f m (p_next r)
                           end = Some (Ok fr) /\ Permutation fr (addrs rest)).
    { destruct (p_next r) as [nx|] eqn:En.
      - apply (IH m (Some nx) rest Sr); [|lia].
        intros ->. apply realises_nil in Sr. discriminate.
      - apply realises_null in Sr. subst rest. exists []. split; reflexivity. }
    assert (B : exists fk, match p_children r with
                           | None => Heap.ret []
                           | Some _ => Heap.free_list f m (p_children r)
                           end = Some (Ok fk) /\ Permutation fk (addrs k)).
    { destruct (p_children r) as [c|] eqn:Ec.
      - apply (IH m (Some c) k Sk); [|lia].
        intros ->. apply realises_nil in Sk. discriminate.
      - apply realises_null in Sk. subst k. exists []. split; reflexivity. }
    destruct A as (fr & -> & Pr), B as (fk & -> & Pk). cbn [Heap.bind].
    eexists. split; [reflexivity|].
    apply perm_occ. intros x. occs.
Qed.

(** ** The memory the first loop leaves *)

Lemma chain_at_realises (fuel : nat) :
  forall (m : memory) (h : option nat) (l : list shape),
    realises m h l -> (nodes_in l < fuel)%nat -> chain_at fuel m h = nodes m l.
Proof.
  induction fuel as [|f IH]; intros m h l R F; [lia|].
  destruct l as [|[a k] rest].
  - apply realises_nil in R. now subst h.
  - rewrite nodes_in_cons in F.
    inversion R as [|a' r k' rest' e Ha Sk Sr]; subst.
    cbn [chain_at]. rewrite Ha, nodes_cons.
    rewrite (IH m _ k Sk), (IH m _ rest Sr) by lia.
    unfold item_at. now rewrite Ha.
Qed.

(** ** The pass on pointers *)

Lemma shape_at_eq (a : nat) (it : playlist_item) (ch : list node) :
  shape_at a (Node it ch) = Shape a (shapes_at (S a) ch).
Proof.
  reflexivity.
Qed.

Lemma addrs_shapes_at (l : list node) :
  forall a, addrs (shapes_at a l) = seq a (chain_size l).
Proof.
  induction l as [l IH] using forest_ind.
  induction IH as [|n l Hn Hl IHl]; intros a; [reflexivity|].
  destruct n as [it ch]. cbn [children] in Hn.
  cbn [shapes_at]. rewrite shape_at_eq, addrs_cons, chain_size_cons, node_size_eq.
  rewrite Hn, IHl. cbn [Nat.add seq]. f_equal.
  rewrite seq_app. do 2 f_equal. lia.
Qed.

Lemma layout_realises (l : list node) :
  forall (par : option nat) (a : nat) (pre post : memory),
    length pre = a ->
    realises (pre ++ layout par a false l ++ post) (head_of a l) (shapes_at a l).
Proof.
  induction l as [l IH] using forest_ind.
  induction IH as [|n l Hn Hl IHl]; intros par a pre post La.
  - constructor.
  - destruct n as [it ch]. cbn [children] in Hn.
    cbn [layout shapes_at]. rewrite layout_node_eq, shape_at_eq.
    cbn [head_of is_nil]. rewrite <- !app_assoc. cbn [app].
    eapply segment_cons.
    + apply (nth_error_middle pre _ _ a (eq_sym La)).
    + cbn [p_children].
      specialize (Hn (Some a) (S a)
                    (pre ++ [mk_s_node (match l with
                                        | [] => None
                                        | _ => Some (a + node_size (Node it ch))%nat
                                        end)
                               (match ch with [] => None | _ => Some (S a) end) par it])
                    (layout par (a + node_size (Node it ch)) false l ++ post)).
      rewrite <- !app_assoc in Hn. cbn [app] in Hn.
      replace (match ch with [] => None | _ :: _ => Some (S a) end)
        with (head_of (S a) ch) by now destruct ch.
      replace (match ch with [] => None | _ :: _ => Some (S a) end)
        with (head_of (S a) ch) in Hn by now destruct ch.
      apply Hn. rewrite length_app. cbn [length]. lia.
    + cbn [p_next].
      specialize (IHl par (a + node_size (Node it ch))%nat
                    (pre ++ mk_s_node (match l with
                                       | [] => None
                                       | _ => Some (a + node_size (Node it ch))%nat
                                       end)
                              (match ch with [] => None | _ => Some (S a) end) par it
                         :: layout (Some a) (S a) false ch)
                    post).
      rewrite <- !app_assoc in IHl. cbn [app] in IHl.
      replace (match l with [] => None | _ :: _ => Some (a + node_size (Node it ch))%nat end)
        with (head_of (a + node_size (Node it ch)) l) by now destruct l.
      replace (match l with [] => None | _ :: _ => Some (a + node_size (Node it ch))%nat end)
        with (head_of (a + node_size (Node it ch)) l) in IHl by now destruct l.
      apply IHl.
      rewrite length_app. cbn [length]. rewrite layout_length, node_size_eq. lia.
Qed.

(** The first loop leaves a forest in memory that takes up all of it. *)
Lemma first_loop_realises (pc : list entry) (s : locals) :
  first_loop pc 0 first_locals = Ok s ->
  exists l,
    realises (mem s) (l_items s) l /\
    addrs l = seq 0 (length (mem s)) /\
    length (mem s) = length (filter makes_node pc).
Proof.
  intros E.
  assert (R0 : stands_for first_locals (mk_builder [] [] 0)) by (repeat split).
  pose proof (first_loop_agrees pc 0 _ _ R0) as A. rewrite E in A.
  destruct (build_loop pc 0 (mk_builder [] [] 0)) as [st|f'];
    cbn [results_agree] in A; [|contradiction].
  destruct A as (M & I & _ & _ & _).
  exists (shapes_at 0 (items_of (parents st) (siblings st))).
  split; [|split].
  - rewrite M, state_mem_items.
    replace (l_items s) with (head_of 0 (items_of (parents st) (siblings st)))
      by (unfold head_of; now rewrite items_of_nil).
    pose proof (layout_realises (items_of (parents st) (siblings st)) None 0 [] []
                  eq_refl) as R.
    cbn [app] in R. now rewrite app_nil_r in R.
  - now rewrite addrs_shapes_at, M, state_mem_items, layout_length.
  - destruct (first_loop_nodes pc 0 first_locals s) as (L & _); try exact E.
    + split; reflexivity.
    + intros a [=].
    + exact L.
Qed.

Lemma first_loop_not_loaded (pc : list entry) :
  forall (i : nat) (s s' : locals),
    first_loop pc i s = Ok s' ->
    l_not_loaded s' = l_not_loaded s + count_not_loaded pc.
Proof.
  induction pc as [|e pc IH]; intros i s s' E.
  - cbn [first_loop] in E. injection E as <-. cbn [count_not_loaded]. lia.
  - cbn [first_loop] in E.
    destruct (first_loop_step s i e) as [s1|f] eqn:E1; [|discriminate].
    rewrite (IH _ _ _ E). cbn [count_not_loaded].
    destruct e as [[|] nm | nm | | ]; cbn [first_loop_step negb is_not_loaded] in *.
    + destruct (create_node _ _ _ _) as [m n]. injection E1 as <-.
      cbn [l_not_loaded]. lia.
    + injection E1 as <-. cbn [l_not_loaded]. lia.
    + destruct (create_node _ _ _ _) as [m n]. injection E1 as <-.
      cbn [l_not_loaded]. lia.
    + destruct (l_parent s) as [p|]; [|discriminate].
      destruct (nth_error (mem s) p) as [n|]; [|discriminate].
      injection E1 as <-. cbn [l_not_loaded]. lia.
    + injection E1 as <-. lia.
Qed.

(** The pass on pointers does what [sort_playlists] does, whichever of the
    two calls of [merge_sort] runs first, and, when it comes to [free_list],
    hands every record of the memory to [free] once. *)
Lemma heap_sort_playlists_refines (left_first : bool) (fuel : nat)
  (pc : sp_playlistcontainer) :
  (length pc + 3 <= fuel)%nat ->
  exists freed,
    Heap.sort_playlists left_first fuel pc = Some (sort_playlists pc, freed) /\
    forall s,
      first_loop pc 0 first_locals = Ok s ->
      (l_not_loaded s >? 0) = false ->
      returned (sort_playlists pc) = Ok 1 ->
      Permutation freed (seq 0 (length (mem s))).
Proof.
  intros F. unfold Heap.sort_playlists, sort_playlists. cbv zeta.
  fold first_locals.
  destruct (first_loop pc 0 first_locals) as [s|f] eqn:E.
  2:{ exists []. split; [reflexivity|]. intros s [=]. }
  destruct (first_loop_realises pc s E) as (l & R & A & L).
  assert (Lp : (length (mem s) <= length pc)%nat)
    by (rewrite L; apply filter_length_le).
  assert (Nl : nodes_in l = length (mem s))
    by (unfold nodes_in; now rewrite A, length_seq).
  destruct (l_not_loaded s >? 0) eqn:G.
  { exists []. split; [reflexivity|]. intros s' [= <-]. congruence. }
  destruct (l_items s) as [a0|] eqn:I.
  2:{ exists []. split; [reflexivity|]. intros s' [= <-] _ _.
      apply realises_null in R. subst l. cbn in Nl. rewrite <- Nl. constructor. }
  assert (ND : NoDup (addrs l)) by (rewrite A; apply seq_NoDup).
  destruct (sort_list_refines left_first fuel (mem s) (Some a0) l R ND ltac:(lia))
    as (m' & h' & l' & S1 & R1 & P1 & N1 & E1).
  rewrite S1.
  rewrite (chain_at_realises (S (length (mem s))) (mem s) (Some a0) l R ltac:(lia)).
  assert (Nl' : nodes_in l' = nodes_in l)
    by (unfold nodes_in; now rewrite (Permutation_length P1)).
  assert (NE : l' <> []).
  { intros ->. destruct l as [|x l]; [apply realises_nil in R; discriminate|].
    destruct x as [a k]. rewrite nodes_in_cons in Nl'. cbn in Nl'. lia. }
  rewrite (flatten_list_refines fuel m' h' l' _ R1 NE ltac:(lia)), N1.
  destruct (flatten_list (sort_list (nodes (mem s) l)) _) as [reorder|f].
  2:{ exists []. split; [reflexivity|]. intros s' _ _ [=]. }
  destruct (move_loop _ reorder _ 0) as [t [v|f]].
  2:{ exists []. split; [reflexivity|]. intros s' _ _ [=]. }
  destruct (free_list_refines fuel m' h' l' R1 NE ltac:(lia)) as (freed & S3 & P3).
  rewrite S3. exists freed. split; [reflexivity|].
  intros s' [= <-] _ _. now rewrite P3, P1, A.
Qed.

(** X22: [merge] on two chains in memory that share no record, with fuel
    for every node, returns the head of one chain of the same records; read
    as a list it is [merge] of the two lists; no record is made, no item,
    [parent] or [children] changes, and only the [next] of the records of
    the two chains may change. *)
Theorem merge_in_place (fuel : nat) (m : memory) (h1 h2 : option nat)
  (l1 l2 : list shape) :
  realises m h1 l1 -> realises m h2 l2 ->
  NoDup (addrs l1 ++ addrs l2) ->
  (length l1 + length l2 < fuel)%nat ->
  exists m' h' l',
    Heap.merge fuel m h1 h2 = Some (Ok (m', h')) /\
    realises m' h' l' /\
    Permutation l' (l1 ++ l2) /\
    nodes m l' = merge (nodes m l1) (nodes m l2) /\
    evolves m m' (tops l1 ++ tops l2) [].
Proof. apply merge_refines. Qed.

Lemma merge_in_place_witness :
  let m := [mk_s_node None None None (create_playlist_item 0 "b");
            mk_s_node None None None (create_playlist_item 1 "a")] in
  exists m' h' l',
    Heap.merge 3 m (Some 0%nat) (Some 1%nat) = Some (Ok (m', h')) /\
    realises m' h' l' /\
    Permutation l' ([Shape 0 []] ++ [Shape 1 []]) /\
    nodes m l' = merge (nodes m [Shape 0 []]) (nodes m [Shape 1 []]) /\
    evolves m m' (tops [Shape 0 []] ++ tops [Shape 1 []]) [].
Proof.
  intros m. apply merge_in_place.
  - apply (segment_cons m 0 _ [] [] None eq_refl); constructor.
  - apply (segment_cons m 1 _ [] [] None eq_refl); constructor.
  - repeat constructor; cbn; lia.
  - cbn. lia.
Defined.

(** X23: [merge_sort] on a chain in memory, with fuel for every node and
    two more, returns the head of a chain of the same records that reads as
    [merge_sort] of the list, whichever of its two recursive calls runs
    first; it makes no record and changes no item, [parent] or [children],
    only the [next] of the records of the chain. *)
Theorem merge_sort_in_place (left_first : bool) (fuel : nat) (m : memory)
  (h : option nat) (l : list shape) :
  realises m h l -> NoDup (addrs l) -> (length l + 2 <= fuel)%nat ->
  exists m' h' l',
    Heap.merge_sort left_first fuel m h = Some (Ok (m', h')) /\
    realises m' h' l' /\
    Permutation l' l /\
    nodes m l' = merge_sort (nodes m l) /\
    evolves m m' (tops l) [].
Proof. apply merge_sort_refines. Qed.

Lemma merge_sort_in_place_witness :
  let m := [mk_s_node (Some 1%nat) None None (create_playlist_item 0 "c");
            mk_s_node (Some 2%nat) None None (create_playlist_item 1 "b");
            mk_s_node None None None (create_playlist_item 2 "a")] in
  let l := [Shape 0 []; Shape 1 []; Shape 2 []] in
  exists m' h' l',
    Heap.merge_sort false 5 m (Some 0%nat) = Some (Ok (m', h')) /\
    realises m' h' l' /\
    Permutation l' l /\
    nodes m l' = merge_sort (nodes m l) /\
    evolves m m' (tops l) [].
Proof.
  intros m l. apply merge_sort_in_place.
  - apply (segment_cons m 0 _ [] _ None eq_refl); [constructor|].
    apply (segment_cons m 1 _ [] _ None eq_refl); [constructor|].
    apply (segment_cons m 2 _ [] _ None eq_refl); constructor.
  - repeat constructor; cbn; lia.
  - cbn. lia.
Defined.

(** X24: [sort_list] on a forest in memory, with fuel for every node and
    three more, sorts in place: it returns the head of a forest of the same
    records that reads as [sort_list] of the forest it was given, whichever
    call of [merge_sort] runs first; it makes no record and changes no item
    and no [parent]. *)
Theorem sort_list_in_place (left_first : bool) (fuel : nat) (m : memory)
  (h : option nat) (l : list shape) :
  realises m h l -> NoDup (addrs l) -> (nodes_in l + 3 <= fuel)%nat ->
  exists m' h' l',
    Heap.sort_list left_first fuel m h = Some (Ok (m', h')) /\
    realises m' h' l' /\
    Permutation (addrs l') (addrs l) /\
    nodes m' l' = sort_list (nodes m l) /\
    evolves m m' (addrs l) (addrs l).
Proof. apply sort_list_refines. Qed.

Lemma sort_list_in_place_witness :
  let m := [mk_s_node None (Some 1%nat) None (create_playlist_item 0 "f");
            mk_s_node (Some 2%nat) None (Some 0%nat) (create_playlist_item 1 "b");
            mk_s_node None None (Some 0%nat) (create_playlist_item 2 "a")] in
  let l := [Shape 0 [Shape 1 []; Shape 2 []]] in
  exists m' h' l',
    Heap.sort_list true 6 m (Some 0%nat) = Some (Ok (m', h')) /\
    realises m' h' l' /\
    Permutation (addrs l') (addrs l) /\
    nodes m' l' = sort_list (nodes m l) /\
    evolves m m' (addrs l) (addrs l).
Proof.
  intros m l. apply sort_list_in_place.
  - apply (segment_cons m 0 _ _ [] None eq_refl); [|constructor].
    apply (segment_cons m 1 _ [] _ None eq_refl); [constructor|].
    apply (segment_cons m 2 _ [] _ None eq_refl); constructor.
  - repeat constructor; cbn; lia.
  - cbn. lia.
Defined.

(** X7: [flatten_list] on a forest in memory, with fuel for every node and
    one more, stores the flattening of the forest in the first cells of
    [reorder], from index 0, and leaves the cells behind them as they were;
    when the flattening is longer than the array it goes wrong at the store
    at the index that is the length of the array; called with a null
    pointer it follows the null pointer.  [flatten_list] on the forest read
    as a list does the same. *)
Theorem flatten_list_effect (fuel : nat) (m : memory) (h : option nat)
  (l : list shape) (reorder : list cell) :
  realises m h l -> (nodes_in l < fuel)%nat ->
  Heap.flatten_list fuel m h reorder = Some (flatten_list (nodes m l) reorder) /\
  flatten_list (nodes m l) reorder =
  match l with
  | [] => Fault NullDereference
  | _ :: _ =>
      if (flat_len (nodes m l) <=? length reorder)%nat
      then Ok (map Some (_flatten_list (nodes m l))
               ++ skipn (flat_len (nodes m l)) reorder)
      else Fault (OutOfBounds (length reorder))
  end.
Proof.
  intros R F. destruct l as [|s l].
  - apply realises_nil in R. subst h.
    destruct fuel as [|fuel]; [lia|]. split; reflexivity.
  - split.
    + apply flatten_list_refines; [exact R | discriminate | lia].
    + apply flatten_list_stores. discriminate.
Qed.

Lemma flatten_list_effect_witness :
  let m := [mk_s_node (Some 2%nat) (Some 1%nat) None (create_playlist_item 0 "f");
            mk_s_node None None (Some 0%nat) (create_playlist_item 1 "a");
            mk_s_node None None None (create_playlist_item 3 "b")] in
  let l := [Shape 0 [Shape 1 []]; Shape 2 []] in
  let reorder := malloc 5 in
  Heap.flatten_list 4 m (Some 0%nat) reorder =
  Some (flatten_list (nodes m l) reorder) /\
  flatten_list (nodes m l) reorder =
  match l with
  | [] => Fault NullDereference
  | _ :: _ =>
      if (flat_len (nodes m l) <=? length reorder)%nat
      then Ok (map Some (_flatten_list (nodes m l))
               ++ skipn (flat_len (nodes m l)) reorder)
      else Fault (OutOfBounds (length reorder))
  end.
Proof.
  intros m l reorder. apply flatten_list_effect.
  - apply (segment_cons m 0 _ _ _ None eq_refl).
    + apply (segment_cons m 1 _ [] _ None eq_refl); constructor.
    + apply (segment_cons m 2 _ [] _ None eq_refl); constructor.
  - cbn. lia.
Defined.

(** X25: [flatten_list] on a forest in memory that is not empty, with fuel
    for every node, stores into [reorder] what [flatten_list] on the forest
    read as a list stores, and stops at the same store out of bounds. *)
Theorem flatten_list_in_place (fuel : nat) (m : memory) (h : option nat)
  (l : list shape) (reorder : list cell) :
  realises m h l -> l <> [] -> (nodes_in l <= fuel)%nat ->
  Heap.flatten_list fuel m h reorder = Some (flatten_list (nodes m l) reorder).
Proof. apply flatten_list_refines. Qed.

Lemma flatten_list_in_place_witness :
  let m := [mk_s_node None (Some 1%nat) None (create_playlist_item 0 "f");
            mk_s_node None None (Some 0%nat) (create_playlist_item 1 "a")] in
  let l := [Shape 0 [Shape 1 []]] in
  Heap.flatten_list 2 m (Some 0%nat) (malloc 2) =
  Some (flatten_list (nodes m l) (malloc 2)).
Proof.
  intros m l. apply flatten_list_in_place.
  - apply (segment_cons m 0 _ _ [] None eq_refl); [|constructor].
    apply (segment_cons m 1 _ [] _ None eq_refl); constructor.
  - discriminate.
  - cbn. lia.
Defined.

(** X26: [free_list] on a forest in memory that is not empty, with fuel for
    every node, hands each record of the forest to [free] once and no other
    address. *)
Theorem free_list_frees_each_node_once (fuel : nat) (m : memory)
  (h : option nat) (l : list shape) :
  realises m h l -> l <> [] -> (nodes_in l <= fuel)%nat ->
  exists freed,
    Heap.free_list fuel m h = Some (Ok freed) /\ Permutation freed (addrs l).
Proof. apply free_list_refines. Qed.

Lemma free_list_frees_each_node_once_witness :
  let m := [mk_s_node (Some 2%nat) (Some 1%nat) None (create_playlist_item 0 "f");
            mk_s_node None None (Some 0%nat) (create_playlist_item 1 "a");
            mk_s_node None None None (create_playlist_item 3 "b")] in
  let l := [Shape 0 [Shape 1 []]; Shape 2 []] in
  exists freed,
    Heap.free_list 3 m (Some 0%nat) = Some (Ok freed) /\
    Permutation freed (addrs l).
Proof.
  intros m l. apply free_list_frees_each_node_once.
  - apply (segment_cons m 0 _ _ _ None eq_refl).
    + apply (segment_cons m 1 _ [] _ None eq_refl); constructor.
    + apply (segment_cons m 2 _ [] _ None eq_refl); constructor.
  - discriminate.
  - cbn. lia.
Defined.

(** X27: with fuel for every entry and three more, [sort_playlists] with
    the sorter, the flattening and [free_list] run on the records in memory
    does what [sort_playlists] on lists does, the same calls and the same
    end, whichever of the two calls of [merge_sort] runs first. *)
Theorem sort_playlists_in_place (left_first : bool) (fuel : nat)
  (pc : sp_playlistcontainer) :
  (length pc + 3 <= fuel)%nat ->
  exists freed,
    Heap.sort_playlists left_first fuel pc = Some (sort_playlists pc, freed).
Proof.
  intros F.
  destruct (heap_sort_playlists_refines left_first fuel pc F) as (freed & E & _).
  now exists freed.
Qed.

Lemma sort_playlists_in_place_witness :
  let pc := [SP_PLAYLIST_TYPE_PLAYLIST true "b"; SP_PLAYLIST_TYPE_START_FOLDER "f";
             SP_PLAYLIST_TYPE_PLAYLIST true "a"; SP_PLAYLIST_TYPE_END_FOLDER] in
  exists freed,
    Heap.sort_playlists false 7 pc = Some (sort_playlists pc, freed).
Proof.
  intros pc. apply sort_playlists_in_place. cbn. lia.
Defined.

(** X28: a pass over a container with every playlist loaded that returns 1
    has handed every node the first loop made, one for each playlist and
    each start of a folder, to [free] once. *)
Theorem completed_pass_frees_every_node (left_first : bool) (fuel : nat)
  (pc : sp_playlistcontainer) :
  (length pc + 3 <= fuel)%nat ->
  fully_loaded pc = true ->
  returned (sort_playlists pc) = Ok 1 ->
  exists freed,
    Heap.sort_playlists left_first fuel pc = Some (sort_playlists pc, freed) /\
    Permutation freed (seq 0 (length (filter makes_node pc))).
Proof.
  intros F FL Rt.
  destruct (heap_sort_playlists_refines left_first fuel pc F) as (freed & E & Fr).
  exists freed. split; [exact E|].
  destruct (first_loop pc 0 first_locals) as [s|f] eqn:E1.
  - destruct (first_loop_realises pc s E1) as (_ & _ & _ & L). rewrite <- L.
    apply (Fr s eq_refl); [|exact Rt].
    rewrite (first_loop_not_loaded pc 0 _ s E1), (count_not_loaded_fully pc FL).
    reflexivity.
  - unfold sort_playlists in Rt. fold first_locals in Rt. rewrite E1 in Rt.
    discriminate.
Qed.

Lemma completed_pass_frees_every_node_witness :
  let pc := [SP_PLAYLIST_TYPE_PLAYLIST true "b"; SP_PLAYLIST_TYPE_START_FOLDER "f";
             SP_PLAYLIST_TYPE_PLAYLIST true "a"; SP_PLAYLIST_TYPE_END_FOLDER] in
  exists freed,
    Heap.sort_playlists true 7 pc = Some (sort_playlists pc, freed) /\
    Permutation freed (seq 0 (length (filter makes_node pc))).
Proof.
  intros pc. apply completed_pass_frees_every_node.
  - cbn. lia.
  - reflexivity.
  - vm_compute. reflexivity.
Defined.

(** X29: when a playlist is not loaded and the first loop comes to its end,
    the pass returns 1 and frees none of the nodes the first loop made, one
    for each loaded playlist and each start of a folder. *)
Theorem unloaded_pass_frees_nothing (left_first : bool) (fuel : nat)
  (pc : sp_playlistcontainer) (s : locals) :
  first_loop pc 0 first_locals = Ok s ->
  existsb is_not_loaded pc = true ->
  Heap.sort_playlists left_first fuel pc = Some (sort_playlists pc, []) /\
  returned (sort_playlists pc) = Ok 1 /\
  length (mem s) = length (filter makes_node pc).
Proof.
  intros E U.
  pose proof (first_loop_not_loaded pc 0 _ s E) as N. cbn [first_locals l_not_loaded] in N.
  pose proof (count_not_loaded_pos pc U) as P.
  assert (G : (l_not_loaded s >? 0) = true)
    by (destruct (Z.gtb_spec (l_not_loaded s) 0); [reflexivity | lia]).
  destruct (first_loop_realises pc s E) as (_ & _ & _ & L).
  unfold Heap.sort_playlists, sort_playlists. cbv zeta. fold first_locals.
  rewrite E, G. repeat split. exact L.
Qed.

Lemma unloaded_pass_frees_nothing_witness :
  let pc := [SP_PLAYLIST_TYPE_PLAYLIST true "b"; SP_PLAYLIST_TYPE_PLAYLIST false "a"] in
  let s := mk_locals (fst (create_node [] None None (create_playlist_item 0 "b")))
             (Some 0%nat) None (Some 0%nat) 1 in
  Heap.sort_playlists true 0 pc = Some (sort_playlists pc, []) /\
  returned (sort_playlists pc) = Ok 1 /\
  length (mem s) = length (filter makes_node pc).
Proof.
  intros pc s. apply unloaded_pass_frees_nothing; reflexivity.
Defined.
